(** * Palmares server: path templates, router tree composition, dispatch

    A shallow embedding of
    - [packages/server/src/router/routers.ts] ([BaseRouter], [MethodsRouter]):
      the path-template scanner, the handler methods, [nested],
      [appendChildToParentRouter] and [middlewares];
    - [packages/server/src/server/routes.ts] ([ServerRoutes]): the path
      parameter parser and the per-request handler;
    - [libs/express-adapter/src/request.ts]: [headers], [params] and
      [query].

    JavaScript objects that are shared and mutated (routers, handler
    objects, middleware instances) live in explicit stores and are named by
    references; loops without a syntactic bound take a fuel argument and
    return [None] when the fuel is used up. *)

From Stdlib Require Import Ascii String ZArith.
From stdpp Require Import base option list strings gmap.

Local Open Scope string_scope.
Local Open Scope list_scope.

(** ** JavaScript primitives used by the sources *)
Module Js.

(** [a[i]] on an array of one-character strings: [None] is [undefined]. *)
Definition at_ (cs : list ascii) (i : nat) : option ascii := cs !! i.

(** [a[i] === 'c']. *)
Definition is_char (cs : list ascii) (i : nat) (c : ascii) : bool :=
  match at_ cs i with
  | Some a => Ascii.eqb a c
  | None => false
  end.

(** [s += a[i]]: appending [undefined] appends its string conversion. *)
Definition add (s : string) (c : option ascii) : string :=
  s +:+ match c with
        | Some a => String a EmptyString
        | None => "undefined"
        end.

(** [`${x}`] for [x : string | undefined]. *)
Definition template (s : option string) : string :=
  match s with Some x => x | None => "undefined" end.

(** [path.split('')]. *)
Definition split_chars (s : string) : list ascii := list_ascii_of_string s.

(** [s.slice(from, to)] for [0 <= from]; [to] is clamped to the length. *)
Definition slice (s : string) (from to : nat) : string :=
  substring from (to - from) s.

(** [s.replace(pat, '')] with a string pattern: the first occurrence of
    [pat] is removed. *)
Fixpoint remove_first (pat s : string) : string :=
  if String.prefix pat s then substring (String.length pat) (String.length s) s
  else match s with
       | EmptyString => EmptyString
       | String a s' => String a (remove_first pat s')
       end.

(** [s.replace(/^\?/g, '')]. *)
Definition strip_question (s : string) : string :=
  match s with
  | String "?"%char s' => s'
  | _ => s
  end.

(** *** Plain objects used as records ([Record<string, V>])

    An object is the list of its own properties in the order
    [Object.keys] gives them: array-index keys first, by value, then the
    other keys in the order they were created. *)
Abbreviation Obj V := (list (string * V)) (only parsing).

Definition digit_of (a : ascii) : option N :=
  let n := N_of_ascii a in
  if ((48 <=? n) && (n <=? 57))%N then Some (n - 48)%N else None.

Fixpoint digits_value (s : string) (acc : N) : option N :=
  match s with
  | EmptyString => Some acc
  | String a s' =>
      match digit_of a with
      | Some d => digits_value s' (10 * acc + d)%N
      | None => None
      end
  end.

(** The array index a property key denotes, when it is the canonical
    decimal form of an integer below [2^32 - 1]. *)
Definition array_index (k : string) : option N :=
  match k with
  | EmptyString => None
  | String "0"%char EmptyString => Some 0%N
  | String "0"%char _ => None
  | _ => match digits_value k 0 with
         | Some n => if (n <? 4294967295)%N then Some n else None
         | None => None
         end
  end.

(** The names of the members of [Object.prototype].  On a plain object
    with no own property of that name a read [o[k]] finds the inherited
    member, and the assignment [o.__proto__ = v] goes to the inherited
    setter and makes no own property.  The objects below are lists of own
    properties: [obj_get] is the read and [obj_set] the assignment for the
    names that are not [inherited], and [obj_assign] is the assignment
    for any name. *)
Definition object_prototype_members : list string :=
  ["constructor"; "__defineGetter__"; "__defineSetter__"; "hasOwnProperty";
   "__lookupGetter__"; "__lookupSetter__"; "isPrototypeOf";
   "propertyIsEnumerable"; "toString"; "valueOf"; "__proto__"; "toLocaleString"].

Definition inherited (k : string) : bool :=
  existsb (String.eqb k) object_prototype_members.

Section Obj.
Context {V : Type}.

Fixpoint obj_get (k : string) (o : Obj V) : option V :=
  match o with
  | [] => None
  | (k', v) :: o' => if String.eqb k k' then Some v else obj_get k o'
  end.

Definition obj_keys (o : Obj V) : list string := o.*1.

Fixpoint obj_replace (k : string) (v : V) (o : Obj V) : Obj V :=
  match o with
  | [] => []
  | (k', v') :: o' =>
      if String.eqb k k' then (k', v) :: o' else (k', v') :: obj_replace k v o'
  end.

(** Position of a new array-index key [n]: before the first key that is
    not an array index or is a larger one. *)
Fixpoint obj_insert_index (n : N) (k : string) (v : V) (o : Obj V) : Obj V :=
  match o with
  | [] => [(k, v)]
  | (k', v') :: o' =>
      match array_index k' with
      | Some n' =>
          if (n' <? n)%N then (k', v') :: obj_insert_index n k v o'
          else (k, v) :: o
      | None => (k, v) :: o
      end
  end.

(** [o[k] = v]. *)
Definition obj_set (k : string) (v : V) (o : Obj V) : Obj V :=
  match obj_get k o with
  | Some _ => obj_replace k v o
  | None =>
      match array_index k with
      | Some n => obj_insert_index n k v o
      | None => o ++ [(k, v)]
      end
  end.

(** [o[k] = v] on a plain object, whatever [k] is: under [__proto__] the
    assignment goes to the setter inherited from [Object.prototype] and
    the object gets no own property. *)
Definition obj_assign (k : string) (v : V) (o : Obj V) : Obj V :=
  if String.eqb k "__proto__" then o else obj_set k v o.

(** [delete o[k]]. *)
Definition obj_delete (k : string) (o : Obj V) : Obj V :=
  filter (λ kv, kv.1 ≠ k) o.
End Obj.

(** *** [Map<string, V>]: entries in insertion order; [set] on a present
    key replaces the value where it stands. *)
Abbreviation Map V := (list (string * V)) (only parsing).

Section Map.
Context {V : Type}.

Definition map_get (k : string) (m : Map V) : option V := obj_get k m.

Definition map_set (k : string) (v : V) (m : Map V) : Map V :=
  match obj_get k m with
  | Some _ => obj_replace k v m
  | None => m ++ [(k, v)]
  end.

(** [new Map(entries)]. *)
Definition map_of_entries (es : list (string * V)) : Map V :=
  foldl (λ m kv, map_set kv.1 kv.2 m) [] es.

Definition map_size (m : Map V) : nat := length m.
End Map.

End Js.

(** ** The path-template scanner ([BaseRouter.extract*]) *)
Module PathTemplate.
Import Js.

Record UrlParam := mkUrlParam {
  up_type : list string;
  up_regex : string            (* source text given to [new RegExp] *)
}.

Record QueryParam := mkQueryParam {
  qp_type : list string;
  qp_isOptional : bool;
  qp_isArray : bool;
  qp_regex : option string     (* [None] is [undefined] *)
}.

Record PathPart := mkPathPart {
  part : option string;        (* [None] is [undefined] *)
  isUrlParam : bool
}.

Record Parsed := mkParsed {
  urlParams : Obj UrlParam;
  queryParams : Obj QueryParam;
  urlPath : string;
  queryPath : string;
  partsOfPath : list PathPart
}.

(** [const ignoreSpaces = () => { if (splittedPath[index] === ' ') index++; }] *)
Definition ignoreSpaces (cs : list ascii) (index : nat) : nat :=
  if is_char cs index " " then S index else index.

(** The loop shape shared by the name, type and regex scans:
    [while (splittedPath[index] !== stop) { ignoreSpaces();
       acc += splittedPath[index]; index++; }].
    There is no test of [index] against the length. *)
Fixpoint scan_until (stop : ascii) (fuel : nat) (cs : list ascii)
    (index : nat) (acc : string) : option (nat * string) :=
  match fuel with
  | 0 => None
  | S fuel' =>
      if is_char cs index stop then Some (index, acc)
      else
        let index := ignoreSpaces cs index in
        scan_until stop fuel' cs (S index) (add acc (at_ cs index))
  end.

(** The loop after the [:] of a url parameter (routers.ts 362-380);
    the state is [(index, urlParamType, urlParamRegex)]. *)
Fixpoint url_type_loop (fuel : nat) (cs : list ascii) (index : nat)
    (ty rx : string) : option (nat * string * string) :=
  match fuel with
  | 0 => None
  | S fuel' =>
      if is_char cs index ">" then Some (index, ty, rx)
      else
        let index := ignoreSpaces cs index in
        let index := if is_char cs index ":" then S index else index in
        if is_char cs index "{" then
          '(index, rx) ← scan_until "}" fuel' cs (S index) rx;
          url_type_loop fuel' cs (S index) ty rx
        else
          '(index, ty) ← scan_until ">" fuel' cs index ty;
          url_type_loop fuel' cs index ty rx
  end.

(** The outer loop of [extractUrlParamsFromPath] (routers.ts 356-387);
    the state is [(index, urlParamName, urlParamType, urlParamRegex)]. *)
Fixpoint url_loop (fuel : nat) (cs : list ascii) (index : nat)
    (name ty rx : string) : option (nat * string * string * string) :=
  match fuel with
  | 0 => None
  | S fuel' =>
      if is_char cs index ">" then Some (index, name, ty, rx)
      else
        let index := ignoreSpaces cs index in
        if is_char cs index ":" then
          '(index, ty, rx) ← url_type_loop fuel' cs (S index) ty rx;
          url_loop fuel' cs index name ty rx
        else
          '(index, name) ← scan_until ":" fuel' cs index name;
          url_loop fuel' cs index name ty rx
  end.

(** [extractUrlParamsFromPath]: the loop, then
    [params[urlParamName] = {type: [urlParamType], regex: new RegExp(urlParamRegex)}].
    The regex is kept as the text given to [new RegExp]: the result is
    what the code returns when [new RegExp] accepts that text (it throws a
    [SyntaxError] for text that is no pattern, which is not modelled; the
    statements on regexes are about [Templates.regex_text]). *)
Definition extractUrlParamsFromPath (fuel : nat) (cs : list ascii)
    (params : Obj UrlParam) (initialIndex : nat)
    : option (nat * Obj UrlParam) :=
  '(index, name, ty, rx) ← url_loop fuel cs (S initialIndex) "" "" "";
  Some (S index, obj_assign name (mkUrlParam [ty] rx) params).

(** The variables of one turn of the outer loop of
    [extractQueryParamsFromPath]. *)
Record QState := mkQState {
  q_index : nat;
  q_name : string;
  q_type : string;
  q_regex : string;
  q_types : list string;
  q_isArray : bool;
  q_isOptional : bool
}.

Definition q_at (index : nat) (q : QState) : QState :=
  mkQState index (q_name q) (q_type q) (q_regex q) (q_types q)
           (q_isArray q) (q_isOptional q).

(** [splittedPath[index] !== '&' && index < splittedPath.length] *)
Definition hasNotReachedEndOrNextQueryParam (cs : list ascii) (index : nat) : bool :=
  negb (is_char cs index "&") && (index <? length cs)%nat.

(** The loop inside the parentheses (routers.ts 300-309); the state is
    [(index, queryParamType, queryParamTypes)]. *)
Fixpoint q_paren_loop (fuel : nat) (cs : list ascii) (index : nat)
    (ty : string) (tys : list string) : option (nat * string * list string) :=
  match fuel with
  | 0 => None
  | S fuel' =>
      if negb (is_char cs index ")") && (index <? length cs)%nat then
        let index := ignoreSpaces cs index in
        if is_char cs index "|" then q_paren_loop fuel' cs (S index) "" (tys ++ [ty])
        else q_paren_loop fuel' cs (S index) (add ty (at_ cs index)) tys
      else Some (index, ty, tys)
  end.

(** The loop over the type and its modifiers (routers.ts 291-315). *)
Fixpoint q_type_loop (fuel : nat) (cs : list ascii) (q : QState) : option QState :=
  match fuel with
  | 0 => None
  | S fuel' =>
      if hasNotReachedEndOrNextQueryParam cs (q_index q) then
        let index := ignoreSpaces cs (q_index q) in
        if is_char cs index "?" then
          q_type_loop fuel' cs
            (mkQState (S index) (q_name q) (q_type q) (q_regex q) (q_types q)
                      (q_isArray q) true)
        else if is_char cs index "[" && is_char cs (S index) "]" then
          q_type_loop fuel' cs
            (mkQState (S (index + 2)) (q_name q) (q_type q) (q_regex q) (q_types q)
                      true (q_isOptional q))
        else if is_char cs index "(" then
          let index := ignoreSpaces cs (S index) in
          '(index, ty, tys) ← q_paren_loop fuel' cs index (q_type q) (q_types q);
          let tys := if is_char cs index ")" then tys ++ [ty] else tys in
          q_type_loop fuel' cs
            (mkQState (S index) (q_name q) ty (q_regex q) tys
                      (q_isArray q) (q_isOptional q))
        else
          q_type_loop fuel' cs
            (mkQState (S index) (q_name q) (add (q_type q) (at_ cs index))
                      (q_regex q) (q_types q) (q_isArray q) (q_isOptional q))
      else Some q
  end.

(** The loop over one [name=spec] pair (routers.ts 276-320). *)
Fixpoint q_pair_loop (fuel : nat) (cs : list ascii) (q : QState) : option QState :=
  match fuel with
  | 0 => None
  | S fuel' =>
      if hasNotReachedEndOrNextQueryParam cs (q_index q) then
        let index := ignoreSpaces cs (q_index q) in
        if is_char cs index "&" then q_pair_loop fuel' cs (q_at (S index) q)
        else if is_char cs index "=" then
          let index := S index in
          '(index, rx) ←
            (if is_char cs index "{" then
               '(index, rx) ← scan_until "}" fuel' cs (S index) (q_regex q);
               Some (S index, rx)
             else Some (index, q_regex q));
          let index := if is_char cs index ":" then S index else index in
          q ← q_type_loop fuel' cs
                (mkQState index (q_name q) (q_type q) rx (q_types q)
                          (q_isArray q) (q_isOptional q));
          q_pair_loop fuel' cs q
        else
          q_pair_loop fuel' cs
            (mkQState (S index) (add (q_name q) (at_ cs index)) (q_type q)
                      (q_regex q) (q_types q) (q_isArray q) (q_isOptional q))
      else Some q
  end.

(** The outer loop of [extractQueryParamsFromPath] (routers.ts 269-330).
    As for url parameters, a regex is kept as the text given to
    [new RegExp]: the result is what the code returns when [new RegExp]
    accepts that text. *)
Fixpoint q_loop (fuel : nat) (cs : list ascii) (index : nat)
    (params : Obj QueryParam) : option (nat * Obj QueryParam) :=
  match fuel with
  | 0 => None
  | S fuel' =>
      if (index <? length cs)%nat then
        q ← q_pair_loop fuel' cs (mkQState index "" "" "" [] false false);
        let tys := if (length (q_types q) =? 0)%nat
                   then q_types q ++ [q_type q] else q_types q in
        let rx := if String.eqb (q_regex q) "" then None else Some (q_regex q) in
        q_loop fuel' cs (S (q_index q))
          (obj_assign (q_name q) (mkQueryParam tys (q_isOptional q) (q_isArray q) rx)
                      params)
      else Some (index, params)
  end.

Definition extractQueryParamsFromPath (fuel : nat) (cs : list ascii)
    (params : Obj QueryParam) (initialIndex : nat)
    : option (nat * Obj QueryParam) :=
  q_loop fuel cs (S initialIndex) params.

(** The variables of the loop of [extractUrlAndQueryParametersFromPath]. *)
Record TopState := mkTopState {
  t_urlParams : Obj UrlParam;
  t_queryParams : Obj QueryParam;
  t_parts : list PathPart;
  t_partOfPath : string;
  t_queryPath : string;
  t_index : nat
}.

Fixpoint top_loop (fuel : nat) (path : string) (cs : list ascii) (t : TopState)
    : option TopState :=
  match fuel with
  | 0 => None
  | S fuel' =>
      let index := t_index t in
      if (index <? length cs)%nat then
        if is_char cs index "<" then
          '(index, urlParams) ← extractUrlParamsFromPath fuel' cs (t_urlParams t) index;
          (* [undefined] when the object has no key *)
          let lastInsertedKey := last (obj_keys urlParams) in
          top_loop fuel' path cs
            (mkTopState urlParams (t_queryParams t)
                        (t_parts t ++ [mkPathPart lastInsertedKey true])
                        (t_partOfPath t) (t_queryPath t) index)
        else if is_char cs index "?" then
          '(index', queryParams) ←
            extractQueryParamsFromPath fuel' cs (t_queryParams t) index;
          top_loop fuel' path cs
            (mkTopState (t_urlParams t) queryParams (t_parts t) (t_partOfPath t)
                        (slice path index index') index')
        else if negb (is_char cs index "/") then
          top_loop fuel' path cs
            (mkTopState (t_urlParams t) (t_queryParams t) (t_parts t)
                        (add (t_partOfPath t) (at_ cs index)) (t_queryPath t) (S index))
        else if negb (String.eqb (t_partOfPath t) "") then
          top_loop fuel' path cs
            (mkTopState (t_urlParams t) (t_queryParams t)
                        (t_parts t ++ [mkPathPart (Some (t_partOfPath t)) false])
                        "" (t_queryPath t) (S index))
        else
          top_loop fuel' path cs
            (mkTopState (t_urlParams t) (t_queryParams t) (t_parts t)
                        "" (t_queryPath t) (S index))
      else Some t
  end.

Definition extractUrlAndQueryParametersFromPath (fuel : nat) (path : string)
    : option Parsed :=
  t ← top_loop fuel path (split_chars path) (mkTopState [] [] [] "" "" 0);
  let parts := if negb (String.eqb (t_partOfPath t) "")
               then t_parts t ++ [mkPathPart (Some (t_partOfPath t)) false]
               else t_parts t in
  Some (mkParsed (t_urlParams t) (t_queryParams t)
                 (remove_first (t_queryPath t) path)
                 (strip_question (t_queryPath t)) parts).

(** *** Predicates and inputs used in the statements below *)

(** [absent_from c index cs]: no [c] at position [index] or later. *)
Definition absent_from (c : ascii) (index : nat) (cs : list ascii) : bool :=
  forallb (λ a, negb (Ascii.eqb a c)) (drop index cs).

(** [plain_between cs i k]: positions [i .. k-1] hold neither [<] nor [?]. *)
Definition plain_between (cs : list ascii) (i k : nat) : bool :=
  forallb (λ a, negb (Ascii.eqb a "<") && negb (Ascii.eqb a "?"))
          (take (k - i) (drop i cs)).

(** A regex brace left open inside a url parameter. *)
Definition open_brace_url : string := "/<code: {^[A-Z]>".

(** A regex brace left open inside a query parameter. *)
Definition open_brace_query : string := "?q={a".

(** The query template of the interface section, and what the scanner
    makes of it. *)
Definition query_template : string :=
  "?page=number&tags=string[]&sort=string(asc|desc)?".

Definition query_template_params : Obj QueryParam :=
  [("page", mkQueryParam ["number"] false false None);
   ("tags", mkQueryParam ["stringsort=stringasc"; "desc"] true true None)].

End PathTemplate.

(** ** The router tree ([BaseRouter], [MethodsRouter])

    Routers and handler objects are JavaScript objects held by reference:
    a router is named from its children's [__parentRouter] and from route
    entries, a handler object from its router's [__handlers] and from every
    route entry made from it.  Both live in a store. *)
Module Routers.
Import Js PathTemplate.

Section Routers.
(** Middleware descriptors and handler functions are opaque values. *)
Context {Mw H : Type}.

(** A value of [__completePaths]. *)
Record CompletePath := mkCompletePath {
  cp_middlewares : list Mw;
  cp_urlParams : Map UrlParam;
  cp_queryPath : string;
  cp_urlPath : string;
  cp_queryParams : Map QueryParam;
  cp_partsOfPath : list PathPart;
  cp_router : nat;                       (* reference to a router *)
  cp_handlers : nat                      (* reference to a handler object *)
}.

Record Router := mkRouter {
  r_path : option string;                (* [path]; [None] is [undefined] *)
  r_partsOfPath : list PathPart;         (* [__partsOfPath] *)
  r_queryPath : string;                  (* [__queryParamsAndPath.path] *)
  r_queryParams : Map QueryParam;        (* [__queryParamsAndPath.params] *)
  r_urlPath : string;                    (* [__urlParamsAndPath.path] *)
  r_urlParams : Map UrlParam;            (* [__urlParamsAndPath.params] *)
  r_completePaths : Map CompletePath;    (* [__completePaths] *)
  r_parentRouter : option nat;           (* [__parentRouter] *)
  r_wasCreatedFromNested : bool;         (* [__wasCreatedFromNested] *)
  r_children : option (list nat);        (* [__children] *)
  r_middlewares : list Mw;               (* [__middlewares] *)
  r_handlers : option nat                (* [__handlers]; [None] is [undefined] *)
}.

Record Heap := mkHeap {
  routers : gmap nat Router;
  handler_objs : gmap nat (Obj H)
}.

Definition empty_heap : Heap := mkHeap ∅ ∅.

Definition with_completePaths (t : Map CompletePath) (r : Router) : Router :=
  mkRouter (r_path r) (r_partsOfPath r) (r_queryPath r) (r_queryParams r)
           (r_urlPath r) (r_urlParams r) t (r_parentRouter r)
           (r_wasCreatedFromNested r) (r_children r) (r_middlewares r) (r_handlers r).

Definition with_parent (isNested : bool) (parent : nat) (r : Router) : Router :=
  mkRouter (r_path r) (r_partsOfPath r) (r_queryPath r) (r_queryParams r)
           (r_urlPath r) (r_urlParams r) (r_completePaths r) (Some parent)
           isNested (r_children r) (r_middlewares r) (r_handlers r).

Definition with_children (cs : option (list nat)) (r : Router) : Router :=
  mkRouter (r_path r) (r_partsOfPath r) (r_queryPath r) (r_queryParams r)
           (r_urlPath r) (r_urlParams r) (r_completePaths r) (r_parentRouter r)
           (r_wasCreatedFromNested r) cs (r_middlewares r) (r_handlers r).

Definition with_middlewares (ms : list Mw) (t : Map CompletePath) (r : Router) : Router :=
  mkRouter (r_path r) (r_partsOfPath r) (r_queryPath r) (r_queryParams r)
           (r_urlPath r) (r_urlParams r) t (r_parentRouter r)
           (r_wasCreatedFromNested r) (r_children r) ms (r_handlers r).

Definition with_handlers (hs : option nat) (r : Router) : Router :=
  mkRouter (r_path r) (r_partsOfPath r) (r_queryPath r) (r_queryParams r)
           (r_urlPath r) (r_urlParams r) (r_completePaths r) (r_parentRouter r)
           (r_wasCreatedFromNested r) (r_children r) (r_middlewares r) hs.

Definition with_nested_flag (b : bool) (r : Router) : Router :=
  mkRouter (r_path r) (r_partsOfPath r) (r_queryPath r) (r_queryParams r)
           (r_urlPath r) (r_urlParams r) (r_completePaths r) (r_parentRouter r)
           b (r_children r) (r_middlewares r) (r_handlers r).

Definition put_router (id : nat) (r : Router) (h : Heap) : Heap :=
  mkHeap (<[id := r]> (routers h)) (handler_objs h).

Definition put_obj (id : nat) (o : Obj H) (h : Heap) : Heap :=
  mkHeap (routers h) (<[id := o]> (handler_objs h)).

(** [constructor(path, children)]: the path is scanned when the router is
    made ([path || '']). *)
Definition construct (fuel : nat) (path : option string)
    (children : option (list nat)) : option Router :=
  p ← extractUrlAndQueryParametersFromPath fuel (default "" path);
  Some (mkRouter path (partsOfPath p)
                 (queryPath p) (map_of_entries (queryParams p))
                 (urlPath p) (map_of_entries (urlParams p))
                 [] None false children [] None).

(** [BaseRouter.new(path)]: the new router and the store holding it. *)
Definition new (fuel : nat) (path : option string) (h : Heap) : option (nat * Heap) :=
  r ← construct fuel path None;
  let id := fresh (dom (routers h)) in
  Some (id, put_router id r h).

(** [BaseRouter.newNested()(path)]. *)
Definition newNested (fuel : nat) (path : string) (h : Heap) : option (nat * Heap) :=
  r ← construct fuel (Some path) None;
  let id := fresh (dom (routers h)) in
  Some (id, put_router id (with_nested_flag true r) h).

(** *** Handler methods

    Every handler method first removes properties from the object now in
    [__handlers], where it stands ([prune]), and then makes [__handlers] a
    new object: the spread of the old one with the property [key] set.
    With no object in [__handlers] the spread is over a fresh [{}]. *)
Definition replace_handlers (prune : Obj H → Obj H) (key : string) (handler : H)
    (this : nat) (h : Heap) : option Heap :=
  r ← routers h !! this;
  '(existingHandlers, h) ←
    match r_handlers r with
    | Some ref =>
        o ← handler_objs h !! ref;
        Some (prune o, put_obj ref (prune o) h)
    | None => Some ([], h)
    end;
  let ref := fresh (dom (handler_objs h)) in
  Some (put_router this (with_handlers (Some ref) r)
          (put_obj ref (obj_set key handler existingHandlers) h)).

(** [get], [post], [delete], [options], [head], [put] and [patch] have the
    same body up to the property name: [delete existingHandlers.all], then
    [{...existingHandlers, method: handler}]. *)
Definition define_method (method : string) : H → nat → Heap → option Heap :=
  replace_handlers (obj_delete "all") method.

Definition specific_methods : list string :=
  ["get"; "post"; "delete"; "options"; "head"; "put"; "patch"].

Definition get := define_method "get".
Definition post := define_method "post".
Definition delete_ := define_method "delete".
Definition options := define_method "options".
Definition head_ := define_method "head".
Definition put := define_method "put".
Definition patch := define_method "patch".

(** [all]: every property but [all] is deleted from the object now in
    [__handlers], then [{...existingHandlers, all: handler}]. *)
Definition all : H → nat → Heap → option Heap :=
  replace_handlers (filter (λ kv, kv.1 = "all")) "all".

(** A handler-defining call, and a sequence of them on one router. *)
Inductive HandlerCall :=
| CallMethod (method : string) (handler : H)
| CallAll (handler : H).

Definition handler_call (c : HandlerCall) : nat → Heap → option Heap :=
  match c with
  | CallMethod method handler => define_method method handler
  | CallAll handler => all handler
  end.

Fixpoint handler_calls (cs : list HandlerCall) (this : nat) (h : Heap) : option Heap :=
  match cs with
  | [] => Some h
  | c :: cs => h ← handler_call c this h; handler_calls cs this h
  end.

Definition known_method (c : HandlerCall) : Prop :=
  match c with
  | CallMethod method _ => method ∈ specific_methods
  | CallAll _ => True
  end.

(** The state machine of a handler set: no [all], or nothing but [all]. *)
Definition handler_set_ok (o : Obj H) : Prop :=
  obj_get "all" o = None ∨ ∀ k, k ≠ "all" → obj_get k o = None.

(** *** Composition *)

(** The entry written for a child that has handlers (routers.ts 200-209). *)
Definition own_entry (r c : Router) (child hs : nat) : string * CompletePath :=
  let fullUrlPath := r_urlPath r +:+ r_urlPath c in
  let fullQueryPath := r_queryPath r +:+ "&" +:+ r_queryPath c in
  (fullUrlPath,
   mkCompletePath (r_middlewares r ++ r_middlewares c)
                  (map_of_entries (r_urlParams r ++ r_urlParams c))
                  fullQueryPath fullUrlPath
                  (map_of_entries (r_queryParams r ++ r_queryParams c))
                  (r_partsOfPath r ++ r_partsOfPath c)
                  child hs).

(** The entry written for an entry of the child's table (routers.ts 213-225). *)
Definition lifted_entry (r c : Router) (child : nat)
    (e : string * CompletePath) : string * CompletePath :=
  let '(childPath, childPathData) := e in
  let fullUrlPath := r_urlPath r +:+ r_urlPath c in
  let fullQueryPath := r_queryPath r +:+ "&" +:+ r_queryPath c in
  (template (r_path r) +:+ childPath,
   mkCompletePath (r_middlewares r ++ cp_middlewares childPathData)
                  (map_of_entries (r_urlParams r ++ cp_urlParams childPathData))
                  (fullQueryPath +:+ "&" +:+ cp_queryPath childPathData)
                  (fullUrlPath +:+ cp_queryPath childPathData)
                  (map_of_entries (r_queryParams r ++ cp_queryParams childPathData))
                  (r_partsOfPath r ++ cp_partsOfPath childPathData)
                  child (cp_handlers childPathData)).

(** [typeof child.__handlers === 'object' &&
     Object.keys(child.__handlers).length > 0] *)
Definition existsHandlersOnChild (c : Router) (h : Heap) : option (option nat) :=
  match r_handlers c with
  | None => Some None
  | Some ref =>
      o ← handler_objs h !! ref;
      Some (if (0 <? length (obj_keys o))%nat then Some ref else None)
  end.

(** [router.__completePaths.set(k, v)] on the router [id]. *)
Definition set_completePath (id : nat) (e : string * CompletePath) (h : Heap)
    : option Heap :=
  r ← routers h !! id;
  Some (put_router id (with_completePaths (map_set e.1 e.2 (r_completePaths r)) r) h).

(** The [for ... of child.__completePaths.entries()] loop; the fields of
    [router] and [child] are read again at each turn.  The entries are
    those the table of [child] had when the loop started: the loop writes
    the table of [router], which is the table it walks only if [router]
    and [child] are one router, and that happens only on a cycle of
    parents, where the enclosing [while] never ends. *)
Fixpoint lift_entries (router child : nat) (es : list (string * CompletePath))
    (h : Heap) : option Heap :=
  match es with
  | [] => Some h
  | e :: es =>
      r ← routers h !! router;
      c ← routers h !! child;
      h ← set_completePath router (lifted_entry r c child e) h;
      lift_entries router child es h
  end.

(** One turn of the [while (router)] loop of [appendChildToParentRouter]:
    the store after it and the next value of [router]. *)
Definition append_step (router child : nat) (h : Heap) : option (option nat * Heap) :=
  r ← routers h !! router;
  c ← routers h !! child;
  handlersOnChild ← existsHandlersOnChild c h;
  let existsChildHandlersOnChild := (0 <? map_size (r_completePaths c))%nat in
  h ← match handlersOnChild with
      | Some hs => set_completePath router (own_entry r c child hs) h
      | None => Some h
      end;
  h ← (if existsChildHandlersOnChild then
         c ← routers h !! child;
         lift_entries router child (r_completePaths c) h
       else Some h);
  r ← routers h !! router;
  Some (r_parentRouter r, h).

(** [appendChildToParentRouter(router, child)]: [child] stays the same
    object while [router] climbs the [__parentRouter] links. *)
Fixpoint appendChildToParentRouter (fuel : nat) (router : option nat) (child : nat)
    (h : Heap) : option Heap :=
  match router with
  | None => Some h
  | Some id =>
      match fuel with
      | 0 => None
      | S fuel' =>
          '(next, h) ← append_step id child h;
          appendChildToParentRouter fuel' next child h
      end
  end.

(** The body of [childrenArray.map] in [nested]. *)
Definition attach_child (fuel : nat) (isNested : bool) (this child : nat) (h : Heap)
    : option Heap :=
  c ← routers h !! child;
  appendChildToParentRouter fuel (Some this) child
    (put_router child (with_parent isNested this c) h).

Fixpoint attach_children (fuel : nat) (isNested : bool) (this : nat)
    (children : list nat) (h : Heap) : option Heap :=
  match children with
  | [] => Some h
  | child :: children =>
      h ← attach_child fuel isNested this child h;
      attach_children fuel isNested this children h
  end.

(** [nested(children)]; [isNested] tells whether [children] was given as a
    function of the child factory, [children] is the array it denotes.
    The [IncludesRouter] made at the start is reachable from nothing
    afterwards and is not put in the store. *)
Definition nested (fuel : nat) (isNested : bool) (children : list nat) (this : nat)
    (h : Heap) : option Heap :=
  r ← routers h !! this;
  let doesChildrenAlreadyExists := r_children r in
  h ← attach_children fuel isNested this children h;
  r ← routers h !! this;
  let children' := match doesChildrenAlreadyExists, r_children r with
                   | Some _, Some old => Some (old ++ children)
                   | Some _, None => None
                   | None, _ => Some children
                   end in
  Some (put_router this (with_children children' r) h).

(** [handler.middlewares = definedMiddlewares.concat(handler.middlewares)] *)
Definition with_more_middlewares (definedMiddlewares : list Mw) (e : CompletePath)
    : CompletePath :=
  mkCompletePath (definedMiddlewares ++ cp_middlewares e)
                 (cp_urlParams e) (cp_queryPath e) (cp_urlPath e)
                 (cp_queryParams e) (cp_partsOfPath e)
                 (cp_router e) (cp_handlers e).

(** What [middlewares] does to its router. *)
Definition add_middlewares (definedMiddlewares : list Mw) (r : Router) : Router :=
  with_middlewares
    (r_middlewares r ++ definedMiddlewares)
    (prod_map id (with_more_middlewares definedMiddlewares) <$> r_completePaths r)
    r.

(** [middlewares(definedMiddlewares)]. *)
Definition middlewares (definedMiddlewares : list Mw) (this : nat) (h : Heap)
    : option Heap :=
  r ← routers h !! this;
  Some (put_router this (add_middlewares definedMiddlewares r) h).

(** The store after [middlewares], which is the same store when [this] is
    not in it. *)
Definition apply_middlewares (definedMiddlewares : list Mw) (this : nat) (h : Heap)
    : Heap :=
  default h (middlewares definedMiddlewares this h).

(** *** Reading the store *)

Definition completePaths_of (id : nat) (h : Heap) : Map CompletePath :=
  from_option r_completePaths [] (routers h !! id).

Definition route (id : nat) (key : string) (h : Heap) : option CompletePath :=
  map_get key (completePaths_of id h).

Definition handlers_of (id : nat) (h : Heap) : option (Obj H) :=
  r ← routers h !! id; ref ← r_handlers r; handler_objs h !! ref.

Definition entry_handlers (e : CompletePath) (h : Heap) : option (Obj H) :=
  handler_objs h !! cp_handlers e.

Definition handlers_ok (id : nat) (h : Heap) : Prop :=
  match handlers_of id h with
  | Some o => handler_set_ok o
  | None => True
  end.

(** The router [id] has handlers: what [existsHandlersOnChild] tests. *)
Definition has_handlers (id : nat) (h : Heap) : Prop :=
  ∃ o, handlers_of id h = Some o ∧ o ≠ [].

(** The table of [id] has an entry made for the router [child]. *)
Definition routes_to (id child : nat) (h : Heap) : Prop :=
  ∃ key e, route id key h = Some e ∧ cp_router e = child.

(** *** The tree *)

Definition parent_of (h : Heap) (id : nat) : option nat :=
  routers h !! id ≫= r_parentRouter.

(** [ancestor_or_self h x a]: [a] is [x] or is reached from [x] along
    [__parentRouter]. *)
Inductive ancestor_or_self (h : Heap) : nat → nat → Prop :=
| aos_self x : ancestor_or_self h x x
| aos_parent x p a :
    parent_of h x = Some p → ancestor_or_self h p a → ancestor_or_self h x a.

(** [chain h x l]: [l] lists [x] and its ancestors, from [x] up to a
    router without parent. *)
Inductive chain (h : Heap) : nat → list nat → Prop :=
| chain_root x r :
    routers h !! x = Some r → r_parentRouter r = None → chain h x [x]
| chain_step x r p l :
    routers h !! x = Some r → r_parentRouter r = Some p → chain h p l →
    chain h x (x :: l).

(** The router [id] is in the store, and so is its handler object if it
    has one. *)
Definition attachable (id : nat) (h : Heap) : Prop :=
  ∃ c, routers h !! id = Some c ∧
       ∀ ref, r_handlers c = Some ref → is_Some (handler_objs h !! ref).

(** What a router declares: its path and what was scanned from it, its
    middlewares and its handlers. *)
Definition declared (r : Router) :=
  (r_path r, r_partsOfPath r, r_queryPath r, r_queryParams r,
   r_urlPath r, r_urlParams r, r_middlewares r, r_handlers r).

(** How a router of [h'] stands to the same router of [h] after
    [this.nested(children)], [isNested] telling whether the children came
    from the child factory: what it declares is the same; a child has
    [this] as parent, the flag, and its table and children as before; any
    other router keeps parent and flag; only [this] can have other
    children; only [this] and its ancestors can have another table. *)
Definition attached_frame (isNested : bool) (children : list nat) (this : nat)
    (h h' : Heap) (id : nat) : Prop :=
  match routers h !! id, routers h' !! id with
  | Some r, Some r' =>
      declared r' = declared r ∧
      (id ∈ children →
         r_parentRouter r' = Some this ∧ r_wasCreatedFromNested r' = isNested ∧
         r_completePaths r' = r_completePaths r ∧ r_children r' = r_children r) ∧
      (id ∉ children →
         r_parentRouter r' = r_parentRouter r ∧
         r_wasCreatedFromNested r' = r_wasCreatedFromNested r) ∧
      (id ≠ this → r_children r' = r_children r) ∧
      (¬ ancestor_or_self h this id → r_completePaths r' = r_completePaths r)
  | None, None => True
  | _, _ => False
  end.

(** [h'] is [h] with other tables at some routers satisfying [P]. *)
Definition tables_changed_within (P : nat → Prop) (h h' : Heap) : Prop :=
  handler_objs h' = handler_objs h ∧
  ∀ id, routers h' !! id = routers h !! id ∨
        (P id ∧ ∃ r t, routers h !! id = Some r ∧
                       routers h' !! id = Some (with_completePaths t r)).

(** [this] has declared no middleware. *)
Definition no_middlewares_yet (this : nat) (h : Heap) : Prop :=
  ∀ r, routers h !! this = Some r → r_middlewares r = [].

(** [h'] has the route tables of [h]; the handler object of an entry has
    in [h'] no property it had not, with the same value, in [h]; and the
    object in [__handlers] of [this] in [h'] did not exist in [h]. *)
Definition route_entries_kept (this : nat) (h h' : Heap) : Prop :=
  (∀ id, completePaths_of id h' = completePaths_of id h) ∧
  (∀ id key e o,
     route id key h = Some e → entry_handlers e h = Some o →
     ∃ o', entry_handlers e h' = Some o' ∧
           ∀ k v, obj_get k o' = Some v → obj_get k o = Some v) ∧
  (∃ ref, routers h' !! this ≫= r_handlers = Some ref ∧
          handler_objs h !! ref = None).

End Routers.

Arguments CompletePath : clear implicits.
Arguments Router : clear implicits.
Arguments Heap : clear implicits.

End Routers.

(** ** Request handling ([ServerRoutes]) *)
Module Routes.
Import Js.

(** *** [#getPathParamsParser] *)

(** A JavaScript number as [parseInt] gives it: [NaN], a double whose
    value is an integer, [-0], or an infinity. *)
Inductive JsNumber :=
| NaN
| Num (z : Z)
| NegZero
| Infinity (negative : bool).

(** [pathParam.paramType]: ['string'], ['number'] or a [RegExp], given by
    its [test]. *)
Inductive PathParamsTypes :=
| TString
| TNumber
| TRegExp (test : string → bool).

Record PathParams := mkPathParams {
  value : string;               (* the [<...>] text in the path *)
  paramName : string;
  paramType : PathParamsTypes
}.

(** A value of [request.params]. *)
Inductive ParamValue :=
| PString (s : string)
| PNumber (n : JsNumber).

(** White space skipped by [parseInt], among the one-byte characters. *)
Definition is_white_space (a : ascii) : bool :=
  let n := N_of_ascii a in
  ((9 <=? n) && (n <=? 13) || (n =? 32) || (n =? 160))%N.

Fixpoint skip_white_space (s : string) : string :=
  match s with
  | String a s' => if is_white_space a then skip_white_space s' else s
  | EmptyString => s
  end.

Definition digit_in_radix (radix : N) (a : ascii) : option N :=
  let n := N_of_ascii a in
  let d := if ((48 <=? n) && (n <=? 57))%N then Some (n - 48)%N
           else if ((97 <=? n) && (n <=? 122))%N then Some (n - 87)%N
           else if ((65 <=? n) && (n <=? 90))%N then Some (n - 55)%N
           else None in
  match d with
  | Some d => if (d <? radix)%N then Some d else None
  | None => None
  end.

(** The longest prefix of digits of the radix; [None] when it is empty. *)
Fixpoint leading_digits (radix : N) (s : string) (acc : option N) : option N :=
  match s with
  | String a s' =>
      match digit_in_radix radix a with
      | Some d => leading_digits radix s' (Some (radix * default 0%N acc + d)%N)
      | None => acc
      end
  | EmptyString => acc
  end.

(** The double nearest to a natural number, ties to the even significand
    ([None] from [2^1024] on): the number is cut to its 53 leading bits
    and rounded by the bits cut off. *)
Definition round_to_double (n : N) : option N :=
  let e := (N.size n - 53)%N in
  let q := N.shiftr n e in
  let r := N.land n (N.ones e) in
  let half := N.shiftl 1 (e - 1) in
  let q := if ((0 <? e) && ((half <? r) || ((r =? half) && N.odd q)))%N
           then N.succ q else q in
  let m := N.shiftl q e in
  if (N.size m <=? 1024)%N then Some m else None.

(** The Number value of [sign * n], as [parseInt] returns it. *)
Definition number_of (negative : bool) (n : N) : JsNumber :=
  if (n =? 0)%N then (if negative then NegZero else Num 0)
  else match round_to_double n with
       | Some m => Num (if negative then - Z.of_N m else Z.of_N m)
       | None => Infinity negative
       end.

(** [parseInt(s)] with no radix argument.  The digits are read as a
    mathematical integer, which is then rounded to a double (the engine
    may take digits after the 20th significant decimal digit as zeros;
    V8 does not). *)
Definition parseInt (s : string) : JsNumber :=
  let s := skip_white_space s in
  let '(negative, s) :=
    match s with
    | String "-"%char s' => (true, s')
    | String "+"%char s' => (false, s')
    | _ => (false, s)
    end in
  let '(radix, s) :=
    match s with
    | String "0"%char (String "x"%char s') => (16%N, s')
    | String "0"%char (String "X"%char s') => (16%N, s')
    | _ => (10%N, s)
    end in
  match leading_digits radix s None with
  | Some n => number_of negative n
  | None => NaN
  end.

(** One turn of the [for (const pathParam of pathParams)] loop.
    [rawParams] holds the own properties of the raw object, and the read
    and the assignment are those of a name that is not [inherited]. *)
Definition parse_one (rawParams : gmap string string) (params : Obj ParamValue)
    (pathParam : PathParams) : Obj ParamValue :=
  match rawParams !! paramName pathParam with
  | Some paramValue =>
      if String.eqb paramValue "" then params     (* [if (paramValue)] *)
      else
        match paramType pathParam with
        | TString => obj_set (paramName pathParam) (PString paramValue) params
        | TNumber => obj_set (paramName pathParam) (PNumber (parseInt paramValue)) params
        | TRegExp test =>
            if test paramValue
            then obj_set (paramName pathParam) (PString paramValue) params
            else params
        end
  | None => params
  end.

(** The function [#getPathParamsParser] returns. *)
Definition getPathParamsParser (pathParams : list PathParams)
    (rawParams : gmap string string) : Obj ParamValue :=
  foldl (parse_one rawParams) [] pathParams.

(** *** [#getHandlerWithMiddlewaresAttached] and [#getHandlerForPath] *)

(** Values a handler can resolve to. *)
Inductive Value :=
| VUndefined
| VString (s : string)
| VResponse (status : Z) (body : string).

Record Request := mkRequest {
  req_method : string;
  req_path : string;
  req_rawParams : gmap string string;
  req_pathParamsParser : option (gmap string string → Obj ParamValue)
}.

(** Modelled from the spec: the class [Middleware] of [../middlewares] is
    not among the files at hand.  An instance "exposes an initialization
    operation that receives the next-stage callable and a run operation
    invoked with the request context": a subclass is taken as what its
    [run] does to a request before the next stage (pass a request on, or
    answer at once) and to the response after it. *)
Record MiddlewareClass := mkMiddlewareClass {
  mw_name : string;
  mw_request : Request → Request + Value;
  mw_response : Value → Value
}.

(** A bound function passed to [init]: another instance's [run] or the
    route handler. *)
Inductive Stage :=
| RunOf (instance : nat)
| TheHandler.

Record Instance := mkInstance {
  inst_class : MiddlewareClass;
  inst_next : option Stage;      (* what [init] was given *)
  inst_runs : nat                (* times [run] was called on this object *)
}.

Record LogEvent := mkLogEvent {
  log_method : string;
  log_path : string;
  log_elapsedTime : Z
}.

(** What a request can see and change. [clock] is the sequence of
    readings [performance.now()] will give, [reads] how many were taken. *)
Record World := mkWorld {
  instances : gmap nat Instance;
  created : list nat;            (* instances, in the order of their [new] *)
  ran : list nat;                (* instances, in the order of their [run] calls *)
  logged : list LogEvent;
  clock : nat → Z;
  reads : nat
}.

Definition performance_now (w : World) : Z * World :=
  (clock w (reads w),
   mkWorld (instances w) (created w) (ran w) (logged w) (clock w) (S (reads w))).

Definition logMessage (e : LogEvent) (w : World) : World :=
  mkWorld (instances w) (created w) (ran w) (logged w ++ [e]) (clock w) (reads w).

(** [new middleware()] *)
Definition instantiate (c : MiddlewareClass) (w : World) : nat * World :=
  let i := fresh (dom (instances w)) in
  (i, mkWorld (<[i := mkInstance c None 0]> (instances w)) (created w ++ [i])
              (ran w) (logged w) (clock w) (reads w)).

(** Modelled from the spec: [instance.init(next)] keeps the next stage. *)
Definition init (i : nat) (next : Stage) (w : World) : World :=
  mkWorld (alter (λ x, mkInstance (inst_class x) (Some next) (inst_runs x)) i (instances w))
          (created w) (ran w) (logged w) (clock w) (reads w).

(** The [for] loop of [#getHandlerWithMiddlewaresAttached] followed by the
    last [init]. *)
Fixpoint attach_rest (previous : nat) (middlewares : list MiddlewareClass) (w : World)
    : World :=
  match middlewares with
  | [] => init previous TheHandler w
  | nextMiddleware :: middlewares =>
      let '(next, w) := instantiate nextMiddleware w in
      attach_rest next middlewares (init previous (RunOf next) w)
  end.

Definition getHandlerWithMiddlewaresAttached (middlewares : list MiddlewareClass)
    (w : World) : Stage * World :=
  match middlewares with
  | [] => (TheHandler, w)
  | previousMiddleware :: middlewares =>
      let '(first, w) := instantiate previousMiddleware w in
      (RunOf first, attach_rest first middlewares w)
  end.

(** Modelled from the spec: [run] of the class [Middleware], which is not
    among the files at hand.  Calling a stage with a request: the handler
    answers; an instance counts the call, lets its class look at the
    request, calls the stage [init] gave it unless the class has answered,
    and lets its class look at the response. *)
Fixpoint call_stage (fuel : nat) (handler : Request → Value) (s : Stage)
    (request : Request) (w : World) : option (Value * World) :=
  match s with
  | TheHandler => Some (handler request, w)
  | RunOf i =>
      match fuel with
      | 0 => None
      | S fuel' =>
          x ← instances w !! i;
          let w := mkWorld (<[i := mkInstance (inst_class x) (inst_next x) (S (inst_runs x))]>
                              (instances w))
                           (created w) (ran w ++ [i]) (logged w) (clock w) (reads w) in
          match mw_request (inst_class x) request with
          | inl request =>
              next ← inst_next x;
              '(response, w) ← call_stage fuel' handler next request w;
              Some (mw_response (inst_class x) response, w)
          | inr response => Some (response, w)
          end
      end
  end.

(** The function [#getHandlerForPath] returns, applied to a raw request;
    [translate] is [server.requests.translate]. *)
Definition handle_request {Raw : Type} (translate : Raw → Request)
    (fuel : nat) (handler : Request → Value)
    (pathParamsParser : gmap string string → Obj ParamValue)
    (middlewares : list MiddlewareClass) (req : Raw) (w : World)
    : option (Value * World) :=
  let '(elapsedStartTime, w) := performance_now w in
  let request := translate req in
  let request := mkRequest (req_method request) (req_path request)
                           (req_rawParams request) (Some pathParamsParser) in
  let '(requestHandler, w) := getHandlerWithMiddlewaresAttached middlewares w in
  '(response, w) ← call_stage fuel handler requestHandler request w;
  let '(elapsedEndTime, w) := performance_now w in
  let elapsedTime := (elapsedEndTime - elapsedStartTime)%Z in
  let w := logMessage (mkLogEvent (req_method request) (req_path request) elapsedTime) w in
  Some (VString "TESTE", w).

(** The stage a list of instances starts with, and what it means for the
    list to be linked as [#getHandlerWithMiddlewaresAttached] links it:
    each instance was given the [run] of the next one, the last one the
    handler. *)
Definition stage_of (ids : list nat) : Stage :=
  match ids with
  | [] => TheHandler
  | i :: _ => RunOf i
  end.

Fixpoint linked (ids : list nat) (w : World) : Prop :=
  match ids with
  | [] => True
  | i :: ids =>
      inst_next <$> instances w !! i = Some (Some (stage_of ids)) ∧ linked ids w
  end.

(** [#getHandlerForPath(handler, pathParamsParser, middlewares)]: making
    the function touches nothing. *)
Definition getHandlerForPath {Raw : Type} (translate : Raw → Request)
    (handler : Request → Value)
    (pathParamsParser : gmap string string → Obj ParamValue)
    (middlewares : list MiddlewareClass) (w : World)
    : (nat → Raw → World → option (Value * World)) * World :=
  (λ fuel, handle_request translate fuel handler pathParamsParser middlewares, w).

(** A world in which nothing was made, run or logged yet. *)
Definition new_world (clock : nat → Z) : World := mkWorld ∅ [] [] [] clock 0.

(** A middleware that passes the request on and the response back. *)
Definition pass_through (name : string) : MiddlewareClass :=
  mkMiddlewareClass name inl (λ response, response).

(** Two requests in a row through the function made at registration:
    the instances made at registration, and after the requests the
    instances made and the instances run. *)
Definition two_requests (middlewares : list MiddlewareClass) (handler : Request → Value)
    (req1 req2 : Request) : option (list nat * list nat * list nat) :=
  let '(run, w0) :=
    getHandlerForPath (λ r, r) handler (getPathParamsParser []) middlewares
                      (new_world (λ n, Z.of_nat n)) in
  '(_, w1) ← run 8 req1 w0;
  '(_, w2) ← run 8 req2 w1;
  Some (created w0, created w2, ran w2).

End Routes.

(** ** Router trees used in the statements below *)
Module Scenarios.
Import Js PathTemplate Routers.

Section Scenarios.
Context {Mw H : Type}.

(** [root = path('')], [mid = pathNested()('/m')] and
    [leaf = pathNested()('/l').get(h)], each with its middlewares, nothing
    attached yet. *)
Definition three_routers (fuel : nat) (mr mm ml : list Mw) (h : H)
    : option (nat * nat * nat * Heap Mw H) :=
  '(root, s) ← new fuel (Some "") empty_heap;
  s ← middlewares mr root s;
  '(mid, s) ← newNested fuel "/m" s;
  s ← middlewares mm mid s;
  '(leaf, s) ← newNested fuel "/l" s;
  s ← middlewares ml leaf s;
  s ← get h leaf s;
  Some (root, mid, leaf, s).

(** [mid.nested([leaf])] then [root.nested([mid])]: the order in which
    [root.nested(() => [mid.nested(() => [leaf])])] runs. *)
Definition three_level_leaf_first (fuel : nat) (mr mm ml : list Mw) (h : H)
    : option (nat * nat * nat * Heap Mw H) :=
  '(root, mid, leaf, s) ← three_routers fuel mr mm ml h;
  s ← nested fuel false [leaf] mid s;
  s ← nested fuel false [mid] root s;
  Some (root, mid, leaf, s).

(** [root.nested([mid])] then [mid.nested([leaf])]: the order of the
    comment in [appendChildToParentRouter]. *)
Definition three_level_root_first (fuel : nat) (mr mm ml : list Mw) (h : H)
    : option (nat * nat * nat * Heap Mw H) :=
  '(root, mid, leaf, s) ← three_routers fuel mr mm ml h;
  s ← nested fuel false [mid] root s;
  s ← nested fuel false [leaf] mid s;
  Some (root, mid, leaf, s).

(** [R = path('')] and [C = pathNested()('/a')] with middlewares [mc] and
    [get(h)], not attached. *)
Definition parent_and_child (fuel : nat) (mc : list Mw) (h : H)
    : option (nat * nat * Heap Mw H) :=
  '(R, s) ← new fuel (Some "") empty_heap;
  '(C, s) ← newNested fuel "/a" s;
  s ← middlewares mc C s;
  s ← get h C s;
  Some (R, C, s).

(** [R.nested([C])] then [R.middlewares(ms)]. *)
Definition middlewares_after_nested (fuel : nat) (ms mc : list Mw) (h : H)
    : option (nat * nat * Heap Mw H) :=
  '(R, C, s) ← parent_and_child fuel mc h;
  s ← nested fuel false [C] R s;
  s ← middlewares ms R s;
  Some (R, C, s).

(** [R.nested([C])], [R.middlewares(m1)], [R.middlewares(m2)]. *)
Definition two_middlewares_after_nested (fuel : nat) (m1 m2 : list Mw) (h : H)
    : option (nat * nat * Heap Mw H) :=
  '(R, C, s) ← parent_and_child fuel [] h;
  s ← nested fuel false [C] R s;
  s ← middlewares m1 R s;
  s ← middlewares m2 R s;
  Some (R, C, s).

(** [R.middlewares(m1)], [R.middlewares(m2)], [R.nested([C])]. *)
Definition two_middlewares_before_nested (fuel : nat) (m1 m2 : list Mw) (h : H)
    : option (nat * nat * Heap Mw H) :=
  '(R, C, s) ← parent_and_child fuel [] h;
  s ← middlewares m1 R s;
  s ← middlewares m2 R s;
  s ← nested fuel false [C] R s;
  Some (R, C, s).

(** [R.nested([C])] then [C.middlewares(mc)]. *)
Definition child_middlewares_after_nested (fuel : nat) (mc : list Mw) (h : H)
    : option (nat * nat * Heap Mw H) :=
  '(R, C, s) ← parent_and_child fuel [] h;
  s ← nested fuel false [C] R s;
  s ← middlewares mc C s;
  Some (R, C, s).

(** [C.middlewares(mc)] then [R.nested([C])]. *)
Definition child_middlewares_before_nested (fuel : nat) (mc : list Mw) (h : H)
    : option (nat * nat * Heap Mw H) :=
  '(R, C, s) ← parent_and_child fuel mc h;
  s ← nested fuel false [C] R s;
  Some (R, C, s).

(** [R.nested([C])] with [C = ...get(h1)], then [C.post(h2)]. *)
Definition post_after_nested (fuel : nat) (h1 h2 : H)
    : option (nat * nat * Heap Mw H) :=
  '(R, C, s) ← parent_and_child fuel [] h1;
  s ← nested fuel false [C] R s;
  s ← post h2 C s;
  Some (R, C, s).

(** [R.nested([C])] with [C = ...get(h1)], then [C.get(h2)]. *)
Definition get_after_nested (fuel : nat) (h1 h2 : H)
    : option (nat * nat * Heap Mw H) :=
  '(R, C, s) ← parent_and_child fuel [] h1;
  s ← nested fuel false [C] R s;
  s ← get h2 C s;
  Some (R, C, s).

(** [R.nested([C])] with [C = ...get(h1)], then [C.all(h2)]. *)
Definition all_after_nested (fuel : nat) (h1 h2 : H)
    : option (nat * nat * Heap Mw H) :=
  '(R, C, s) ← parent_and_child fuel [] h1;
  s ← nested fuel false [C] R s;
  s ← all h2 C s;
  Some (R, C, s).

(** The merged middlewares of the entry [key] of the table of [id]. *)
Definition merged (id : nat) (key : string) (s : Heap Mw H) : option (list Mw) :=
  cp_middlewares <$> route id key s.

(** The handler object the entry [key] of the table of [id] refers to. *)
Definition routed_handlers (id : nat) (key : string) (s : Heap Mw H) : option (Obj H) :=
  e ← route id key s; entry_handlers e s.

End Scenarios.

(** The store of [parent_and_child], and that store after
    [R.nested([C])]. *)
Definition parent_and_child_heap : Heap string string :=
  match parent_and_child 20 [] "h" with
  | Some (_, _, s) => s
  | None => empty_heap
  end.

Definition attached_heap : Heap string string :=
  default empty_heap (nested 20 false [1] 0 parent_and_child_heap).

End Scenarios.

(** ** Path templates by shape, for the statements on the scanner *)
Module Templates.
Import Js PathTemplate.

(** Word characters ([\w]): letters, digits and [_]. *)
Definition is_word (a : ascii) : bool :=
  let n := N_of_ascii a in
  ((48 <=? n) && (n <=? 57) || (65 <=? n) && (n <=? 90) ||
   (97 <=? n) && (n <=? 122) || (n =? 95))%N.

Definition word (s : string) : bool := forallb is_word (split_chars s).

(** No [<] and no [?]: text the top-level loop reads as literal. *)
Definition literal_chars (cs : list ascii) : bool :=
  forallb (λ a, negb (Ascii.eqb a "<") && negb (Ascii.eqb a "?")) cs.

Definition literal (s : string) : bool := literal_chars (split_chars s).

(** [s.split(c)] on the characters of [s]. *)
Fixpoint split_on (c : ascii) (cs : list ascii) : list (list ascii) :=
  match cs with
  | [] => [[]]
  | a :: cs =>
      if Ascii.eqb a c then [] :: split_on c cs
      else match split_on c cs with
           | s :: ss => (a :: s) :: ss
           | [] => [[a]]
           end
  end.

(** The literal parts made of pieces of a path: the empty ones are left
    out. *)
Definition literal_parts (pieces : list (list ascii)) : list PathPart :=
  (λ s, mkPathPart (Some (string_of_list_ascii s)) false)
    <$> filter (λ s, s ≠ []) pieces.

(** [s.split('/').filter(p => p !== '')], as literal parts. *)
Definition segments (s : string) : list PathPart :=
  literal_parts (split_on "/" (split_chars s)).

(** [<name:type>] and [<name:{regex}>], with or without a space after the
    colon. *)
Definition typed_param (name : string) (space : bool) (ty : string) : string :=
  "<" +:+ name +:+ ":" +:+ (if space then " " else "") +:+ ty +:+ ">".

Definition regex_param (name : string) (space : bool) (rx : string) : string :=
  "<" +:+ name +:+ ":" +:+ (if space then " " else "") +:+ "{" +:+ rx +:+ "}>".

(** A character that is a pattern of its own wherever it stands: any but
    the syntax characters that need a context, which are
    [\ * + ? ( ) [ ] { } |]. *)
Definition pattern_char (a : ascii) : bool :=
  negb (existsb (Ascii.eqb a)
          ["\"; "*"; "+"; "?"; "("; ")"; "["; "]"; "{"; "}"; "|"]%char).

(** Text without spaces that [new RegExp] accepts whatever it is: a
    sequence of characters that are patterns of their own ([^], [$] and
    [.] among them).  Other text can make [new RegExp] throw a
    [SyntaxError], which the scanner does not catch. *)
Definition regex_text (s : string) : bool :=
  forallb (λ a, pattern_char a && negb (Ascii.eqb a " ")) (split_chars s).

(** A name the assignment [params[name] = ...] declares: any but
    [__proto__], on which the assignment sets the prototype of [params]
    and declares nothing. *)
Definition declarable (name : string) : bool := negb (String.eqb name "__proto__").

(** [ss.join(sep)]. *)
Fixpoint join (sep : string) (ss : list string) : string :=
  match ss with
  | [] => ""
  | s :: ss => match ss with
               | [] => s
               | _ :: _ => s +:+ sep +:+ join sep ss
               end
  end.

(** What is left of a string without its first character. *)
Definition after_first (s : string) : string :=
  match s with
  | EmptyString => EmptyString
  | String _ w => w
  end.

Definition word_pair (p : string * string) : bool := word p.1 && word p.2.

(** The query template of plain [name=type] pairs. *)
Definition query_of (pairs : list (string * string)) : string :=
  join "&" ((λ p, p.1 +:+ "=" +:+ p.2) <$> pairs).

(** The query parameters such pairs declare, set one after the other. *)
Definition plain_query_params (pairs : list (string * string)) : Obj QueryParam :=
  foldl (λ o p, obj_set p.1 (mkQueryParam [p.2] false false None) o) [] pairs.

(** What can follow a [name=type] pair: the end of the path or the [&]
    before the next pair. *)
Definition ends_pair (suf : list ascii) : Prop :=
  suf = [] ∨ ∃ s, suf = "&"%char :: s.

End Templates.

(** ** Composition as a function of the store *)
Module Composition.
Import Js PathTemplate Routers.

Section Composition.
Context {Mw H : Type}.

(** [t.set(k, v)] for each entry of a list, in order. *)
Definition write_all (es : list (string * CompletePath Mw))
    (t : Map (CompletePath Mw)) : Map (CompletePath Mw) :=
  foldl (λ t e, map_set e.1 e.2 t) t es.

(** The entries one turn of the [while] loop of [appendChildToParentRouter]
    writes to the table of a router [r] for the router [child]
    (routers.ts 199-226): one for the child itself if it has handlers,
    then one for each entry of the child's table. *)
Definition child_writes (r : Router Mw) (child : nat) (h : Heap Mw H)
    : list (string * CompletePath Mw) :=
  match routers h !! child with
  | Some c =>
      match existsHandlersOnChild c h with
      | Some (Some hs) => [own_entry r c child hs]
      | _ => []
      end ++ (lifted_entry r c child <$> r_completePaths c)
  | None => []
  end.

(** The value of the last entry of [es] with key [k]. *)
Definition last_write (k : string) (es : list (string * CompletePath Mw))
    : option (CompletePath Mw) :=
  obj_get k (reverse es).

End Composition.

(** Stores and routers used in the statements below: a router of a store,
    [R = path('')] with a child [C = pathNested()('/b')] that has no
    handler, and the stores after some calls. *)
Definition blank_router : Router string :=
  mkRouter None [] "" [] "" [] [] None false None [] None.

Definition router_of (id : nat) (s : Heap string string) : Router string :=
  default blank_router (routers s !! id).

Definition reattached_heap : Heap string string :=
  default empty_heap (nested 20 false [1] 0 Scenarios.attached_heap).

(** [root], [mid] and [leaf] with the middlewares [R], [M] and [L], after
    [root.nested([mid])]: [root] is 0, [mid] is 1 and [leaf] is 2, not
    attached yet. *)
Definition mid_attached_heap : Heap string string :=
  default empty_heap
    ('(root, mid, leaf, s) ← Scenarios.three_routers 20 ["R"] ["M"] ["L"] "h";
     nested 20 false [mid] root s).

Definition bare_child_heap : Heap string string :=
  default empty_heap
    ('(R, s) ← new 20 (Some "") empty_heap;
     '(C, s) ← newNested 20 "/b" s;
     Some s).

Definition bare_attached_heap : Heap string string :=
  default empty_heap (nested 20 false [1] 0 bare_child_heap).

Definition two_middlewares_heap : Heap string string :=
  default empty_heap
    (h ← middlewares ["M1"] 0 Scenarios.attached_heap; middlewares ["M2"] 0 h).

(** [path('/<id: number>')] and [pathNested()('/<id: string>')]. *)
Definition id_number_router : Router string :=
  default blank_router (construct 40 (Some "/<id: number>") None).

Definition id_string_router : Router string :=
  default blank_router (construct 40 (Some "/<id: string>") None).

End Composition.

(** ** Numerals and middleware chains, for the statements on dispatch *)
Module Dispatch.
Import Js Routes.

(** The text after a decimal numeral at which [parseInt] stops: nothing,
    or a character that is no decimal digit and, since [0x] starts a
    hexadecimal numeral, no [x]. *)
Definition ends_numeral (rest : string) : bool :=
  match rest with
  | EmptyString => true
  | String a _ =>
      match digit_of a with
      | Some _ => false
      | None => negb (Ascii.eqb a "x") && negb (Ascii.eqb a "X")
      end
  end.

(** The parameters of ["/<id: number>/<slug: string>"], and the raw values
    of a request that has only [id]. *)
Definition id_and_slug : list PathParams :=
  [mkPathParams "<id: number>" "id" TNumber;
   mkPathParams "<slug: string>" "slug" TString].

Definition raw_id_7 : gmap string string := {["id" := "7"]}.

(** What a chain of middlewares and a handler make of a request: each
    middleware sees the request before the next stage and the response
    after it, unless it answers at once. *)
Fixpoint run_chain (middlewares : list MiddlewareClass) (handler : Request → Value)
    (request : Request) : Value :=
  match middlewares with
  | [] => handler request
  | m :: middlewares =>
      match mw_request m request with
      | inl request => mw_response m (run_chain middlewares handler request)
      | inr response => response
      end
  end.

(** The middlewares whose [run] is called: up to the first one that
    answers. *)
Fixpoint reached (middlewares : list MiddlewareClass) (request : Request) : nat :=
  match middlewares with
  | [] => 0
  | m :: middlewares =>
      match mw_request m request with
      | inl request => S (reached middlewares request)
      | inr _ => 1
      end
  end.

End Dispatch.

(** ** The express request adapter ([libs/express-adapter/src/request.ts]) *)
Module Adapter.
Import Js.

(** [String.prototype.toLowerCase] on text of ASCII characters: the
    letters [A]-[Z] become [a]-[z], every other character stays. *)
Definition is_upper (a : ascii) : bool :=
  let n := N_of_ascii a in ((65 <=? n) && (n <=? 90))%N.

Definition lower_ascii (a : ascii) : ascii :=
  if is_upper a then ascii_of_N (N_of_ascii a + 32) else a.

Fixpoint toLowerCase (s : string) : string :=
  match s with
  | EmptyString => EmptyString
  | String a s => String (lower_ascii a) (toLowerCase s)
  end.

(** Text of ASCII characters, on which [toLowerCase] above is the method
    of JavaScript. *)
Definition ascii_text (s : string) : bool :=
  forallb (λ a, (N_of_ascii a <? 128)%N) (split_chars s).

(** Two characters that are the same, or one letter in its two cases. *)
Definition same_letter (a b : ascii) : bool :=
  Ascii.eqb a b
  || is_upper a && (N_of_ascii b =? N_of_ascii a + 32)%N
  || is_upper b && (N_of_ascii a =? N_of_ascii b + 32)%N.

(** Two names that differ by the case of their letters only. *)
Fixpoint same_ignoring_case (s t : string) : bool :=
  match s, t with
  | EmptyString, EmptyString => true
  | String a s, String b t => same_letter a b && same_ignoring_case s t
  | _, _ => false
  end.

Section Adapter.
(** The values found in [req.params], [req.query] and [req.headers], other
    than [undefined]; [truthy] is the test [if (v)] makes of one. *)
Context {V : Type} (truthy : V → bool).

(** An object whose properties can hold [undefined], which is [None]. *)
Abbreviation Props := (Obj (option V)) (only parsing).

(** [o[key]] for a [key] that is not [inherited]: a missing property
    reads as [undefined].  (For the name of a member of
    [Object.prototype] the read finds that member when the object has no
    own property of the name; the statements below leave such keys
    out.) *)
Definition prop (o : Props) (key : string) : option V :=
  obj_get key o ≫= id.

(** [if (x)] for a value that can be [undefined]. *)
Definition truthy_value (x : option V) : bool :=
  match x with
  | Some v => truthy v
  | None => false
  end.

(** The fields of the express request the adapter reads; a field that is
    [undefined] is [None]. *)
Record Req := mkReq {
  req_headers : option Props;
  req_params : option Props;
  req_query : option Props
}.

(** [serverRequestAndResponseData]: the request and the three objects the
    adapter keeps beside it. *)
Record Data := mkData {
  d_req : Req;
  d_headers : option Props;
  d_params : option Props;
  d_query : option Props
}.

(** The body [headers], [params] and [query] share (request.ts 216-221,
    226-231, 236-241), for the field of the request and the object kept
    for it: the value returned and the object kept afterwards.
    [[
      if (!req.field) return undefined;
      if (data.field && data.field[key]) return data.field[key];
      if (!data.field) data.field = {};
      data.field[key] = req.field[key];
      return data.field[key];
    ]] *)
Definition read_through (field kept : option Props) (key : string)
    : option V * option Props :=
  match field with
  | None => (None, kept)
  | Some f =>
      let known := kept ≫= λ o, prop o key in
      if truthy_value known then (known, kept)
      else
        let o := obj_set key (prop f key) (default [] kept) in
        (prop o key, Some o)
  end.

(** [headers(_, serverRequestAndResponseData, key)]. *)
Definition headers (d : Data) (key : string) : option V * Data :=
  let lowerCasedKey := toLowerCase key in
  let '(v, o) := read_through (req_headers (d_req d)) (d_headers d) lowerCasedKey in
  (v, mkData (d_req d) o (d_params d) (d_query d)).

(** [params(_server, serverRequestAndResponseData, key)]. *)
Definition params (d : Data) (key : string) : option V * Data :=
  let '(v, o) := read_through (req_params (d_req d)) (d_params d) key in
  (v, mkData (d_req d) (d_headers d) o (d_query d)).

(** [query(_server, serverRequestAndResponseData, key)]. *)
Definition query (d : Data) (key : string) : option V * Data :=
  let '(v, o) := read_through (req_query (d_req d)) (d_query d) key in
  (v, mkData (d_req d) (d_headers d) (d_params d) o).

(** The same data beside another request. *)
Definition with_req (req : Req) (d : Data) : Data :=
  mkData req (d_headers d) (d_params d) (d_query d).

End Adapter.

(** A request with one path parameter, and the same request after the
    parameter was changed. *)
Definition truthy_string (s : string) : bool := negb (String.eqb s "").

Definition request_7 : Req (V:=string) :=
  mkReq (Some [("accept", Some "text/html")]) (Some [("id", Some "7")]) (Some []).

Definition request_8 : Req (V:=string) :=
  mkReq (Some [("accept", Some "*/*")]) (Some [("id", Some "8")]) (Some []).

Definition fresh_data : Data (V:=string) := mkData request_7 None None None.

End Adapter.

(** * Properties *)

(** ** Objects and maps *)
Module JsFacts.
Import Js.

Section Facts.
Context {V : Type}.
Implicit Types (o : Obj V) (k : string) (v : V).

Lemma eqb_string_true k k' : String.eqb k k' = true ↔ k = k'.
Proof. apply String.eqb_eq. Qed.

Lemma obj_get_app_None k o o' :
  obj_get k o = None → obj_get k (o ++ o') = obj_get k o'.
Proof.
  induction o as [|[k1 v1] o IH]; simpl; [done|].
  destruct (String.eqb k k1); [done|]. apply IH.
Qed.

Lemma obj_get_replace_eq k v o :
  is_Some (obj_get k o) → obj_get k (obj_replace k v o) = Some v.
Proof.
  induction o as [|[k1 v1] o IH]; simpl; intros [x Hx]; [done|].
  destruct (String.eqb k k1) eqn:E; simpl; rewrite E; [done|]. apply IH. eauto.
Qed.

Lemma obj_get_replace_ne k k' v o :
  k ≠ k' → obj_get k' (obj_replace k v o) = obj_get k' o.
Proof.
  intros Hne. induction o as [|[k1 v1] o IH]; simpl; [done|].
  destruct (String.eqb k k1) eqn:E; simpl.
  - apply String.eqb_eq in E as <-.
    by rewrite (proj2 (String.eqb_neq k' k)) by done.
  - destruct (String.eqb k' k1); [done|]. apply IH.
Qed.

Lemma obj_get_insert_index_eq n k v o :
  obj_get k o = None → obj_get k (obj_insert_index n k v o) = Some v.
Proof.
  induction o as [|[k1 v1] o IH]; simpl; intros Hk.
  - by rewrite String.eqb_refl.
  - destruct (String.eqb k k1) eqn:E; [done|].
    destruct (array_index k1) as [n1|]; [destruct (n1 <? n)%N|]; simpl;
      rewrite ?E, ?String.eqb_refl; auto.
Qed.

Lemma obj_get_insert_index_ne n k k' v o :
  k ≠ k' → obj_get k' (obj_insert_index n k v o) = obj_get k' o.
Proof.
  intros Hne. apply String.eqb_neq in Hne. rewrite String.eqb_sym in Hne.
  induction o as [|[k1 v1] o IH]; simpl.
  - by rewrite Hne.
  - destruct (array_index k1) as [n1|]; [destruct (n1 <? n)%N|]; simpl;
      rewrite ?Hne; try done.
    destruct (String.eqb k' k1); [done|]. apply IH.
Qed.

Lemma obj_get_set_eq k v o : obj_get k (obj_set k v o) = Some v.
Proof.
  unfold obj_set. destruct (obj_get k o) eqn:E.
  - apply obj_get_replace_eq. eauto.
  - destruct (array_index k).
    + by apply obj_get_insert_index_eq.
    + rewrite obj_get_app_None by done. simpl. by rewrite String.eqb_refl.
Qed.

Lemma obj_get_set_ne k k' v o : k ≠ k' → obj_get k' (obj_set k v o) = obj_get k' o.
Proof.
  intros Hne. unfold obj_set. destruct (obj_get k o) eqn:E.
  - by apply obj_get_replace_ne.
  - destruct (array_index k).
    + by apply obj_get_insert_index_ne.
    + destruct (obj_get k' o) eqn:E'.
      * clear E. induction o as [|[k1 v1] o IH]; simpl in *; [done|].
        destruct (String.eqb k' k1); [done|]. by apply IH.
      * rewrite obj_get_app_None by done. simpl.
        apply String.eqb_neq in Hne. rewrite String.eqb_sym in Hne. by rewrite Hne.
Qed.

Lemma obj_get_filter (P : string → Prop) `{!∀ k, Decision (P k)} k o :
  obj_get k (filter (λ kv : string * V, P kv.1) o) = if decide (P k) then obj_get k o else None.
Proof.
  induction o as [|[k1 v1] o IH]; [by destruct (decide _)|].
  rewrite filter_cons. simpl. destruct (decide (P k1)) as [H1|H1]; simpl.
  - destruct (String.eqb k k1) eqn:E.
    + apply String.eqb_eq in E as ->. by rewrite decide_True.
    + apply IH.
  - rewrite IH. destruct (String.eqb k k1) eqn:E; [|done].
    apply String.eqb_eq in E as ->. by rewrite !decide_False.
Qed.

Lemma obj_get_delete k k' o :
  obj_get k' (obj_delete k o) = if decide (k' ≠ k) then obj_get k' o else None.
Proof. exact (obj_get_filter (λ x, x ≠ k) k' o). Qed.

Lemma obj_get_delete_eq k o : obj_get k (obj_delete k o) = None.
Proof. rewrite obj_get_delete. by rewrite decide_False by auto. Qed.

Lemma obj_get_delete_ne k k' o : k ≠ k' → obj_get k' (obj_delete k o) = obj_get k' o.
Proof. intros Hne. rewrite obj_get_delete. by rewrite decide_True by auto. Qed.

Lemma obj_get_only k k' o :
  obj_get k' (filter (λ kv : string * V, kv.1 = k) o)
  = if decide (k' = k) then obj_get k' o else None.
Proof. exact (obj_get_filter (λ x, x = k) k' o). Qed.

(** Deleting never creates or changes a property. *)
Lemma obj_get_filter_Some (P : string → Prop) `{!∀ k, Decision (P k)} k o v :
  obj_get k (filter (λ kv : string * V, P kv.1) o) = Some v → obj_get k o = Some v.
Proof. rewrite obj_get_filter. by destruct (decide _). Qed.

Lemma map_get_set_eq k v (m : Map V) : map_get k (map_set k v m) = Some v.
Proof.
  unfold map_get, map_set. destruct (obj_get k m) eqn:E.
  - apply obj_get_replace_eq. eauto.
  - rewrite obj_get_app_None by done. simpl. by rewrite String.eqb_refl.
Qed.

Lemma map_get_set_ne k k' v (m : Map V) :
  k ≠ k' → map_get k' (map_set k v m) = map_get k' m.
Proof.
  intros Hne. unfold map_get, map_set. destruct (obj_get k m) eqn:E.
  - by apply obj_get_replace_ne.
  - destruct (obj_get k' m) eqn:E'.
    + clear E. induction m as [|[k1 v1] m IH]; simpl in *; [done|].
      destruct (String.eqb k' k1); [done|]. by apply IH.
    + rewrite obj_get_app_None by done. simpl.
      apply String.eqb_neq in Hne. rewrite String.eqb_sym in Hne. by rewrite Hne.
Qed.

End Facts.

(** Changing the values of a map commutes with [get] and [set]. *)
Section Fmap.
Context {V W : Type} (f : V → W).

Lemma obj_get_fmap k (m : Map V) :
  obj_get k (prod_map id f <$> m) = f <$> obj_get k m.
Proof.
  induction m as [|[k1 v1] m IH]; simpl; [done|].
  destruct (String.eqb k k1); [done|]. apply IH.
Qed.

Lemma obj_replace_fmap k v (m : Map V) :
  obj_replace k (f v) (prod_map id f <$> m) = prod_map id f <$> obj_replace k v m.
Proof.
  induction m as [|[k1 v1] m IH]; simpl; [done|].
  destruct (String.eqb k k1); simpl; [done|]. f_equal. apply IH.
Qed.

Lemma map_set_fmap k v (m : Map V) :
  map_set k (f v) (prod_map id f <$> m) = prod_map id f <$> map_set k v m.
Proof.
  unfold map_set. rewrite obj_get_fmap. destruct (obj_get k m); simpl.
  - apply obj_replace_fmap.
  - by rewrite fmap_app.
Qed.

End Fmap.

End JsFacts.

(** ** The path-template scanner *)
Module PathTemplateFacts.
Import Js PathTemplate.

(** *** More fuel never changes a result *)

Ltac fuel_cases :=
  repeat match goal with
    | |- context [if ?b then _ else _] => destruct b eqn:?
    | H : context [if ?b then _ else _] |- _ => destruct b eqn:?
    end.

Lemma scan_until_mono stop (n m : nat) cs index acc r :
  (n ≤ m)%nat → scan_until stop n cs index acc = Some r →
  scan_until stop m cs index acc = Some r.
Proof.
  revert m index acc. induction n as [|n IH]; intros m index acc Hle H; [done|].
  destruct m as [|m]; [lia|]. simpl in *.
  destruct (is_char cs index stop); [done|]. apply IH; [lia|done].
Qed.

Lemma url_type_loop_mono (n m : nat) cs index ty rx r :
  (n ≤ m)%nat → url_type_loop n cs index ty rx = Some r →
  url_type_loop m cs index ty rx = Some r.
Proof.
  revert m index ty rx. induction n as [|n IH]; intros m index ty rx Hle H; [done|].
  destruct m as [|m]; [lia|]. simpl in *.
  destruct (is_char cs index ">"); [done|].
  destruct (is_char cs _ "{").
  - destruct (scan_until "}" n cs _ rx) as [[i' rx']|] eqn:E; [|done].
    rewrite (scan_until_mono _ n m _ _ _ _ ltac:(lia) E). simpl in *.
    apply IH; [lia|done].
  - destruct (scan_until ">" n cs _ ty) as [[i' ty']|] eqn:E; [|done].
    rewrite (scan_until_mono _ n m _ _ _ _ ltac:(lia) E). simpl in *.
    apply IH; [lia|done].
Qed.

Lemma url_loop_mono (n m : nat) cs index name ty rx r :
  (n ≤ m)%nat → url_loop n cs index name ty rx = Some r →
  url_loop m cs index name ty rx = Some r.
Proof.
  revert m index name ty rx.
  induction n as [|n IH]; intros m index name ty rx Hle H; [done|].
  destruct m as [|m]; [lia|]. simpl in *.
  destruct (is_char cs index ">"); [done|].
  destruct (is_char cs _ ":").
  - destruct (url_type_loop n cs _ ty rx) as [[[i' ty'] rx']|] eqn:E; [|done].
    rewrite (url_type_loop_mono n m _ _ _ _ _ ltac:(lia) E). simpl in *.
    apply IH; [lia|done].
  - destruct (scan_until ":" n cs _ name) as [[i' name']|] eqn:E; [|done].
    rewrite (scan_until_mono _ n m _ _ _ _ ltac:(lia) E). simpl in *.
    apply IH; [lia|done].
Qed.

Lemma extractUrlParamsFromPath_mono (n m : nat) cs params index r :
  (n ≤ m)%nat → extractUrlParamsFromPath n cs params index = Some r →
  extractUrlParamsFromPath m cs params index = Some r.
Proof.
  unfold extractUrlParamsFromPath. intros Hle H.
  destruct (url_loop n cs _ "" "" "") as [[[[i' name] ty] rx]|] eqn:E; [|done].
  by rewrite (url_loop_mono n m _ _ _ _ _ _ Hle E).
Qed.

Lemma q_paren_loop_mono (n m : nat) cs index ty tys r :
  (n ≤ m)%nat → q_paren_loop n cs index ty tys = Some r →
  q_paren_loop m cs index ty tys = Some r.
Proof.
  revert m index ty tys. induction n as [|n IH]; intros m index ty tys Hle H; [done|].
  destruct m as [|m]; [lia|]. simpl in *.
  fuel_cases; try done; apply IH; (lia || done).
Qed.

Lemma q_type_loop_mono (n m : nat) cs q r :
  (n ≤ m)%nat → q_type_loop n cs q = Some r → q_type_loop m cs q = Some r.
Proof.
  revert m q. induction n as [|n IH]; intros m q Hle H; [done|].
  destruct m as [|m]; [lia|]. simpl in *.
  destruct (hasNotReachedEndOrNextQueryParam cs (q_index q)); [|done].
  destruct (is_char cs _ "?"); [apply IH; [lia|done]|].
  destruct (is_char cs _ "[" && is_char cs _ "]"); [apply IH; [lia|done]|].
  destruct (is_char cs _ "("); [|apply IH; [lia|done]].
  destruct (q_paren_loop n cs _ _ _) as [[[i' ty'] tys']|] eqn:E; [|done].
  rewrite (q_paren_loop_mono n m _ _ _ _ _ ltac:(lia) E). simpl in *.
  apply IH; [lia|done].
Qed.

Lemma q_pair_loop_mono (n m : nat) cs q r :
  (n ≤ m)%nat → q_pair_loop n cs q = Some r → q_pair_loop m cs q = Some r.
Proof.
  revert m q. induction n as [|n IH]; intros m q Hle H; [done|].
  destruct m as [|m]; [lia|]. simpl in *.
  destruct (hasNotReachedEndOrNextQueryParam cs (q_index q)); [|done].
  destruct (is_char cs _ "&"); [apply IH; [lia|done]|].
  destruct (is_char cs _ "="); [|apply IH; [lia|done]].
  destruct (is_char cs _ "{").
  - destruct (scan_until "}" n cs _ _) as [[i' rx']|] eqn:E; [|done].
    rewrite (scan_until_mono _ n m _ _ _ _ ltac:(lia) E). simpl in *.
    destruct (q_type_loop n cs _) as [q'|] eqn:E'; [|done].
    rewrite (q_type_loop_mono n m _ _ _ ltac:(lia) E'). simpl in *.
    apply IH; [lia|done].
  - simpl in *.
    destruct (q_type_loop n cs _) as [q'|] eqn:E'; [|done].
    rewrite (q_type_loop_mono n m _ _ _ ltac:(lia) E'). simpl in *.
    apply IH; [lia|done].
Qed.

Lemma q_loop_mono (n m : nat) cs index params r :
  (n ≤ m)%nat → q_loop n cs index params = Some r → q_loop m cs index params = Some r.
Proof.
  revert m index params. induction n as [|n IH]; intros m index params Hle H; [done|].
  destruct m as [|m]; [lia|]. simpl in *.
  destruct (index <? length cs)%nat; [|done].
  destruct (q_pair_loop n cs _) as [q'|] eqn:E; [|done].
  rewrite (q_pair_loop_mono n m _ _ _ ltac:(lia) E). simpl in *.
  apply IH; [lia|done].
Qed.

Lemma top_loop_mono (n m : nat) path cs t r :
  (n ≤ m)%nat → top_loop n path cs t = Some r → top_loop m path cs t = Some r.
Proof.
  revert m t. induction n as [|n IH]; intros m t Hle H; [done|].
  destruct m as [|m]; [lia|]. simpl in *.
  destruct (t_index t <? length cs)%nat; [|done].
  destruct (is_char cs _ "<").
  { destruct (extractUrlParamsFromPath n cs _ _) as [[i' ps]|] eqn:E; [|done].
    rewrite (extractUrlParamsFromPath_mono n m _ _ _ _ ltac:(lia) E). simpl in *.
    apply IH; [lia|done]. }
  destruct (is_char cs _ "?").
  { unfold extractQueryParamsFromPath in *.
    destruct (q_loop n cs _ _) as [[i' ps]|] eqn:E; [|done].
    rewrite (q_loop_mono n m _ _ _ _ ltac:(lia) E). simpl in *.
    apply IH; [lia|done]. }
  fuel_cases; apply IH; (lia || done).
Qed.

Lemma extractUrlAndQueryParametersFromPath_mono (n m : nat) path r :
  (n ≤ m)%nat → extractUrlAndQueryParametersFromPath n path = Some r →
  extractUrlAndQueryParametersFromPath m path = Some r.
Proof.
  unfold extractUrlAndQueryParametersFromPath. intros Hle H.
  destruct (top_loop n path _ _) as [t|] eqn:E; [|done].
  by rewrite (top_loop_mono n m _ _ _ _ Hle E).
Qed.

(** Whatever the fuel, there is at most one result. *)
Lemma extractUrlAndQueryParametersFromPath_det (n m : nat) path r r' :
  extractUrlAndQueryParametersFromPath n path = Some r →
  extractUrlAndQueryParametersFromPath m path = Some r' → r = r'.
Proof.
  intros H H'.
  apply (extractUrlAndQueryParametersFromPath_mono n (n `max` m)) in H; [|lia].
  apply (extractUrlAndQueryParametersFromPath_mono m (n `max` m)) in H'; [|lia].
  congruence.
Qed.

(** *** Scans that never find their closing character *)

Lemma absent_from_spec c index cs j :
  absent_from c index cs = true → (index ≤ j)%nat → at_ cs j ≠ Some c.
Proof.
  unfold absent_from, at_. intros Habs Hle Hj.
  assert (drop index cs !! (j - index)%nat = Some c) as Hd.
  { rewrite lookup_drop. by replace (index + (j - index))%nat with j by lia. }
  apply list_elem_of_lookup_2, list_elem_of_In in Hd.
  rewrite forallb_forall in Habs. specialize (Habs _ Hd).
  by rewrite Ascii.eqb_refl in Habs.
Qed.

Lemma absent_from_le c i j cs :
  absent_from c i cs = true → (i ≤ j)%nat → absent_from c j cs = true.
Proof.
  unfold absent_from. intros H Hle. rewrite forallb_forall in *. intros a Ha.
  apply H. apply list_elem_of_In in Ha. apply list_elem_of_In.
  replace j with (i + (j - i))%nat in Ha by lia.
  rewrite <- drop_drop in Ha. by eapply subseteq_drop.
Qed.

Lemma is_char_absent c index cs j :
  absent_from c index cs = true → (index ≤ j)%nat → is_char cs j c = false.
Proof.
  intros Habs Hle. unfold is_char.
  destruct (at_ cs j) as [a|] eqn:E; [|done].
  apply Ascii.eqb_neq. intros ->. by eapply absent_from_spec.
Qed.

Lemma ignoreSpaces_ge cs index : (index ≤ ignoreSpaces cs index)%nat.
Proof. unfold ignoreSpaces. destruct (is_char cs index " "); lia. Qed.

Lemma scan_until_ge stop fuel cs index acc i' acc' :
  scan_until stop fuel cs index acc = Some (i', acc') → (index ≤ i')%nat.
Proof.
  revert index acc. induction fuel as [|fuel IH]; intros index acc H; [done|].
  simpl in H. destruct (is_char cs index stop).
  - injection H as <- _. lia.
  - apply IH in H. pose proof (ignoreSpaces_ge cs index). lia.
Qed.

(** A scan started where its closing character no longer occurs uses up any
    amount of fuel. *)
Lemma scan_until_diverges stop fuel cs index acc :
  absent_from stop index cs = true → scan_until stop fuel cs index acc = None.
Proof.
  revert index acc. induction fuel as [|fuel IH]; intros index acc H; [done|].
  simpl. rewrite (is_char_absent _ index) by (done || lia).
  apply IH. eapply absent_from_le; [done|].
  pose proof (ignoreSpaces_ge cs index). lia.
Qed.

Lemma url_type_loop_diverges fuel cs index ty rx :
  absent_from ">" index cs = true → url_type_loop fuel cs index ty rx = None.
Proof.
  revert index ty rx. induction fuel as [|fuel IH]; intros index ty rx H; [done|].
  simpl. rewrite (is_char_absent _ index) by (done || lia).
  pose proof (ignoreSpaces_ge cs index) as Hge.
  set (i1 := if is_char cs (ignoreSpaces cs index) ":" then _ else _).
  assert (index ≤ i1)%nat as Hi1 by (subst i1; destruct (is_char cs _ ":"); lia).
  destruct (is_char cs i1 "{").
  - destruct (scan_until "}" fuel cs (S i1) rx) as [[i' rx']|] eqn:E; [|done].
    simpl. apply scan_until_ge in E. apply IH.
    eapply absent_from_le; [done|lia].
  - rewrite scan_until_diverges; [done|]. by eapply absent_from_le.
Qed.

Lemma url_loop_diverges fuel cs index name ty rx :
  absent_from ">" index cs = true → url_loop fuel cs index name ty rx = None.
Proof.
  revert index name ty rx.
  induction fuel as [|fuel IH]; intros index name ty rx H; [done|].
  simpl. rewrite (is_char_absent _ index) by (done || lia).
  pose proof (ignoreSpaces_ge cs index) as Hge.
  destruct (is_char cs _ ":").
  - rewrite url_type_loop_diverges; [done|]. eapply absent_from_le; [done|lia].
  - destruct (scan_until ":" fuel cs _ name) as [[i' name']|] eqn:E; [|done].
    simpl. apply scan_until_ge in E. apply IH.
    eapply absent_from_le; [done|lia].
Qed.

Lemma plain_between_step cs i k :
  (i < k)%nat → plain_between cs i k = true →
  is_char cs i "<" = false ∧ is_char cs i "?" = false ∧ plain_between cs (S i) k = true.
Proof.
  unfold plain_between, is_char, at_. intros Hlt H.
  replace (k - i)%nat with (S (k - S i)) in H by lia.
  destruct (drop i cs) as [|a l] eqn:Ed.
  - assert (cs !! i = None) as ->.
    { apply lookup_ge_None. apply (f_equal length) in Ed.
      rewrite length_drop in Ed. simpl in Ed. lia. }
    repeat split; try done.
    replace (drop (S i) cs) with (drop 1 (drop i cs)) by (by rewrite drop_drop, Nat.add_1_r).
    rewrite Ed. simpl. by rewrite take_nil.
  - assert (cs !! i = Some a) as ->.
    { rewrite <- (Nat.add_0_r i), <- lookup_drop, Ed. done. }
    simpl in H. apply andb_true_iff in H as [Ha Hl].
    apply andb_true_iff in Ha as [H1 H2].
    apply negb_true_iff in H1. apply negb_true_iff in H2.
    repeat split; [done|done|].
    replace (drop (S i) cs) with (drop 1 (drop i cs))
        by (by rewrite drop_drop, Nat.add_1_r).
      by rewrite Ed.
Qed.

Lemma top_loop_unclosed_angle fuel path cs t k :
  (t_index t ≤ k)%nat →
  plain_between cs (t_index t) k = true →
  at_ cs k = Some "<"%char →
  absent_from ">" k cs = true →
  top_loop fuel path cs t = None.
Proof.
  intros Hle Hplain Hk Habs. revert t Hle Hplain.
  induction fuel as [|fuel IH]; intros t Hle Hplain; [done|].
  simpl. assert (k < length cs)%nat as Hlen by (by eapply lookup_lt_Some).
  rewrite (proj2 (Nat.ltb_lt _ _)) by lia.
  destruct (decide (t_index t = k)) as [->|Hne].
  - unfold is_char at 1. rewrite Hk. simpl.
    unfold extractUrlParamsFromPath.
    rewrite url_loop_diverges; [done|]. eapply absent_from_le; [done|lia].
  - apply plain_between_step in Hplain as (-> & -> & Hplain); [|lia].
    destruct (negb (is_char cs (t_index t) "/")); [|destruct (negb _)];
      apply IH; simpl; (lia || done).
Qed.

(** Every [<] met by the top-level loop and not followed by a [>] makes the
    scanner run for ever: no amount of fuel yields a result. *)
Lemma unclosed_angle_never_returns (pre rest : list ascii) (fuel : nat) :
  plain_between pre 0 (length pre) = true →
  absent_from ">" 0 rest = true →
  extractUrlAndQueryParametersFromPath fuel
    (string_of_list_ascii (pre ++ "<"%char :: rest)) = None.
Proof.
  intros Hpre Hrest. unfold extractUrlAndQueryParametersFromPath, split_chars.
  rewrite list_ascii_of_string_of_list_ascii.
  rewrite (top_loop_unclosed_angle fuel _ _ _ (length pre)); simpl; try done.
  - lia.
  - unfold plain_between in *. rewrite Nat.sub_0_r, drop_0 in *.
    rewrite take_app_length. by rewrite firstn_all in Hpre.
  - unfold at_. by rewrite list_lookup_middle.
  - unfold absent_from in *. rewrite drop_app_length. simpl. by rewrite drop_0 in Hrest.
Qed.

Lemma unclosed_angle_never_returns_witness :
  extractUrlAndQueryParametersFromPath 1000 "/users/<id" = None.
Proof.
  apply (unclosed_angle_never_returns
           ["/"; "u"; "s"; "e"; "r"; "s"; "/"]%char ["i"; "d"]%char 1000);
    reflexivity.
Defined.

Lemma scan_until_det stop (n m : nat) cs index acc r r' :
  scan_until stop n cs index acc = Some r →
  scan_until stop m cs index acc = Some r' → r = r'.
Proof.
  intros H H'.
  apply (scan_until_mono _ n (n `max` m)) in H; [|lia].
  apply (scan_until_mono _ m (n `max` m)) in H'; [|lia].
  congruence.
Qed.

Lemma open_brace_url_type_loop fuel ty rx :
  url_type_loop fuel (split_chars open_brace_url) 7 ty rx = None.
Proof.
  destruct fuel as [|fuel]; [done|]. cbn.
  by rewrite scan_until_diverges.
Qed.

Lemma open_brace_url_loop fuel :
  url_loop fuel (split_chars open_brace_url) 2 "" "" "" = None.
Proof.
  destruct fuel as [|fuel]; [done|]. cbn.
  destruct (scan_until ":" fuel _ 2 "") as [[i name]|] eqn:E; [|done].
  assert (scan_until ":" 10 (split_chars open_brace_url) 2 "" = Some (6, "code"))
    as E0 by reflexivity.
  pose proof (scan_until_det _ _ _ _ _ _ _ _ E E0) as [= -> ->].
  destruct fuel as [|fuel]; [done|]. cbn.
  by rewrite open_brace_url_type_loop.
Qed.

Lemma open_brace_query_pair_loop fuel name ty rx tys a o :
  q_pair_loop fuel (split_chars open_brace_query) (mkQState 2 name ty rx tys a o) = None.
Proof.
  destruct fuel as [|fuel]; [done|]. cbn.
  by rewrite scan_until_diverges.
Qed.

Lemma open_brace_query_loop fuel params :
  q_loop fuel (split_chars open_brace_query) 1 params = None.
Proof.
  destruct fuel as [|fuel]; [done|]. cbn.
  destruct fuel as [|fuel]; [done|]. cbn.
  by rewrite open_brace_query_pair_loop.
Qed.

(** C5: on a path whose [<] or [{] is never closed the scanner does not stop
    and reports nothing: for every amount of fuel the run is still going,
    for ["/<id"], for ["/<code: {^[A-Z]>"] and for ["?q={a"]. *)
Theorem unclosed_delimiter_runs_for_ever (fuel : nat) :
  extractUrlAndQueryParametersFromPath fuel "/<id" = None ∧
  extractUrlAndQueryParametersFromPath fuel open_brace_url = None ∧
  extractUrlAndQueryParametersFromPath fuel open_brace_query = None.
Proof.
  unfold extractUrlAndQueryParametersFromPath. repeat split.
  - rewrite (top_loop_unclosed_angle fuel _ _ _ 1); first [reflexivity | simpl; lia].
  - do 2 (destruct fuel as [|fuel]; [done|]).
    pose proof (open_brace_url_loop fuel) as E.
    cbn in E |- *. unfold extractUrlParamsFromPath. by rewrite E.
  - destruct fuel as [|fuel]; [done|].
    pose proof (open_brace_query_loop fuel []) as E.
    cbn in E |- *. unfold extractQueryParamsFromPath. by rewrite E.
Qed.

(** *** The query template of the interface section *)

(** C7: what the scanner makes of
    [?page=number&tags=string[]&sort=string(asc|desc)?]: it returns, and
    whatever the fuel its only result has two query parameters, [page] of
    type [number] and [tags], an optional array whose types are
    ["stringsort=stringasc"] and ["desc"]; there is no parameter [sort]. *)
Theorem query_template_parsed :
  ∃ r, extractUrlAndQueryParametersFromPath 60 query_template = Some r ∧
       queryParams r = query_template_params ∧
       obj_get "sort" (queryParams r) = None ∧
       ∀ (fuel : nat) r',
         extractUrlAndQueryParametersFromPath fuel query_template = Some r' → r' = r.
Proof.
  eexists. split; [vm_compute; reflexivity|].
  split; [reflexivity|]. split; [reflexivity|].
  intros fuel r' Hr'. symmetry.
  eapply (extractUrlAndQueryParametersFromPath_det 60 fuel); [|exact Hr'].
  vm_compute. reflexivity.
Qed.

(** The two parts of the template that go wrong, each alone: the array
    mark is read, and the text before the parenthesis is glued to the
    first alternative. *)
Lemma query_template_pieces :
  queryParams <$> extractUrlAndQueryParametersFromPath 60 "?tags=string[]"
  = Some [("tags", mkQueryParam ["string"] false true None)] ∧
  queryParams <$> extractUrlAndQueryParametersFromPath 60 "?sort=string(asc|desc)?"
  = Some [("sort", mkQueryParam ["stringasc"; "desc"] true false None)] ∧
  queryParams <$> extractUrlAndQueryParametersFromPath 60 "?tags=string[]&page=number"
  = Some [("tags", mkQueryParam ["stringpage=number"] false true None)].
Proof. repeat split; vm_compute; reflexivity. Qed.

End PathTemplateFacts.

(** ** The router tree *)
Module RoutersFacts.
Import Js JsFacts PathTemplate Routers Scenarios.

Section Facts.
Context {Mw H : Type}.
Implicit Types (h s : Heap Mw H) (r c : Router Mw) (o : list (string * H)).

(** *** The store *)

Lemma routers_put_router id r h :
  routers (put_router id r h) = <[id := r]> (routers h).
Proof. done. Qed.

Lemma handler_objs_put_router id r h :
  handler_objs (put_router id r h) = handler_objs h.
Proof. done. Qed.

Lemma routers_put_obj id o h : routers (put_obj id o h) = routers h.
Proof. done. Qed.

Lemma handler_objs_put_obj id o h :
  handler_objs (put_obj id o h) = <[id := o]> (handler_objs h).
Proof. done. Qed.

Lemma fresh_obj_None h : handler_objs h !! fresh (dom (handler_objs h)) = None.
Proof. apply not_elem_of_dom, is_fresh. Qed.

(** *** Handler methods *)

(** What a handler method does to the store: [ex] is the pruned old
    object (or the fresh [{}]), [h1] the store after pruning, [ref] the new
    object. *)
Lemma replace_handlers_inv prune key handler this h h' :
  replace_handlers prune key handler this h = Some h' →
  ∃ r ex h1,
    routers h !! this = Some r ∧
    match r_handlers r with
    | Some ref0 => ∃ o0, handler_objs h !! ref0 = Some o0 ∧
                         ex = prune o0 ∧ h1 = put_obj ref0 ex h
    | None => ex = [] ∧ h1 = h
    end ∧
    h' = put_router this (with_handlers (Some (fresh (dom (handler_objs h1)))) r)
           (put_obj (fresh (dom (handler_objs h1))) (obj_set key handler ex) h1).
Proof.
  unfold replace_handlers. intros Hrun.
  destruct (routers h !! this) as [r|] eqn:Hr; [|done]. simpl in Hrun.
  exists r. destruct (r_handlers r) as [ref0|] eqn:Hh.
  - destruct (handler_objs h !! ref0) as [o0|] eqn:Ho; [|done]. simpl in Hrun.
    injection Hrun as <-. exists (prune o0), (put_obj ref0 (prune o0) h).
    split; [done|]. split; [|done]. by exists o0.
  - simpl in Hrun. injection Hrun as <-. by exists [], h.
Qed.

Lemma replace_handlers_handlers_of prune key handler this h h' :
  replace_handlers prune key handler this h = Some h' →
  handlers_of this h'
  = Some (obj_set key handler (from_option prune [] (handlers_of this h))).
Proof.
  intros (r & ex & h1 & Hr & Hex & ->)%replace_handlers_inv.
  unfold handlers_of. rewrite routers_put_router, lookup_insert_eq. simpl.
  rewrite lookup_insert_eq, Hr. simpl.
  destruct (r_handlers r) as [ref0|]; simpl.
  - destruct Hex as (o0 & -> & -> & _). done.
  - by destruct Hex as [-> _].
Qed.

(** A handler method returns whenever its router is in the store and the
    object in [__handlers], if any, is too. *)
Lemma replace_handlers_returns prune key handler this h r :
  routers h !! this = Some r →
  (∀ ref0, r_handlers r = Some ref0 → is_Some (handler_objs h !! ref0)) →
  is_Some (replace_handlers prune key handler this h).
Proof.
  intros Hr Hobj. unfold replace_handlers. rewrite Hr. simpl.
  destruct (r_handlers r) as [ref0|]; simpl; [|by eexists].
  destruct (Hobj ref0 eq_refl) as [o0 ->]. by eexists.
Qed.

Lemma specific_not_all m : m ∈ specific_methods → m ≠ "all".
Proof.
  unfold specific_methods. intros Hm ->.
  repeat (apply elem_of_cons in Hm as [?|Hm]; [done|]). by apply elem_of_nil in Hm.
Qed.

(** C4: the handler-set state machine.  After a specific method is defined
    the handler set holds it, holds no [all], and keeps the other specific
    methods as they were; after [all] is defined the handler set holds
    [all] and nothing else; so after any sequence of handler-defining
    calls the handler set has no [all] or nothing but [all].  On a router
    without handlers, [get(h1).all(h2)] ends with [{all: h2}] and
    [all(h2).get(h1)] with [{get: h1}]. *)
Theorem handler_set_state_machine :
  (∀ m handler this h h',
     m ∈ specific_methods →
     define_method m handler this h = Some h' →
     ∃ o, handlers_of this h' = Some o ∧
          obj_get m o = Some handler ∧
          obj_get "all" o = None ∧
          ∀ k, k ≠ m → k ≠ "all" → obj_get k o = handlers_of this h ≫= obj_get k) ∧
  (∀ handler this h h',
     all handler this h = Some h' →
     ∃ o, handlers_of this h' = Some o ∧
          obj_get "all" o = Some handler ∧
          ∀ k, k ≠ "all" → obj_get k o = None) ∧
  (∀ calls this h h',
     Forall known_method calls → handlers_ok this h →
     handler_calls calls this h = Some h' → handlers_ok this h') ∧
  (∀ (h1 h2 : H) this h r,
     routers h !! this = Some r → r_handlers r = None →
     (h ← get h1 this h; h ← all h2 this h; handlers_of this h) = Some [("all", h2)] ∧
     (h ← all h2 this h; h ← get h1 this h; handlers_of this h) = Some [("get", h1)]).
Proof.
  assert (∀ m handler this h h',
            m ∈ specific_methods →
            define_method m handler this h = Some h' →
            ∃ o, handlers_of this h' = Some o ∧
                 obj_get m o = Some handler ∧
                 obj_get "all" o = None ∧
                 ∀ k, k ≠ m → k ≠ "all" →
                      obj_get k o = handlers_of this h ≫= obj_get k) as Hspecific.
  2: assert (∀ handler this h h',
               all handler this h = Some h' →
               ∃ o, handlers_of this h' = Some o ∧
                    obj_get "all" o = Some handler ∧
                    ∀ k, k ≠ "all" → obj_get k o = None) as Hall.
  3: split; [exact Hspecific|split; [exact Hall|split]].
  - intros m handler this h h' Hm%specific_not_all Hrun.
    apply replace_handlers_handlers_of in Hrun. eexists. split; [done|].
    split; [apply obj_get_set_eq|]. split.
    + rewrite obj_get_set_ne by done.
      destruct (handlers_of this h); simpl; [apply obj_get_delete_eq|done].
    + intros k Hkm Hka. rewrite obj_get_set_ne by done.
      destruct (handlers_of this h); simpl; [|done].
      by rewrite obj_get_delete_ne.
  - intros handler this h h' Hrun.
    apply replace_handlers_handlers_of in Hrun. eexists. split; [done|].
    split; [apply obj_get_set_eq|].
    intros k Hk. rewrite obj_get_set_ne by done.
    destruct (handlers_of this h); simpl; [|done].
    rewrite obj_get_only. by rewrite decide_False.
  - intros calls this. induction calls as [|c calls IH]; intros h h' Hknown Hok Hrun;
      simpl in Hrun; [by injection Hrun as <-|].
    apply Forall_cons in Hknown as [Hc Hknown].
    destruct (handler_call c this h) as [ha|] eqn:Hcall; [|done]. simpl in Hrun.
    eapply IH; [done| |done]. unfold handlers_ok.
    destruct c as [m handler|handler]; simpl in Hcall, Hc.
    + destruct (Hspecific _ _ _ _ _ Hc Hcall) as (o & -> & _ & Hnone & _). by left.
    + destruct (Hall _ _ _ _ Hcall) as (o & -> & _ & Honly). by right.
  - intros h1 h2 this h r Hr Hh.
    assert (handlers_of this h = None) as Hnone.
    { unfold handlers_of. by rewrite Hr; simpl; rewrite Hh. }
    split.
    + destruct (get h1 this h) as [ha|] eqn:Ea.
      2:{ by destruct (replace_handlers_returns (obj_delete "all") "get" h1 this h r Hr)
            as [? ?]; [rewrite Hh|unfold get, define_method in Ea; congruence]. }
      simpl. pose proof (replace_handlers_handlers_of _ _ _ _ _ _ Ea) as Ha.
      rewrite Hnone in Ha. simpl in Ha.
      destruct (all h2 this ha) as [hb|] eqn:Eb.
      2:{ unfold handlers_of in Ha.
          destruct (routers ha !! this) as [ra|] eqn:Era; [|done]. simpl in Ha.
          destruct (replace_handlers_returns (filter (λ kv, kv.1 = "all")) "all"
                      h2 this ha ra Era) as [? ?]; [|unfold all in Eb; congruence].
          intros ref0 Href. rewrite Href in Ha. simpl in Ha. eauto. }
      simpl. rewrite (replace_handlers_handlers_of _ _ _ _ _ _ Eb), Ha. done.
    + destruct (all h2 this h) as [ha|] eqn:Ea.
      2:{ by destruct (replace_handlers_returns (filter (λ kv, kv.1 = "all")) "all"
                         h2 this h r Hr)
            as [? ?]; [rewrite Hh|unfold all in Ea; congruence]. }
      simpl. pose proof (replace_handlers_handlers_of _ _ _ _ _ _ Ea) as Ha.
      rewrite Hnone in Ha. simpl in Ha.
      destruct (get h1 this ha) as [hb|] eqn:Eb.
      2:{ unfold handlers_of in Ha.
          destruct (routers ha !! this) as [ra|] eqn:Era; [|done]. simpl in Ha.
          destruct (replace_handlers_returns (obj_delete "all") "get"
                      h1 this ha ra Era) as [? ?];
            [|unfold get, define_method in Eb; congruence].
          intros ref0 Href. rewrite Href in Ha. simpl in Ha. eauto. }
      simpl. rewrite (replace_handlers_handlers_of _ _ _ _ _ _ Eb), Ha. done.
Qed.

(** *** Handlers defined after composition *)

Lemma replace_handlers_route_entries_kept prune key handler this h h' :
  (∀ o k v, obj_get k (prune o) = Some v → obj_get k o = Some v) →
  replace_handlers prune key handler this h = Some h' →
  route_entries_kept this h h'.
Proof.
  intros Hprune (r & ex & h1 & Hr & Hex & ->)%replace_handlers_inv.
  set (ref := fresh (dom (handler_objs h1))).
  assert (handler_objs h1 !! ref = None) as Hfresh by apply fresh_obj_None.
  assert (∀ x o, handler_objs h !! x = Some o →
            ∃ o', handler_objs h1 !! x = Some o' ∧
                  ∀ k v, obj_get k o' = Some v → obj_get k o = Some v) as Hkept.
  { intros x o Hx. destruct (r_handlers r) as [ref0|].
    - destruct Hex as (o0 & Ho0 & -> & ->). rewrite handler_objs_put_obj.
      destruct (decide (ref0 = x)) as [->|Hne].
      + rewrite lookup_insert_eq. eexists. split; [done|].
        intros k v Hk. apply Hprune in Hk. congruence.
      + rewrite lookup_insert_ne by done. eauto.
    - destruct Hex as [_ ->]. eauto. }
  split; [|split].
  - intros id. unfold completePaths_of. rewrite routers_put_router, routers_put_obj.
    destruct (decide (this = id)) as [<-|Hne].
    + rewrite lookup_insert_eq. by rewrite Hr.
    + rewrite lookup_insert_ne by done.
      destruct (r_handlers r); [destruct Hex as (?&?&?&->)|destruct Hex as [_ ->]]; done.
  - intros id rk e o _ Ho. unfold entry_handlers in *.
    destruct (Hkept _ _ Ho) as (o' & Ho' & Hsub).
    exists o'. split; [|done].
    rewrite handler_objs_put_router, handler_objs_put_obj.
    rewrite lookup_insert_ne; [done|]. intros Heq. fold ref in Heq. congruence.
  - exists ref. rewrite routers_put_router, lookup_insert_eq. split; [done|].
    destruct (handler_objs h !! ref) as [o|] eqn:Ho; [|done].
    destruct (Hkept _ _ Ho) as (o' & Ho' & _). congruence.
Qed.

(** A handler method puts a new handler object on its router and leaves
    every route table as it was; the entries keep the handler object they
    were made with, which gains no handler and has none replaced (it can
    lose some), and none of them can refer to the new object. *)
Theorem handler_methods_keep_route_entries :
  (∀ m handler this (h h' : Heap Mw H),
     define_method m handler this h = Some h' → route_entries_kept this h h') ∧
  (∀ handler this (h h' : Heap Mw H),
     all handler this h = Some h' → route_entries_kept this h h').
Proof.
  split.
  - intros m handler this h h'. apply replace_handlers_route_entries_kept.
    intros o k v Hk. rewrite obj_get_delete in Hk. by destruct (decide _).
  - intros handler this h h'. apply replace_handlers_route_entries_kept.
    intros o k v Hk. rewrite obj_get_only in Hk. by destruct (decide _).
Qed.

(** *** Composition writes route tables only *)

Lemma heap_eq h h' :
  routers h = routers h' → handler_objs h = handler_objs h' → h = h'.
Proof. destruct h, h'; simpl; congruence. Qed.

Lemma put_router_put_router id r r0 h :
  put_router id r (put_router id r0 h) = put_router id r h.
Proof. apply heap_eq; simpl; [apply insert_insert_eq|done]. Qed.

Lemma put_router_id id r h : routers h !! id = Some r → put_router id r h = h.
Proof. intros Hr. apply heap_eq; simpl; [by apply insert_id|done]. Qed.

Lemma with_completePaths_idem t t0 r :
  with_completePaths t (with_completePaths t0 r) = with_completePaths (Mw:=Mw) t r.
Proof. done. Qed.

Lemma with_completePaths_same r : with_completePaths (r_completePaths r) r = r.
Proof. by destruct r. Qed.

Lemma set_completePath_inv id e h h' :
  set_completePath id e h = Some h' →
  ∃ r, routers h !! id = Some r ∧
       h' = put_router id (with_completePaths (map_set e.1 e.2 (r_completePaths r)) r) h.
Proof.
  unfold set_completePath. destruct (routers h !! id) as [r|]; [|done].
  simpl. intros [= <-]. eauto.
Qed.

Lemma lift_entries_inv router child es : ∀ h h' r,
  routers h !! router = Some r →
  lift_entries router child es h = Some h' →
  ∃ t, h' = put_router router (with_completePaths t r) h.
Proof.
  induction es as [|e es IH]; intros h h' r Hr Hrun; simpl in Hrun.
  - injection Hrun as <-. exists (r_completePaths r).
    by rewrite with_completePaths_same, put_router_id.
  - rewrite Hr in Hrun. simpl in Hrun.
    destruct (routers h !! child) as [c|]; [|done]. simpl in Hrun.
    destruct (set_completePath router _ h) as [h1|] eqn:Hset; [|done]. simpl in Hrun.
    apply set_completePath_inv in Hset as (r' & Hr' & ->).
    assert (r' = r) as -> by congruence.
    eapply IH in Hrun as [t ->].
    2:{ rewrite routers_put_router. apply lookup_insert_eq. }
    exists t. by rewrite with_completePaths_idem, put_router_put_router.
Qed.

(** One turn of the loop changes the table of [router] and nothing else,
    and goes on with the parent of [router]. *)
Lemma append_step_inv router child h next h' :
  append_step router child h = Some (next, h') →
  ∃ r t, routers h !! router = Some r ∧ next = r_parentRouter r ∧
         h' = put_router router (with_completePaths t r) h.
Proof.
  unfold append_step. intros Hrun.
  destruct (routers h !! router) as [r|] eqn:Hr; [|done]. simpl in Hrun.
  destruct (routers h !! child) as [c|] eqn:Hc; [|done]. simpl in Hrun.
  destruct (existsHandlersOnChild c h) as [hs|]; [|done]. simpl in Hrun.
  assert (∃ t1 h1, (match hs with
                    | Some hs => set_completePath router (own_entry r c child hs) h
                    | None => Some h
                    end = Some h1 ∨ False) ∧
                   h1 = put_router router (with_completePaths t1 r) h) as Hstep1.
  { destruct hs as [hs|].
    - destruct (set_completePath router _ h) as [h1|] eqn:Hset.
      + apply set_completePath_inv in Hset as (r' & Hr' & ->).
        assert (r' = r) as -> by congruence. eauto.
      + done.
    - exists (r_completePaths r), h. split; [by left|].
      by rewrite with_completePaths_same, put_router_id. }
  destruct Hstep1 as (t1 & h1 & [Hs1|[]] & ->). rewrite Hs1 in Hrun. simpl in Hrun.
  set (h1 := put_router router (with_completePaths t1 r) h) in *.
  assert (routers h1 !! router = Some (with_completePaths t1 r)) as Hr1.
  { subst h1. rewrite routers_put_router. apply lookup_insert_eq. }
  assert (∃ t2, ∀ h2, (if (0 <? map_size (r_completePaths c))%nat
                       then c ← routers h1 !! child;
                            lift_entries router child (r_completePaths c) h1
                       else Some h1) = Some h2 →
                      h2 = put_router router (with_completePaths t2 r) h) as [t2 Ht2].
  { destruct (0 <? map_size (r_completePaths c))%nat.
    - destruct (routers h1 !! child) as [c1|]; simpl.
      + destruct (lift_entries router child (r_completePaths c1) h1) as [h2|] eqn:Hl.
        * eapply lift_entries_inv in Hl as [t2 ->]; [|done].
          exists t2. intros hx [= <-]. subst h1.
          by rewrite with_completePaths_idem, put_router_put_router.
        * by exists [].
      + by exists [].
    - exists t1. by intros hx [= <-]. }
  destruct (if (0 <? map_size (r_completePaths c))%nat then _ else _) as [h2|];
    [|done]. simpl in Hrun.
  rewrite (Ht2 h2 eq_refl) in Hrun. rewrite routers_put_router, lookup_insert_eq in Hrun.
  simpl in Hrun. injection Hrun as <- <-. eauto.
Qed.

Lemma tables_changed_refl P h : tables_changed_within P h h.
Proof. split; [done|]. by left. Qed.

Lemma tables_changed_put P id r t h :
  P id → routers h !! id = Some r →
  tables_changed_within P h (put_router id (with_completePaths t r) h).
Proof.
  intros HP Hr. split; [done|]. intros j. rewrite routers_put_router.
  destruct (decide (id = j)) as [<-|Hne].
  - right. split; [done|]. exists r, t. by rewrite lookup_insert_eq.
  - left. by rewrite lookup_insert_ne.
Qed.

Lemma tables_changed_trans P h1 h2 h3 :
  tables_changed_within P h1 h2 → tables_changed_within P h2 h3 →
  tables_changed_within P h1 h3.
Proof.
  intros [Ho12 H12] [Ho23 H23]. split; [congruence|]. intros id.
  destruct (H12 id) as [E12|(HP & r & t & Hr & Hr')],
           (H23 id) as [E23|(HP' & r2 & t2 & Hr2 & Hr2')].
  - left. congruence.
  - right. split; [done|]. exists r2, t2. split; congruence.
  - right. split; [done|]. exists r, t. split; congruence.
  - right. split; [done|]. exists r, t2. split; [done|].
    rewrite Hr2'. f_equal. assert (r2 = with_completePaths t r) as -> by congruence.
    done.
Qed.

Lemma tables_changed_mono (P Q : nat → Prop) h h' :
  (∀ id, P id → Q id) → tables_changed_within P h h' → tables_changed_within Q h h'.
Proof.
  intros HPQ [Ho Hr]. split; [done|]. intros id.
  destruct (Hr id) as [?|(HP & Hrest)]; [by left|right]. split; [auto|done].
Qed.

Lemma tables_changed_parent_of P h h' id :
  tables_changed_within P h h' → parent_of h' id = parent_of h id.
Proof.
  intros [_ Hr]. unfold parent_of.
  destruct (Hr id) as [->|(_ & r & t & -> & ->)]; done.
Qed.

(** *** Ancestors *)

Lemma aos_ext h h' x a :
  (∀ id, parent_of h' id = parent_of h id) →
  ancestor_or_self h x a → ancestor_or_self h' x a.
Proof.
  intros Hext. induction 1 as [x|x p a Hp _ IH]; [constructor|].
  eapply aos_parent; [|done]. by rewrite Hext.
Qed.

Lemma aos_trans h x y z :
  ancestor_or_self h x y → ancestor_or_self h y z → ancestor_or_self h x z.
Proof.
  induction 1 as [x|x p a Hp _ IH]; [done|]. intros Hz.
  eapply aos_parent; [done|]. by apply IH.
Qed.

(** Two stores whose parent links agree except at [c] have the same
    ancestors from any router that does not have [c] above it. *)
Lemma aos_except h h' (c x a : nat) :
  (∀ id, id ≠ c → parent_of h' id = parent_of h id) →
  ¬ ancestor_or_self h x c →
  ancestor_or_self h x a → ancestor_or_self h' x a.
Proof.
  intros Hext Hc. induction 1 as [x|x p a Hp Ha IH]; [constructor|].
  assert (x ≠ c) as Hx by (intros ->; apply Hc; constructor).
  eapply aos_parent; [by rewrite Hext|]. apply IH.
  intros Hpc. apply Hc. by eapply aos_parent.
Qed.

Lemma aos_except_inv h h' (c x a : nat) :
  (∀ id, id ≠ c → parent_of h' id = parent_of h id) →
  ¬ ancestor_or_self h x c →
  ancestor_or_self h' x a → ancestor_or_self h x a.
Proof.
  intros Hext Hc. induction 1 as [x|x p a Hp Ha IH]; [constructor|].
  assert (x ≠ c) as Hx by (intros ->; apply Hc; constructor).
  rewrite Hext in Hp by done.
  eapply aos_parent; [done|]. apply IH.
  intros Hpc. apply Hc. by eapply aos_parent.
Qed.

(** Up to [c], the ancestors are those of any store with the same links
    elsewhere. *)
Lemma aos_reaches h h' (c x : nat) :
  (∀ id, id ≠ c → parent_of h' id = parent_of h id) →
  ancestor_or_self h x c → ancestor_or_self h' x c.
Proof.
  intros Hext. induction 1 as [x|x p a Hp Ha IH]; [constructor|].
  destruct (decide (x = a)) as [->|Hx]; [constructor|].
  eapply aos_parent; [by rewrite Hext|by apply IH].
Qed.

(** *** [appendChildToParentRouter] *)

Lemma appendChildToParentRouter_frame child fuel : ∀ x h h',
  appendChildToParentRouter fuel (Some x) child h = Some h' →
  tables_changed_within (ancestor_or_self h x) h h'.
Proof.
  induction fuel as [|fuel IH]; intros x h h' Hrun; [done|]. simpl in Hrun.
  destruct (append_step x child h) as [[next h1]|] eqn:Hstep; [|done].
  simpl in Hrun.
  apply append_step_inv in Hstep as (r & t & Hr & -> & ->).
  pose proof (tables_changed_put (ancestor_or_self h x) x r t h (aos_self h x) Hr) as H1.
  destruct (r_parentRouter r) as [p|] eqn:Hp.
  - eapply tables_changed_trans; [exact H1|].
    eapply tables_changed_mono; [|by apply IH].
    intros id Hid. eapply aos_parent.
    + unfold parent_of. by rewrite Hr.
    + eapply aos_ext; [|exact Hid]. intros j. symmetry.
      by eapply tables_changed_parent_of.
  - destruct fuel; simpl in Hrun; by injection Hrun as <-.
Qed.

(** On a cycle of parent links the loop uses up any fuel: from a router
    below [c], where the parent of [c] is a router that is below [c]. *)
Lemma appendChildToParentRouter_cycle (child c back : nat) fuel : ∀ x h,
  ancestor_or_self h x c → parent_of h c = Some back →
  ancestor_or_self h back c →
  appendChildToParentRouter fuel (Some x) child h = None.
Proof.
  induction fuel as [|fuel IH]; intros x h Hx Hc Hback; [done|]. simpl.
  destruct (append_step x child h) as [[next h1]|] eqn:Hstep; [|done]. simpl.
  apply append_step_inv in Hstep as (r & t & Hr & -> & ->).
  assert (∀ id, parent_of (put_router x (with_completePaths t r) h) id = parent_of h id)
    as Hsame.
  { intros id. eapply tables_changed_parent_of, (tables_changed_put (λ _, True)); done. }
  assert (∀ y, ancestor_or_self h y c →
               ancestor_or_self (put_router x (with_completePaths t r) h) y c) as Hto.
  { intros y. by apply aos_ext. }
  inversion Hx as [|x' p a Hp Hpc]; subst.
  - unfold parent_of in Hc. rewrite Hr in Hc. simpl in Hc. rewrite Hc.
    apply IH; [by apply Hto| |by apply Hto].
    rewrite Hsame. unfold parent_of. by rewrite Hr.
  - unfold parent_of in Hp. rewrite Hr in Hp. simpl in Hp. rewrite Hp.
    apply IH; [by apply Hto|by rewrite Hsame|by apply Hto].
Qed.

(** *** [nested] *)

Lemma with_parent_idem b p (r : Router Mw) :
  with_parent b p (with_parent b p r) = with_parent b p r.
Proof. done. Qed.

(** Attaching a child returns only if the child is not the attaching
    router or one of its ancestors; it then sets the child's parent and
    flag and writes tables of the attaching router and its ancestors. *)
Lemma attach_child_frame fuel isNested this (child : nat) h h' :
  attach_child fuel isNested this child h = Some h' →
  ¬ ancestor_or_self h this child ∧
  ∃ rc, routers h !! child = Some rc ∧
        tables_changed_within (ancestor_or_self h this)
          (put_router child (with_parent isNested this rc) h) h'.
Proof.
  unfold attach_child. destruct (routers h !! child) as [rc|] eqn:Hc; [|done]. simpl.
  set (h0 := put_router child (with_parent isNested this rc) h). intros Hrun.
  assert (∀ id, id ≠ child → parent_of h0 id = parent_of h id) as Hlinks.
  { intros id Hid. unfold parent_of, h0.
    by rewrite routers_put_router, lookup_insert_ne. }
  assert (parent_of h0 child = Some this) as Hpc.
  { unfold parent_of, h0. by rewrite routers_put_router, lookup_insert_eq. }
  assert (¬ ancestor_or_self h this child) as Hnot.
  { intros Habove.
    assert (ancestor_or_self h0 this child) as H0 by by eapply aos_reaches.
    by rewrite (appendChildToParentRouter_cycle child child this fuel this h0) in Hrun. }
  split; [done|]. exists rc. split; [done|].
  eapply tables_changed_mono;
    [|exact (appendChildToParentRouter_frame child fuel this h0 h' Hrun)].
  intros id Hid. by eapply (aos_except_inv h h0 child).
Qed.

Lemma attach_children_frame fuel isNested this children : ∀ h h',
  attach_children fuel isNested this children h = Some h' →
  handler_objs h' = handler_objs h ∧
  Forall (λ c : nat, ¬ ancestor_or_self h this c) children ∧
  ∀ id,
    if decide (id ∈ children)
    then ∃ r, routers h !! id = Some r ∧
              routers h' !! id = Some (with_parent isNested this r)
    else routers h' !! id = routers h !! id ∨
         (ancestor_or_self h this id ∧
          ∃ r t, routers h !! id = Some r ∧
                 routers h' !! id = Some (with_completePaths t r)).
Proof.
  induction children as [|child cs IH]; intros h h' Hrun; simpl in Hrun.
  - injection Hrun as <-. split; [done|]. split; [constructor|].
    intros id. rewrite decide_False by apply not_elem_of_nil. by left.
  - destruct (attach_child fuel isNested this child h) as [h1|] eqn:Hone; [|done].
    simpl in Hrun.
    apply attach_child_frame in Hone as (Hnot & rc & Hrc & Htc).
    destruct (IH _ _ Hrun) as (Hobj' & Hall' & Hid').
    set (h0 := put_router child (with_parent isNested this rc) h) in *.
    assert (∀ id, id ≠ child → parent_of h1 id = parent_of h id) as Hlinks.
    { intros id Hid. rewrite (tables_changed_parent_of _ h0 h1) by done.
      unfold parent_of, h0. by rewrite routers_put_router, lookup_insert_ne. }
    assert (∀ a, ancestor_or_self h this a → ancestor_or_self h1 this a) as Hto
      by (intros a; by apply (aos_except h h1 child)).
    assert (∀ a, ancestor_or_self h1 this a → ancestor_or_self h this a) as Hfrom
      by (intros a; by apply (aos_except_inv h h1 child)).
    assert (routers h1 !! child = Some (with_parent isNested this rc)) as H1c.
    { destruct Htc as [_ Htc]. destruct (Htc child) as [->|[Habove _]]; [|done].
      unfold h0. by rewrite routers_put_router, lookup_insert_eq. }
    assert (∀ id, id ≠ child →
              routers h1 !! id = routers h !! id ∨
              (ancestor_or_self h this id ∧
               ∃ r t, routers h !! id = Some r ∧
                      routers h1 !! id = Some (with_completePaths t r))) as H1o.
    { intros id Hid. destruct Htc as [_ Htc].
      destruct (Htc id) as [E|(Habove & r & t & Hr & Hr')].
      - left. rewrite E. unfold h0. by rewrite routers_put_router, lookup_insert_ne.
      - right. split; [done|]. exists r, t. split; [|done].
        rewrite <- Hr. unfold h0. by rewrite routers_put_router, lookup_insert_ne. }
    split; [|split].
    + rewrite Hobj'. by destruct Htc as [-> _].
    + constructor; [done|]. eapply Forall_impl; [exact Hall'|]. intros c Hc Habove.
      by apply Hc, Hto.
    + intros id. specialize (Hid' id).
      destruct (decide (id = child)) as [->|Hne].
      * rewrite decide_True by (apply elem_of_cons; by left).
        exists rc. split; [done|]. destruct (decide (child ∈ cs)).
        -- destruct Hid' as (r1 & Hr1 & ->). rewrite H1c in Hr1. by injection Hr1 as <-.
        -- destruct Hid' as [->|[Habove _]]; [done|]. by apply Hfrom in Habove.
      * destruct (decide (id ∈ cs)) as [Hin|Hnin].
        -- rewrite decide_True by (apply elem_of_cons; by right).
           destruct Hid' as (r1 & Hr1 & ->).
           destruct (H1o id Hne) as [E|[Habove _]].
           ++ exists r1. split; [congruence|done].
           ++ rewrite Forall_forall in Hall'. by apply Hto, Hall' in Habove.
        -- rewrite decide_False by (intros [?|?]%elem_of_cons; done).
           destruct Hid' as [E'|(Habove' & r1 & t' & Hr1 & Hr1')],
                    (H1o id Hne) as [E|(Habove & r & t & Hr & Hr')].
           ++ left. congruence.
           ++ right. split; [done|]. exists r, t. split; congruence.
           ++ right. split; [by apply Hfrom|]. exists r1, t'. split; congruence.
           ++ right. split; [done|]. exists r, t'. split; [done|].
              rewrite Hr1'. f_equal.
              assert (r1 = with_completePaths t r) as -> by congruence. done.
Qed.

(** C10: [this.nested(children)], when it returns, changes no handler
    object and changes of a child only the parent link and the flag: its
    path, what was scanned from it, its middlewares, handlers, own table
    and children are as before; of any router only the table, and only if
    it is the attaching router or one of its ancestors; and of the
    attaching router also the list of children. *)
Theorem nested_frame (fuel : nat) (isNested : bool) (children : list nat) (this : nat)
    (h h' : Heap Mw H) :
  nested fuel isNested children this h = Some h' →
  handler_objs h' = handler_objs h ∧
  ∀ id, attached_frame isNested children this h h' id.
Proof.
  unfold nested. destruct (routers h !! this) as [r0|] eqn:Hr0; [|done]. simpl.
  destruct (attach_children fuel isNested this children h) as [h1|] eqn:Hatt; [|done].
  simpl. apply attach_children_frame in Hatt as (Hobj & Hall & Hids).
  destruct (routers h1 !! this) as [r1|] eqn:Hr1; [|done]. simpl.
  intros [= <-]. split; [done|].
  assert (this ∉ children) as Hthis.
  { intros Hin. rewrite Forall_forall in Hall. apply (Hall _ Hin). constructor. }
  intros id. unfold attached_frame. rewrite routers_put_router.
  specialize (Hids id). destruct (decide (id = this)) as [->|Hne].
  - rewrite lookup_insert_eq, Hr0. rewrite decide_False in Hids by done.
    rewrite Hr1, Hr0 in Hids.
    assert (∃ t, r1 = with_completePaths t r0) as [t ->].
    { destruct Hids as [[= ->]|(_ & r & t & [= <-] & [= ->])];
        [exists (r_completePaths r0); by destruct r0|by exists t]. }
    repeat split; try done. intros Hno. destruct Hno. constructor.
  - rewrite lookup_insert_ne by done. destruct (decide (id ∈ children)) as [Hin|Hnin].
    + destruct Hids as (r & -> & ->). repeat split; try done.
    + destruct Hids as [->|(Habove & r & t & -> & ->)].
      * destruct (routers h !! id); [|done]. repeat split; done.
      * repeat split; try done.
Qed.

(** *** [nested] returns on a tree *)

Lemma chain_put_table (x y : nat) r t h l :
  routers h !! y = Some r →
  chain h x l → chain (put_router y (with_completePaths t r) h) x l.
Proof.
  intros Hy. induction 1 as [x rx Hx Hp|x rx p l Hx Hp _ IH].
  - destruct (decide (y = x)) as [->|Hne].
    + eapply chain_root; [by rewrite routers_put_router, lookup_insert_eq|].
      simpl. congruence.
    + eapply chain_root; [by rewrite routers_put_router, lookup_insert_ne|done].
  - destruct (decide (y = x)) as [->|Hne].
    + eapply chain_step; [by rewrite routers_put_router, lookup_insert_eq| |done].
      simpl. congruence.
    + eapply chain_step; [by rewrite routers_put_router, lookup_insert_ne|done|done].
Qed.

Lemma chain_put_other (x y : nat) r h l :
  y ∉ l → chain h x l → chain (put_router y r h) x l.
Proof.
  intros Hy. induction 1 as [x rx Hx Hp|x rx p l Hx Hp _ IH].
  - apply not_elem_of_cons in Hy as [Hy _].
    eapply chain_root; [by rewrite routers_put_router, lookup_insert_ne|done].
  - apply not_elem_of_cons in Hy as [Hy Hl].
    eapply chain_step; [by rewrite routers_put_router, lookup_insert_ne|done|auto].
Qed.

Lemma attachable_put (x id : nat) r r' h :
  routers h !! x = Some r → r_handlers r' = r_handlers r →
  attachable id h → attachable id (put_router x r' h).
Proof.
  intros Hx Hh (c & Hc & Hobj). unfold attachable. rewrite routers_put_router.
  destruct (decide (x = id)) as [->|Hne].
  - rewrite lookup_insert_eq. exists r'. split; [done|]. rewrite Hh.
    assert (c = r) as -> by congruence. done.
  - rewrite lookup_insert_ne by done. by exists c.
Qed.

Lemma lift_entries_returns (x child : nat) es : ∀ h,
  is_Some (routers h !! x) → is_Some (routers h !! child) →
  is_Some (lift_entries x child es h).
Proof.
  induction es as [|e es IH]; intros h [r Hr] [c Hc]; simpl; [done|].
  rewrite Hr, Hc. simpl. unfold set_completePath. rewrite Hr. simpl.
  apply IH; rewrite routers_put_router.
  - by rewrite lookup_insert_eq.
  - destruct (decide (x = child)) as [->|Hne].
    + by rewrite lookup_insert_eq.
    + by rewrite lookup_insert_ne, Hc.
Qed.

Lemma append_step_returns (x child : nat) h :
  is_Some (routers h !! x) → attachable child h →
  is_Some (append_step x child h).
Proof.
  intros [r Hr] (c & Hc & Hobj). unfold append_step. rewrite Hr, Hc. simpl.
  assert (is_Some (existsHandlersOnChild c h)) as [hs ->].
  { unfold existsHandlersOnChild. destruct (r_handlers c) as [ref|]; [|done].
    destruct (Hobj ref eq_refl) as [o ->]. done. }
  simpl.
  assert (∃ h1, match hs with
                | Some hs => set_completePath x (own_entry r c child hs) h
                | None => Some h
                end = Some h1 ∧
                is_Some (routers h1 !! x) ∧ is_Some (routers h1 !! child))
    as (h1 & -> & Hx1 & Hc1).
  { destruct hs as [hs|]; [|by exists h; rewrite Hr, Hc].
    unfold set_completePath. rewrite Hr. simpl. eexists. split; [done|].
    rewrite routers_put_router. split.
    - by rewrite lookup_insert_eq.
    - destruct (decide (x = child)) as [->|Hne].
      + by rewrite lookup_insert_eq.
      + by rewrite lookup_insert_ne, Hc. }
  simpl.
  assert (∃ h2, (if (0 <? map_size (r_completePaths c))%nat
                 then c1 ← routers h1 !! child;
                      lift_entries x child (r_completePaths c1) h1
                 else Some h1) = Some h2 ∧ is_Some (routers h2 !! x))
    as (h2 & -> & [r2 Hr2]).
  { destruct (0 <? map_size (r_completePaths c))%nat; [|by exists h1].
    destruct Hc1 as [c1 Hc1]. rewrite Hc1. simpl.
    destruct (lift_entries_returns x child (r_completePaths c1) h1) as [h2 Hh2];
      [done|by rewrite Hc1|].
    exists h2. split; [done|].
    destruct Hx1 as [r1 Hr1].
    eapply lift_entries_inv in Hh2 as [t ->]; [|done].
    by rewrite routers_put_router, lookup_insert_eq. }
  simpl. by rewrite Hr2.
Qed.

(** On a chain of ancestors that ends, the loop returns once the fuel
    covers the length of the chain. *)
Lemma appendChildToParentRouter_returns (child : nat) l : ∀ fuel x h,
  chain h x l → attachable child h → (length l ≤ fuel)%nat →
  is_Some (appendChildToParentRouter fuel (Some x) child h).
Proof.
  induction l as [|y l IH]; intros fuel x h Hchain Hatt Hfuel; [inversion Hchain|].
  destruct fuel as [|fuel]; [simpl in Hfuel; lia|]. simpl.
  assert (is_Some (routers h !! x)) as Hx by (inversion Hchain; subst; eauto).
  destruct (append_step_returns x child h Hx Hatt) as [[next h1] Hstep].
  rewrite Hstep. simpl.
  apply append_step_inv in Hstep as (r & t & Hr & -> & ->).
  inversion Hchain as [x' r' Hr' Hp|x' r' p l' Hr' Hp Hrest]; subst.
  - assert (r' = r) as -> by congruence. rewrite Hp. by destruct fuel.
  - assert (r' = r) as -> by congruence. rewrite Hp.
    apply IH; [by apply chain_put_table| |simpl in Hfuel; lia].
    by eapply attachable_put.
Qed.

Lemma attach_child_returns fuel isNested this (child : nat) l h :
  chain h this l → child ∉ l → attachable child h → (length l ≤ fuel)%nat →
  is_Some (attach_child fuel isNested this child h).
Proof.
  intros Hchain Hnotin Hatt Hfuel. pose proof Hatt as (c & Hc & Hobj).
  unfold attach_child. rewrite Hc. simpl.
  apply (appendChildToParentRouter_returns child l); [|by eapply attachable_put|done].
  by apply chain_put_other.
Qed.

Lemma tables_changed_chain P h h' (x : nat) l :
  tables_changed_within P h h' → chain h x l → chain h' x l.
Proof.
  intros [_ Hr]. induction 1 as [x rx Hx Hp|x rx p l Hx Hp _ IH].
  - destruct (Hr x) as [E|(_ & r & t & Hr1 & Hr2)].
    + eapply chain_root; [by rewrite E|done].
    + eapply chain_root; [done|]. simpl. congruence.
  - destruct (Hr x) as [E|(_ & r & t & Hr1 & Hr2)].
    + eapply chain_step; [by rewrite E|done|done].
    + eapply chain_step; [done| |done]. simpl. congruence.
Qed.

Lemma tables_changed_attachable P h h' (id : nat) :
  tables_changed_within P h h' → attachable id h → attachable id h'.
Proof.
  intros [Ho Hr] (c & Hc & Hobj). unfold attachable. rewrite Ho.
  destruct (Hr id) as [E|(_ & r & t & Hr1 & Hr2)].
  - exists c. by rewrite E.
  - exists (with_completePaths t r). split; [done|]. simpl.
    assert (c = r) as -> by congruence. done.
Qed.

(** X15: [this.nested(children)] returns when [this] has a chain of
    ancestors that ends, no child is on it, every child is in the store
    with its handler object, and the fuel covers the chain. *)
Lemma nested_returns fuel isNested children this l (h : Heap Mw H) :
  chain h this l →
  Forall (λ child : nat, (child ∉ l) ∧ attachable child h) children →
  (length l ≤ fuel)%nat →
  is_Some (nested fuel isNested children this h).
Proof.
  intros Hchain Hch Hfuel. unfold nested.
  assert (is_Some (routers h !! this)) as [r0 ->] by (inversion Hchain; subst; eauto).
  simpl.
  assert (∃ h1, attach_children fuel isNested this children h = Some h1 ∧
                chain h1 this l) as (h1 & -> & Hchain1).
  { clear r0. revert h Hchain Hch.
    induction children as [|child cs IH]; intros h Hchain Hch; simpl; [eauto|].
    apply Forall_cons in Hch as [[Hnotin Hatt] Hcs].
    destruct (attach_child_returns fuel isNested this child l h) as [h1 Hone]; try done.
    rewrite Hone. simpl.
    pose proof (attach_child_frame _ _ _ _ _ _ Hone) as (_ & rc & Hrc & Htc).
    apply IH.
    - eapply tables_changed_chain; [exact Htc|]. by apply chain_put_other.
    - eapply Forall_impl; [exact Hcs|]. intros c [Hc1 Hc2]. split; [done|].
      eapply tables_changed_attachable; [exact Htc|]. by eapply attachable_put. }
  simpl.
  assert (is_Some (routers h1 !! this)) as [r1 ->] by (inversion Hchain1; subst; eauto).
  done.
Qed.

(** *** Every ancestor is written *)

Lemma route_put_table id t r h key :
  route id key (put_router id (with_completePaths t r) h) = map_get key t.
Proof.
  unfold route, completePaths_of. by rewrite routers_put_router, lookup_insert_eq.
Qed.

Lemma set_completePath_routes_to (x child : nat) e h h' :
  set_completePath x e h = Some h' → cp_router e.2 = child → routes_to x child h'.
Proof.
  intros (r & Hr & ->)%set_completePath_inv Hc. exists e.1, e.2.
  rewrite route_put_table. split; [apply map_get_set_eq|done].
Qed.

Lemma set_completePath_keeps_routes_to (x child : nat) e h h' :
  set_completePath x e h = Some h' → cp_router e.2 = child →
  ∀ key e0, route x key h = Some e0 → cp_router e0 = child →
            ∃ e1, route x key h' = Some e1 ∧ cp_router e1 = child.
Proof.
  intros (r & Hr & ->)%set_completePath_inv Hc key e0 He0 Hc0.
  rewrite route_put_table. destruct (decide (e.1 = key)) as [<-|Hne].
  - exists e.2. split; [apply map_get_set_eq|done].
  - exists e0. rewrite map_get_set_ne by done. split; [|done].
    unfold route, completePaths_of in He0. by rewrite Hr in He0.
Qed.

Lemma lifted_entry_router r c (child : nat) e :
  cp_router (lifted_entry (Mw:=Mw) r c child e).2 = child.
Proof. by destruct e. Qed.

Lemma lift_entries_keeps_routes_to (x child : nat) es : ∀ h h' key e0,
  lift_entries x child es h = Some h' →
  route x key h = Some e0 → cp_router e0 = child →
  ∃ e1, route x key h' = Some e1 ∧ cp_router e1 = child.
Proof.
  induction es as [|e es IH]; intros h h' key e0 Hrun He0 Hc0; simpl in Hrun.
  - injection Hrun as <-. eauto.
  - destruct (routers h !! x) as [r|]; [|done]. simpl in Hrun.
    destruct (routers h !! child) as [c|]; [|done]. simpl in Hrun.
    destruct (set_completePath x _ h) as [h1|] eqn:Hset; [|done]. simpl in Hrun.
    destruct (set_completePath_keeps_routes_to _ child _ _ _ Hset
                (lifted_entry_router r c child e) key e0 He0 Hc0) as (e1 & He1 & Hc1).
    eauto.
Qed.

Lemma has_handlers_exists (child : nat) h :
  has_handlers child h →
  ∃ c ref, routers h !! child = Some c ∧
           existsHandlersOnChild c h = Some (Some ref).
Proof.
  intros (o & Ho & Hne). unfold handlers_of in Ho.
  destruct (routers h !! child) as [c|]; [|done]. simpl in Ho.
  exists c. unfold existsHandlersOnChild.
  destruct (r_handlers c) as [ref|]; [|done]. simpl in Ho. rewrite Ho. simpl.
  exists ref. split; [done|]. by destruct o.
Qed.

Lemma has_handlers_put_table (child x : nat) r t h :
  routers h !! x = Some r → has_handlers child h →
  has_handlers child (put_router x (with_completePaths t r) h).
Proof.
  intros Hr (o & Ho & Hne). exists o. split; [|done].
  unfold handlers_of in *. rewrite routers_put_router.
  destruct (decide (x = child)) as [->|Hx].
  - rewrite lookup_insert_eq. by rewrite Hr in Ho.
  - by rewrite lookup_insert_ne.
Qed.

(** One turn of the loop, for a child that has handlers, leaves in the
    table of [router] an entry made for the child. *)
Lemma append_step_routes_to (x child : nat) h next h' :
  append_step x child h = Some (next, h') → has_handlers child h →
  routes_to x child h'.
Proof.
  intros Hrun (c & ref & Hc & Hex)%has_handlers_exists. unfold append_step in Hrun.
  destruct (routers h !! x) as [r|] eqn:Hr; [|done]. simpl in Hrun.
  rewrite Hc in Hrun. simpl in Hrun. rewrite Hex in Hrun. simpl in Hrun.
  destruct (set_completePath x _ h) as [h1|] eqn:Hset; [|done]. simpl in Hrun.
  apply set_completePath_routes_to with (child := child) in Hset as (key & e0 & He0 & Hc0);
    [|done].
  assert (∃ h2, (if (0 <? map_size (r_completePaths c))%nat
                 then c1 ← routers h1 !! child;
                      lift_entries x child (r_completePaths c1) h1
                 else Some h1) = Some h2 ∧
                ∃ e1, route x key h2 = Some e1 ∧ cp_router e1 = child)
    as (h2 & Hh2 & e1 & He1 & Hc1).
  { destruct (0 <? map_size (r_completePaths c))%nat.
    - destruct (routers h1 !! child) as [c1|]; [|done]. simpl in *.
      destruct (lift_entries x child (r_completePaths c1) h1) as [h2|] eqn:Hl; [|done].
      exists h2. split; [done|]. by eapply lift_entries_keeps_routes_to.
    - exists h1. eauto. }
  rewrite Hh2 in Hrun. simpl in Hrun.
  destruct (routers h2 !! x); [|done]. simpl in Hrun. injection Hrun as _ <-.
  by exists key, e1.
Qed.

Lemma appendChildToParentRouter_routes_to (child : nat) fuel : ∀ x h h',
  appendChildToParentRouter fuel (Some x) child h = Some h' →
  has_handlers child h →
  ∀ a, ancestor_or_self h x a → routes_to a child h'.
Proof.
  induction fuel as [|fuel IH]; intros x h h' Hrun Hh a Ha; [done|]. simpl in Hrun.
  destruct (append_step x child h) as [[next h1]|] eqn:Hstep; [|done]. simpl in Hrun.
  pose proof (append_step_routes_to _ _ _ _ _ Hstep Hh) as Hx.
  apply append_step_inv in Hstep as (r & t & Hr & -> & ->).
  set (h1 := put_router x (with_completePaths t r) h) in *.
  assert (∀ id, parent_of h1 id = parent_of h id) as Hsame.
  { intros id. eapply tables_changed_parent_of, (tables_changed_put (λ _, True)); done. }
  assert (has_handlers child h1) as Hh1 by by apply has_handlers_put_table.
  assert (routes_to x child h') as Hx'.
  { destruct (r_parentRouter r) as [p|] eqn:Hp.
    - pose proof (appendChildToParentRouter_frame _ _ _ _ _ Hrun) as [_ Hfr].
      destruct (Hfr x) as [E|[Habove _]].
      + destruct Hx as (key & e & He & Hc). exists key, e. split; [|done].
        unfold route, completePaths_of in *. by rewrite E.
      + rewrite (appendChildToParentRouter_cycle child x p fuel p h1) in Hrun; try done.
        rewrite Hsame. unfold parent_of. by rewrite Hr.
    - destruct fuel; simpl in Hrun; by injection Hrun as <-. }
  inversion Ha as [|x' p a' Hp Hpa]; subst; [done|].
  unfold parent_of in Hp. rewrite Hr in Hp. simpl in Hp. rewrite Hp in Hrun.
  eapply IH; [done|done|]. by apply (aos_ext h h1).
Qed.

(** Attaching a child that has handlers leaves, in the table of the
    attaching router and of each of its ancestors, an entry made for the
    child. *)
Lemma attach_child_routes_to fuel isNested this (child : nat) h h' :
  attach_child fuel isNested this child h = Some h' →
  has_handlers child h →
  ∀ a, ancestor_or_self h this a → routes_to a child h'.
Proof.
  intros Hrun Hh a Ha.
  pose proof (attach_child_frame _ _ _ _ _ _ Hrun) as (Hnot & rc & Hrc & _).
  unfold attach_child in Hrun. rewrite Hrc in Hrun. simpl in Hrun.
  set (h0 := put_router child (with_parent isNested this rc) h) in *.
  eapply appendChildToParentRouter_routes_to; [done| |].
  - destruct Hh as (o & Ho & Hne). exists o. split; [|done].
    unfold handlers_of, h0 in *. rewrite routers_put_router, lookup_insert_eq.
    by rewrite Hrc in Ho.
  - apply (aos_except h h0 child); [|done|done].
    intros id Hid. unfold parent_of, h0.
    by rewrite routers_put_router, lookup_insert_ne.
Qed.

(** *** [middlewares] and the order of declarations *)

Section Middlewares.
Context (ms : list Mw) (this : nat).

Abbreviation f := (apply_middlewares ms this).

Lemma middlewares_Some h r :
  routers h !! this = Some r → middlewares ms this h = Some (f h).
Proof. intros Hr. unfold apply_middlewares, middlewares. by rewrite Hr. Qed.

Lemma apply_middlewares_Some h r :
  routers h !! this = Some r → f h = put_router this (add_middlewares ms r) h.
Proof. intros Hr. unfold apply_middlewares, middlewares. by rewrite Hr. Qed.

Lemma apply_middlewares_None h : routers h !! this = None → f h = h.
Proof. intros Hr. unfold apply_middlewares, middlewares. by rewrite Hr. Qed.

Lemma routers_apply_middlewares h id :
  routers (f h) !! id
  = (if decide (id = this) then add_middlewares ms else λ r, r) <$> routers h !! id.
Proof.
  destruct (routers h !! this) as [r|] eqn:Hr.
  - rewrite (apply_middlewares_Some h r Hr), routers_put_router.
    destruct (decide (id = this)) as [->|Hne].
    + by rewrite lookup_insert_eq, Hr.
    + rewrite lookup_insert_ne by done. by destruct (routers h !! id).
  - rewrite apply_middlewares_None by done.
    destruct (decide (id = this)) as [->|Hne]; [by rewrite Hr|].
    by destruct (routers h !! id).
Qed.

Lemma handler_objs_apply_middlewares h : handler_objs (f h) = handler_objs h.
Proof.
  destruct (routers h !! this) as [r|] eqn:Hr.
  - by rewrite (apply_middlewares_Some h r Hr).
  - by rewrite apply_middlewares_None.
Qed.

Lemma apply_middlewares_put_other id r h :
  id ≠ this → f (put_router id r h) = put_router id r (f h).
Proof.
  intros Hne. destruct (routers h !! this) as [r0|] eqn:Hr.
  - rewrite (apply_middlewares_Some h r0 Hr).
    rewrite (apply_middlewares_Some (put_router id r h) r0)
      by (by rewrite routers_put_router, lookup_insert_ne).
    apply heap_eq; simpl; [|done]. by apply insert_insert_ne.
  - rewrite (apply_middlewares_None h Hr), apply_middlewares_None; [done|].
    by rewrite routers_put_router, lookup_insert_ne.
Qed.

Lemma apply_middlewares_put_this r h :
  f (put_router this r h) = put_router this (add_middlewares ms r) h.
Proof.
  rewrite (apply_middlewares_Some _ r) by (by rewrite routers_put_router, lookup_insert_eq).
  apply put_router_put_router.
Qed.

Lemma put_this_apply_middlewares r h :
  put_router this r (f h) = put_router this r h.
Proof.
  destruct (routers h !! this) as [r0|] eqn:Hr.
  - rewrite (apply_middlewares_Some h r0 Hr). apply put_router_put_router.
  - by rewrite apply_middlewares_None.
Qed.

Lemma no_middlewares_yet_put_table id r t h :
  routers h !! id = Some r → no_middlewares_yet this h →
  no_middlewares_yet this (put_router id (with_completePaths t r) h).
Proof.
  intros Hr Hno r'. rewrite routers_put_router.
  destruct (decide (id = this)) as [->|Hne].
  - rewrite lookup_insert_eq. intros [= <-]. simpl. by apply Hno.
  - rewrite lookup_insert_ne by done. apply Hno.
Qed.

Lemma set_completePath_other (x : nat) e h :
  x ≠ this → set_completePath x e (f h) = f <$> set_completePath x e h.
Proof.
  intros Hne. unfold set_completePath. rewrite routers_apply_middlewares.
  rewrite decide_False by done. destruct (routers h !! x) as [r|]; simpl; [|done].
  by rewrite apply_middlewares_put_other.
Qed.

Lemma set_completePath_this e h :
  set_completePath this (prod_map id (with_more_middlewares ms) e) (f h)
  = f <$> set_completePath this e h.
Proof.
  unfold set_completePath. rewrite routers_apply_middlewares.
  rewrite decide_True by done. destruct (routers h !! this) as [r|]; simpl; [|done].
  rewrite put_this_apply_middlewares, apply_middlewares_put_this. do 2 f_equal.
  unfold add_middlewares, with_middlewares, with_completePaths. simpl.
  f_equal. destruct e as [k v]. simpl. apply map_set_fmap.
Qed.

Lemma own_entry_add_middlewares r c child hs :
  r_middlewares r = [] →
  own_entry (add_middlewares ms r) c child hs
  = prod_map id (with_more_middlewares ms) (own_entry r c child hs).
Proof.
  intros Hr. unfold own_entry, prod_map, with_more_middlewares. simpl.
  by rewrite Hr.
Qed.

Lemma lifted_entry_add_middlewares r c child e :
  r_middlewares r = [] →
  lifted_entry (add_middlewares ms r) c child e
  = prod_map id (with_more_middlewares ms) (lifted_entry r c child e).
Proof.
  intros Hr. destruct e as [k v].
  unfold lifted_entry, prod_map, with_more_middlewares. simpl. by rewrite Hr.
Qed.

Lemma lift_entries_apply_middlewares (x child : nat) es : ∀ h,
  child ≠ this → no_middlewares_yet this h →
  lift_entries x child es (f h) = f <$> lift_entries x child es h.
Proof.
  induction es as [|e es IH]; intros h Hc Hno; simpl; [done|].
  rewrite !routers_apply_middlewares. rewrite (decide_False (P:=child = this)) by done.
  destruct (routers h !! x) as [r|] eqn:Hr; simpl; [|done].
  destruct (routers h !! child) as [c|] eqn:Hcr; simpl; [|done].
  destruct (decide (x = this)) as [->|Hx].
  - rewrite lifted_entry_add_middlewares by (by apply Hno).
    rewrite set_completePath_this.
    destruct (set_completePath this _ h) as [h1|] eqn:Hset; simpl; [|done].
    apply IH; [done|].
    apply set_completePath_inv in Hset as (r' & Hr' & ->).
    by apply no_middlewares_yet_put_table.
  - rewrite set_completePath_other by done.
    destruct (set_completePath x _ h) as [h1|] eqn:Hset; simpl; [|done].
    apply IH; [done|].
    apply set_completePath_inv in Hset as (r' & Hr' & ->).
    by apply no_middlewares_yet_put_table.
Qed.

Lemma append_step_apply_middlewares (x child : nat) h :
  child ≠ this → no_middlewares_yet this h →
  append_step x child (f h) = prod_map id f <$> append_step x child h.
Proof.
  intros Hc Hno. unfold append_step.
  rewrite !routers_apply_middlewares. rewrite (decide_False (P:=child = this)) by done.
  destruct (routers h !! x) as [r|] eqn:Hr; simpl; [|done].
  destruct (routers h !! child) as [c|] eqn:Hcr; simpl; [|done].
  assert (existsHandlersOnChild c (f h) = existsHandlersOnChild c h) as ->.
  { unfold existsHandlersOnChild. by rewrite handler_objs_apply_middlewares. }
  destruct (existsHandlersOnChild c h) as [hs|]; simpl; [|done].
  (* the entry of the child itself *)
  set (step1 := λ (rr : Router Mw) (hh : Heap Mw H),
         match hs with
         | Some hs => set_completePath x (own_entry rr c child hs) hh
         | None => Some hh
         end).
  assert (step1 ((if decide (x = this) then add_middlewares ms else λ r, r) r) (f h)
          = f <$> step1 r h) as Hs1.
  { unfold step1. destruct hs as [hs|]; [|done].
    destruct (decide (x = this)) as [->|Hx].
    - rewrite own_entry_add_middlewares by (by apply Hno). apply set_completePath_this.
    - by apply set_completePath_other. }
  fold (step1 r h).
  change (match hs with
          | Some hs0 => set_completePath x (own_entry ?rr c child hs0) (f h)
          | None => Some (f h)
          end) with (step1 rr (f h)).
  rewrite Hs1.
  assert (∀ h1, step1 r h = Some h1 → no_middlewares_yet this h1) as Hno1.
  { unfold step1. intros h1. destruct hs as [hs|].
    - intros (r' & Hr' & ->)%set_completePath_inv. by apply no_middlewares_yet_put_table.
    - by intros [= <-]. }
  destruct (step1 r h) as [h1|]; simpl; [|done].
  specialize (Hno1 h1 eq_refl).
  (* the entries of the child's table *)
  rewrite routers_apply_middlewares. rewrite (decide_False (P:=child = this)) by done.
  set (step2 := λ hh : Heap Mw H,
         if (0 <? map_size (r_completePaths c))%nat
         then c1 ← routers hh !! child; lift_entries x child (r_completePaths c1) hh
         else Some hh).
  assert ((if (0 <? map_size (r_completePaths c))%nat
           then c1 ← (λ r, r) <$> routers h1 !! child;
                lift_entries x child (r_completePaths c1) (f h1)
           else Some (f h1)) = f <$> step2 h1) as ->.
  { unfold step2. destruct (0 <? map_size (r_completePaths c))%nat; [|done].
    destruct (routers h1 !! child) as [c1|]; simpl; [|done].
    by apply lift_entries_apply_middlewares. }
  fold (step2 h1).
  destruct (step2 h1) as [h2|]; simpl; [|done].
  rewrite routers_apply_middlewares.
  destruct (routers h2 !! x) as [r2|]; simpl; [|done].
  by destruct (decide (x = this)).
Qed.

Lemma append_step_no_middlewares_yet (x child : nat) h next h' :
  append_step x child h = Some (next, h') →
  no_middlewares_yet this h → no_middlewares_yet this h'.
Proof.
  intros (r & t & Hr & _ & ->)%append_step_inv. by apply no_middlewares_yet_put_table.
Qed.

Lemma appendChildToParentRouter_apply_middlewares (child : nat) fuel : ∀ router h,
  child ≠ this → no_middlewares_yet this h →
  appendChildToParentRouter fuel router child (f h)
  = f <$> appendChildToParentRouter fuel router child h.
Proof.
  induction fuel as [|fuel IH]; intros [x|] h Hc Hno; simpl; try done.
  rewrite append_step_apply_middlewares by done.
  destruct (append_step x child h) as [[next h1]|] eqn:Hstep; simpl; [|done].
  apply IH; [done|]. by eapply append_step_no_middlewares_yet.
Qed.

Lemma appendChildToParentRouter_no_middlewares_yet (child : nat) fuel : ∀ router h h',
  appendChildToParentRouter fuel router child h = Some h' →
  no_middlewares_yet this h → no_middlewares_yet this h'.
Proof.
  induction fuel as [|fuel IH]; intros [x|] h h' Hrun Hno; simpl in Hrun;
    try done; try (by injection Hrun as <-).
  destruct (append_step x child h) as [[next h1]|] eqn:Hstep; [|done]. simpl in Hrun.
  eapply IH; [done|]. by eapply append_step_no_middlewares_yet.
Qed.

(** A router attached to itself: the loop never leaves it. *)
Lemma attach_child_self fuel isNested h :
  attach_child fuel isNested this this h = None.
Proof.
  unfold attach_child. destruct (routers h !! this) as [r|] eqn:Hr; [|done]. simpl.
  apply (appendChildToParentRouter_cycle this this this).
  - constructor.
  - unfold parent_of. by rewrite routers_put_router, lookup_insert_eq.
  - constructor.
Qed.

Lemma attach_child_apply_middlewares fuel isNested (child : nat) h :
  no_middlewares_yet this h →
  attach_child fuel isNested this child (f h)
  = f <$> attach_child fuel isNested this child h.
Proof.
  intros Hno. destruct (decide (child = this)) as [->|Hc].
  { by rewrite !attach_child_self. }
  unfold attach_child. rewrite routers_apply_middlewares, decide_False by done.
  destruct (routers h !! child) as [c|] eqn:Hcr; simpl; [|done].
  rewrite <- apply_middlewares_put_other by done.
  apply appendChildToParentRouter_apply_middlewares; [done|].
  intros r. rewrite routers_put_router, lookup_insert_ne by done. apply Hno.
Qed.

Lemma attach_child_no_middlewares_yet fuel isNested (child : nat) h h' :
  attach_child fuel isNested this child h = Some h' →
  no_middlewares_yet this h → no_middlewares_yet this h'.
Proof.
  intros Hrun Hno. destruct (decide (child = this)) as [->|Hc].
  { by rewrite attach_child_self in Hrun. }
  unfold attach_child in Hrun.
  destruct (routers h !! child) as [c|] eqn:Hcr; [|done]. simpl in Hrun.
  eapply appendChildToParentRouter_no_middlewares_yet; [done|].
  intros r. rewrite routers_put_router, lookup_insert_ne by done. apply Hno.
Qed.

Lemma attach_children_apply_middlewares fuel isNested children : ∀ h,
  no_middlewares_yet this h →
  attach_children fuel isNested this children (f h)
  = f <$> attach_children fuel isNested this children h.
Proof.
  induction children as [|child cs IH]; intros h Hno; simpl; [done|].
  rewrite attach_child_apply_middlewares by done.
  destruct (attach_child fuel isNested this child h) as [h1|] eqn:Hone; simpl; [|done].
  apply IH. by eapply attach_child_no_middlewares_yet.
Qed.

Lemma nested_apply_middlewares fuel isNested children h :
  no_middlewares_yet this h →
  nested fuel isNested children this (f h) = f <$> nested fuel isNested children this h.
Proof.
  intros Hno. unfold nested. rewrite routers_apply_middlewares, decide_True by done.
  destruct (routers h !! this) as [r0|] eqn:Hr0; simpl; [|done].
  rewrite attach_children_apply_middlewares by done.
  destruct (attach_children fuel isNested this children h) as [h1|]; simpl; [|done].
  rewrite routers_apply_middlewares, decide_True by done.
  destruct (routers h1 !! this) as [r1|] eqn:Hr1; simpl; [|done].
  by rewrite put_this_apply_middlewares, apply_middlewares_put_this.
Qed.

(** A handler method and [middlewares] on the same router, in either
    order, leave the same store. *)
Lemma replace_handlers_apply_middlewares prune key handler h :
  replace_handlers prune key handler this (f h)
  = f <$> replace_handlers prune key handler this h.
Proof.
  unfold replace_handlers. rewrite routers_apply_middlewares, decide_True by done.
  destruct (routers h !! this) as [r|] eqn:Hr; simpl; [|done].
  rewrite handler_objs_apply_middlewares.
  destruct (r_handlers r) as [ref0|]; simpl.
  - destruct (handler_objs h !! ref0) as [o0|]; simpl; [|done].
    rewrite handler_objs_apply_middlewares. rewrite apply_middlewares_put_this.
    f_equal. rewrite (apply_middlewares_Some h r Hr).
    apply heap_eq; simpl; [|done]. by rewrite insert_insert_eq.
  - rewrite handler_objs_apply_middlewares. rewrite apply_middlewares_put_this.
    f_equal. rewrite (apply_middlewares_Some h r Hr).
    apply heap_eq; simpl; [|done]. by rewrite insert_insert_eq.
Qed.

End Middlewares.


End Facts.

(** *** Explicit trees *)



Lemma nested_frame_witness :
  nested 20 false [1] 0 parent_and_child_heap = Some attached_heap ∧
  handler_objs attached_heap = handler_objs parent_and_child_heap ∧
  ∀ id, attached_frame false [1] 0 parent_and_child_heap attached_heap id.
Proof.
  assert (nested 20 false [1] 0 parent_and_child_heap = Some attached_heap) as E
    by (vm_compute; reflexivity).
  split; [exact E|]. exact (nested_frame 20 false [1] 0 _ _ E).
Defined.


Lemma handler_set_state_machine_witness :
  (h ← get "h1" 0 parent_and_child_heap; h ← all "h2" 0 h; handlers_of 0 h)
  = Some [("all", "h2")] ∧
  (h ← all "h2" 0 parent_and_child_heap; h ← get "h1" 0 h; handlers_of 0 h)
  = Some [("get", "h1")].
Proof.
  eapply (proj2 (proj2 (proj2 (handler_set_state_machine (Mw:=string) (H:=string))))
            "h1" "h2" 0 parent_and_child_heap).
  - vm_compute. reflexivity.
  - reflexivity.
Defined.

Lemma handler_methods_keep_route_entries_witness :
  route_entries_kept 1 attached_heap
    (default empty_heap (define_method "post" "h2" 1 attached_heap)).
Proof.
  apply (proj1 (handler_methods_keep_route_entries (Mw:=string) (H:=string))
           "post" "h2" 1 attached_heap).
  vm_compute. reflexivity.
Defined.

(** C8: the code does otherwise.  With [C = pathNested()('/a').get(h1)]
    attached to [R], the entry of [R] for ["/a"] holds the object that was
    in [__handlers] of [C] when [nested] ran, and a handler method of [C]
    writes no route table: it deletes from that object where it stands
    and gives [C] a new object.  After [C.all(h2)] the entry has no
    handler at all while [C] has [{all: h2}]; after [C.post(h2)] it still
    has [{get: h1}] while [C] has [{get: h1, post: h2}]; after
    [C.get(h2)] it still has [{get: h1}] while [C] has [{get: h2}]. *)
Lemma handler_defined_after_nested_is_not_routed :
  (∃ R C s,
     all_after_nested (Mw:=string) 20 "h1" "h2" = Some (R, C, s) ∧
     routed_handlers R "/a" s = Some [] ∧
     handlers_of C s = Some [("all", "h2")]) ∧
  (∃ R C s,
     post_after_nested (Mw:=string) 20 "h1" "h2" = Some (R, C, s) ∧
     routed_handlers R "/a" s = Some [("get", "h1")] ∧
     handlers_of C s = Some [("get", "h1"); ("post", "h2")]) ∧
  (∃ R C s,
     get_after_nested (Mw:=string) 20 "h1" "h2" = Some (R, C, s) ∧
     routed_handlers R "/a" s = Some [("get", "h1")] ∧
     handlers_of C s = Some [("get", "h2")]).
Proof.
  repeat split; do 3 eexists; (split; [vm_compute; reflexivity|]); repeat split.
Qed.

End RoutersFacts.

(** ** Request handling *)
Module RoutesFacts.
Import Js JsFacts Routes.

(** *** Path parameters *)

Lemma parse_one_other raw params p k :
  paramName p ≠ k → obj_get k (parse_one raw params p) = obj_get k params.
Proof.
  intros Hne. unfold parse_one.
  destruct (raw !! paramName p) as [v|]; [|done].
  destruct (String.eqb v ""); [done|].
  destruct (paramType p) as [| |test]; [| |destruct (test v)];
    try done; by apply obj_get_set_ne.
Qed.

Lemma foldl_parse_one_other raw ps params k :
  Forall (λ p, paramName p ≠ k) ps →
  obj_get k (foldl (parse_one raw) params ps) = obj_get k params.
Proof.
  intros Hps. revert params. induction Hps as [|p ps Hp _ IH]; intros params; [done|].
  simpl. rewrite IH. by apply parse_one_other.
Qed.




(** *** The middleware chain *)

Lemma instantiate_fresh c w : instances w !! (instantiate c w).1 = None.
Proof. apply not_elem_of_dom, is_fresh. Qed.

Lemma linked_ext ids w w' :
  (∀ i, i ∈ ids → inst_next <$> instances w' !! i = inst_next <$> instances w !! i) →
  linked ids w → linked ids w'.
Proof.
  induction ids as [|i ids IH]; simpl; [done|]. intros Hext [Hi Hl]. split.
  - rewrite Hext; [done|]. apply elem_of_cons. by left.
  - apply IH; [|done]. intros j Hj. apply Hext. apply elem_of_cons. by right.
Qed.

(** What the loop of [#getHandlerWithMiddlewaresAttached] leaves: one new
    instance per class, in order, linked, [previous] given the first. *)
Lemma attach_rest_spec middlewares : ∀ previous w,
  is_Some (instances w !! previous) →
  ∃ ids,
    created (attach_rest previous middlewares w) = created w ++ ids ∧
    Forall2 (λ i c, inst_class <$> instances (attach_rest previous middlewares w) !! i
                    = Some c) ids middlewares ∧
    Forall (λ i, instances w !! i = None) ids ∧
    NoDup ids ∧
    linked (previous :: ids) (attach_rest previous middlewares w) ∧
    inst_class <$> instances (attach_rest previous middlewares w) !! previous
      = inst_class <$> instances w !! previous ∧
    (∀ i, i ≠ previous → i ∉ ids →
          instances (attach_rest previous middlewares w) !! i = instances w !! i) ∧
    ran (attach_rest previous middlewares w) = ran w ∧
    logged (attach_rest previous middlewares w) = logged w ∧
    clock (attach_rest previous middlewares w) = clock w ∧
    reads (attach_rest previous middlewares w) = reads w.
Proof.
  induction middlewares as [|c cs IH]; intros previous w [x Hx].
  - exists []. simpl. rewrite app_nil_r, lookup_alter_eq, Hx. simpl.
    repeat split; try done; try constructor.
    intros i Hi _. by rewrite lookup_alter_ne.
  - simpl. set (next := fresh (dom (instances w))).
    assert (instances w !! next = None) as Hnext by apply not_elem_of_dom, is_fresh.
    assert (previous ≠ next) as Hpn by (intros Heq; rewrite Heq in Hx; congruence).
    set (w2 := init previous (RunOf next) _).
    assert (instances w2 !! next = Some (mkInstance c None 0)) as Hn2.
    { subst w2. simpl. rewrite lookup_alter_ne by done. by rewrite lookup_insert_eq. }
    assert (∀ i, i ≠ previous → i ≠ next → instances w2 !! i = instances w !! i) as Hw2.
    { intros i H1 H2. subst w2. simpl.
      rewrite lookup_alter_ne by done. by rewrite lookup_insert_ne. }
    assert (instances w2 !! previous
            = Some (mkInstance (inst_class x) (Some (RunOf next)) (inst_runs x))) as Hp2.
    { subst w2. simpl. rewrite lookup_alter_eq, lookup_insert_ne by done.
      by rewrite Hx. }
    destruct (IH next w2 ltac:(eauto)) as
      (ids & Hcr & Hcl & Hfr & Hnd & Hlk & Hcn & Hun & Hran & Hlog & Hclk & Hrd).
    assert (next ∉ ids) as Hni.
    { intros Hin. rewrite Forall_forall in Hfr. specialize (Hfr _ Hin). congruence. }
    assert (previous ∉ ids) as Hpi.
    { intros Hin. rewrite Forall_forall in Hfr. specialize (Hfr _ Hin). congruence. }
    exists (next :: ids). repeat split; try done.
    + rewrite Hcr. subst w2. simpl. by rewrite <- app_assoc.
    + constructor; [|done]. rewrite Hcn, Hn2. done.
    + constructor; [done|]. eapply Forall_impl; [exact Hfr|]. intros i Hi.
      cbv beta in Hi.
      destruct (decide (i = previous)) as [->|H1]; [congruence|].
      destruct (decide (i = next)) as [->|H2]; [congruence|].
      by rewrite <- Hw2.
    + by constructor.
    + rewrite Hun, Hp2 by done. done.
    + apply Hlk.
    + apply Hlk.
    + rewrite Hun, Hp2, Hx by done. done.
    + intros i H1 H2. apply not_elem_of_cons in H2 as [H2 H3].
      rewrite Hun by done. by apply Hw2.
Qed.

(** The instances made by one run of [#getHandlerWithMiddlewaresAttached]:
    one per class of the list, none of which existed before. *)
Lemma getHandlerWithMiddlewaresAttached_spec middlewares w :
  ∃ ids,
    (getHandlerWithMiddlewaresAttached middlewares w).1 = stage_of ids ∧
    created (getHandlerWithMiddlewaresAttached middlewares w).2 = created w ++ ids ∧
    Forall2 (λ i c,
               inst_class <$> instances (getHandlerWithMiddlewaresAttached middlewares w).2 !! i
               = Some c) ids middlewares ∧
    Forall (λ i, instances w !! i = None) ids ∧
    NoDup ids ∧
    linked ids (getHandlerWithMiddlewaresAttached middlewares w).2 ∧
    ran (getHandlerWithMiddlewaresAttached middlewares w).2 = ran w ∧
    logged (getHandlerWithMiddlewaresAttached middlewares w).2 = logged w ∧
    clock (getHandlerWithMiddlewaresAttached middlewares w).2 = clock w ∧
    reads (getHandlerWithMiddlewaresAttached middlewares w).2 = reads w.
Proof.
  destruct middlewares as [|c cs].
  - exists []. simpl. rewrite app_nil_r. repeat split; constructor.
  - simpl. set (first := fresh (dom (instances w))).
    assert (instances w !! first = None) as Hfirst by apply not_elem_of_dom, is_fresh.
    set (w1 := mkWorld _ _ _ _ _ _).
    assert (instances w1 !! first = Some (mkInstance c None 0)) as H1.
    { subst w1. simpl. by rewrite lookup_insert_eq. }
    destruct (attach_rest_spec cs first w1 ltac:(eauto)) as
      (ids & Hcr & Hcl & Hfr & Hnd & Hlk & Hcn & Hun & Hran & Hlog & Hclk & Hrd).
    assert (first ∉ ids) as Hni.
    { intros Hin. rewrite Forall_forall in Hfr. specialize (Hfr _ Hin). congruence. }
    exists (first :: ids). repeat split; try done.
    + rewrite Hcr. subst w1. simpl. by rewrite <- app_assoc.
    + constructor; [|done]. by rewrite Hcn, H1.
    + constructor; [done|]. eapply Forall_impl; [exact Hfr|]. intros i Hi.
      cbv beta in Hi.
      destruct (decide (i = first)) as [->|Hne]; [congruence|].
      subst w1. simpl in Hi. by rewrite lookup_insert_ne in Hi.
    + by constructor.
    + apply Hlk.
    + apply Hlk.
Qed.

(** Calling the first stage of a linked list of instances returns, runs a
    prefix of the list in order, and makes, logs and reads nothing. *)
Lemma call_stage_spec handler ids : ∀ fuel request w,
  linked ids w → (length ids ≤ fuel)%nat →
  ∃ v w' rs,
    call_stage fuel handler (stage_of ids) request w = Some (v, w') ∧
    ran w' = ran w ++ rs ∧ rs `prefix_of` ids ∧
    created w' = created w ∧ logged w' = logged w ∧
    clock w' = clock w ∧ reads w' = reads w ∧
    (∀ i, inst_class <$> instances w' !! i = inst_class <$> instances w !! i).
Proof.
  induction ids as [|i ids IH]; intros fuel request w Hl Hfuel.
  - exists (handler request), w, []. destruct fuel; simpl; rewrite app_nil_r; done.
  - destruct fuel as [|fuel]; [simpl in Hfuel; lia|]. simpl in Hl, Hfuel.
    destruct Hl as [Hi Hl].
    destruct (instances w !! i) as [x|] eqn:Hx; [|done].
    simpl in Hi. injection Hi as Hnext. simpl. rewrite Hx. simpl.
    set (w1 := mkWorld _ _ _ _ _ _).
    assert (∀ j, inst_next <$> instances w1 !! j = inst_next <$> instances w !! j) as Hn1.
    { intros j. subst w1. simpl. destruct (decide (i = j)) as [<-|Hne].
      - by rewrite lookup_insert_eq, Hx.
      - by rewrite lookup_insert_ne. }
    assert (∀ j, inst_class <$> instances w1 !! j = inst_class <$> instances w !! j) as Hc1.
    { intros j. subst w1. simpl. destruct (decide (i = j)) as [<-|Hne].
      - by rewrite lookup_insert_eq, Hx.
      - by rewrite lookup_insert_ne. }
    destruct (mw_request (inst_class x) request) as [request'|response].
    + rewrite Hnext. simpl.
      destruct (IH fuel request' w1) as (v & w' & rs & -> & Hran & Hpre & H1 & H2 & H3 & H4 & H5).
      { eapply linked_ext; [|done]. intros j _. apply Hn1. }
      { lia. }
      simpl. exists (mw_response (inst_class x) v), w', (i :: rs).
      repeat split; try done.
      * rewrite Hran. subst w1. simpl. by rewrite <- app_assoc.
      * by apply prefix_cons.
      * intros j. by rewrite H5.
    + exists response, w1, [i]. repeat split; try done.
      apply prefix_cons, prefix_nil.
Qed.

(** C2, as the code has it: making the function for a route makes no
    middleware instance; each call of that function, for one request, makes
    one instance per middleware of the list, in order, none of which
    existed before the call, and the instances it runs are among these. *)
Theorem middlewares_instantiated_per_request {Raw : Type} (translate : Raw → Request)
    (handler : Request → Value) (parser : gmap string string → list (string * ParamValue))
    (middlewares : list MiddlewareClass) (w0 : World) :
  (getHandlerForPath translate handler parser middlewares w0).2 = w0 ∧
  ∀ (fuel : nat) (req : Raw) (w : World),
    (length middlewares ≤ fuel)%nat →
    ∃ v w' ids rs,
      (getHandlerForPath translate handler parser middlewares w0).1 fuel req w
        = Some (v, w') ∧
      created w' = created w ++ ids ∧
      Forall2 (λ i c, inst_class <$> instances w' !! i = Some c) ids middlewares ∧
      Forall (λ i, instances w !! i = None) ids ∧
      NoDup ids ∧
      ran w' = ran w ++ rs ∧
      rs `prefix_of` ids.
Proof.
  split; [done|]. intros fuel req w Hfuel. simpl. unfold handle_request.
  destruct (performance_now w) as [t0 wa] eqn:Hnow.
  assert (instances wa = instances w ∧ created wa = created w ∧ ran wa = ran w)
    as (Hia & Hca & Hra) by (by injection Hnow as _ <-).
  destruct (getHandlerWithMiddlewaresAttached_spec middlewares wa) as
    (ids & Hst & Hcr & Hcl & Hfr & Hnd & Hlk & Hran & _).
  destruct (getHandlerWithMiddlewaresAttached middlewares wa) as [k wb].
  simpl in *. subst k.
  assert (length ids = length middlewares) as Hlen by by eapply Forall2_length.
  destruct (call_stage_spec handler ids fuel
              (mkRequest (req_method (translate req)) (req_path (translate req))
                         (req_rawParams (translate req)) (Some parser)) wb Hlk)
    as (v & wc & rs & -> & Hranc & Hpre & Hcc & _ & _ & _ & Hclc); [lia|].
  simpl. destruct (performance_now wc) as [t1 wd] eqn:Hnow'.
  assert (instances wd = instances wc ∧ created wd = created wc ∧ ran wd = ran wc)
    as (Hid & Hcd & Hrd) by (by injection Hnow' as _ <-).
  eexists _, _, ids, rs. split; [done|]. simpl.
  rewrite Hcc, Hcr, Hca, Hranc, Hran, Hra.
  repeat split; try done.
  - eapply Forall2_impl; [exact Hcl|]. intros i c Hi. cbv beta in *. by rewrite Hclc.
  - by rewrite <- Hia.
Qed.

Lemma middlewares_instantiated_per_request_witness :
  ∃ v w' ids rs,
    (getHandlerForPath (λ r : Request, r) (λ _, VString "ok") (getPathParamsParser [])
                       [pass_through "M"] (new_world (λ n, Z.of_nat n))).1
      8 (mkRequest "GET" "/a" ∅ None) (new_world (λ n, Z.of_nat n))
      = Some (v, w') ∧
    created w' = created (new_world (λ n, Z.of_nat n)) ++ ids ∧
    Forall2 (λ i c, inst_class <$> instances w' !! i = Some c) ids [pass_through "M"] ∧
    Forall (λ i, instances (new_world (λ n, Z.of_nat n)) !! i = None) ids ∧
    NoDup ids ∧
    ran w' = ran (new_world (λ n, Z.of_nat n)) ++ rs ∧
    rs `prefix_of` ids.
Proof.
  apply (proj2 (middlewares_instantiated_per_request (λ r : Request, r)
                  (λ _, VString "ok") (getPathParamsParser []) [pass_through "M"]
                  (new_world (λ n, Z.of_nat n)))
           8 (mkRequest "GET" "/a" ∅ None) (new_world (λ n, Z.of_nat n))).
  simpl. lia.
Defined.

(** C2 as stated fails: with one middleware, nothing is instantiated at
    registration, and two requests make and run two instances, [0] for
    the first and [1] for the second. *)
Lemma two_requests_two_instances :
  two_requests [pass_through "M"] (λ _, VString "ok")
               (mkRequest "GET" "/a" ∅ None) (mkRequest "GET" "/a" ∅ None)
  = Some ([], [0; 1], [0; 1]).
Proof. vm_compute. reflexivity. Qed.

(** C9: what the per-request function gives back is the string ['TESTE'],
    whatever the handler resolved to; one log event is emitted, after the
    handler, with the method and path of the request and the time between
    the two clock readings. *)
Theorem handle_request_returns_TESTE {Raw : Type} (translate : Raw → Request)
    (handler : Request → Value) (parser : gmap string string → list (string * ParamValue))
    (middlewares : list MiddlewareClass) (fuel : nat) (req : Raw) (w : World) :
  (length middlewares ≤ fuel)%nat →
  ∃ w',
    handle_request translate fuel handler parser middlewares req w
      = Some (VString "TESTE", w') ∧
    logged w' = logged w ++
      [mkLogEvent (req_method (translate req)) (req_path (translate req))
                  (clock w (S (reads w)) - clock w (reads w))].
Proof.
  intros Hfuel. unfold handle_request.
  destruct (performance_now w) as [t0 wa] eqn:Hnow.
  assert (t0 = clock w (reads w) ∧ logged wa = logged w ∧ clock wa = clock w ∧
          reads wa = S (reads w)) as (-> & Hla & Hka & Hra)
    by (by injection Hnow as <- <-).
  destruct (getHandlerWithMiddlewaresAttached_spec middlewares wa) as
    (ids & Hst & _ & Hcl & _ & _ & Hlk & _ & Hlog & Hclk & Hrd).
  destruct (getHandlerWithMiddlewaresAttached middlewares wa) as [k wb].
  simpl in *. subst k.
  assert (length ids = length middlewares) as Hlen by by eapply Forall2_length.
  destruct (call_stage_spec handler ids fuel
              (mkRequest (req_method (translate req)) (req_path (translate req))
                         (req_rawParams (translate req)) (Some parser)) wb Hlk)
    as (v & wc & rs & -> & _ & _ & _ & Hlogc & Hclkc & Hrdc & _); [lia|].
  simpl. eexists. split; [done|]. simpl.
  rewrite Hlogc, Hlog, Hla, Hclkc, Hclk, Hka, Hrdc, Hrd, Hra. done.
Qed.

Lemma handle_request_returns_TESTE_witness :
  ∃ w',
    handle_request (λ r : Request, r) 0 (λ _, VResponse 200 "ok")
                   (getPathParamsParser []) [] (mkRequest "GET" "/a" ∅ None)
                   (new_world (λ n, Z.of_nat n))
      = Some (VString "TESTE", w') ∧
    logged w' = [] ++ [mkLogEvent "GET" "/a" (1 - 0)].
Proof.
  apply (handle_request_returns_TESTE (λ r : Request, r) (λ _, VResponse 200 "ok")
           (getPathParamsParser []) [] 0 (mkRequest "GET" "/a" ∅ None)
           (new_world (λ n, Z.of_nat n))).
  simpl. lia.
Defined.

End RoutesFacts.

(** ** The scanner on paths of a given shape *)
Module TemplatesFacts.
Import Js PathTemplate PathTemplateFacts Templates.
Lemma split_chars_app s t : split_chars (s +:+ t) = split_chars s ++ split_chars t.
Proof. unfold split_chars. induction s as [|a s IH]; simpl; [done|]. by rewrite IH. Qed.

Lemma string_of_list_ascii_snoc l a :
  string_of_list_ascii (l ++ [a]) = add (string_of_list_ascii l) (Some a).
Proof. unfold add. induction l as [|b l IH]; simpl; [done|]. by rewrite IH. Qed.

Lemma string_eqb_nil l : String.eqb (string_of_list_ascii l) "" = bool_decide (l = []).
Proof. by destruct l. Qed.

Lemma at_middle (pre : list ascii) a suf : at_ (pre ++ a :: suf) (length pre) = Some a.
Proof. unfold at_. by rewrite list_lookup_middle. Qed.

Lemma is_char_middle (pre : list ascii) a suf c :
  is_char (pre ++ a :: suf) (length pre) c = Ascii.eqb a c.
Proof. unfold is_char. by rewrite at_middle. Qed.

Lemma is_char_end (cs : list ascii) c : is_char cs (length cs) c = false.
Proof. unfold is_char, at_. by rewrite lookup_ge_None_2. Qed.

Lemma split_on_last c cs : ∃ pieces tail, split_on c cs = pieces ++ [tail].
Proof.
  induction cs as [|a cs (pieces & tail & IH)]; simpl.
  - by exists [], [].
  - destruct (Ascii.eqb a c).
    + exists ([] :: pieces), tail. by rewrite IH.
    + rewrite IH. destruct pieces as [|p pieces]; simpl.
      * by exists [], (a :: tail).
      * by exists ((a :: p) :: pieces), tail.
Qed.

(** Splitting after text that holds no separator. *)
Lemma split_on_app_plain c l cs :
  c ∉ l →
  split_on c (l ++ cs)
  = match split_on c cs with
    | s :: ss => (l ++ s) :: ss
    | [] => [l]
    end.
Proof.
  intros Hl. destruct (split_on_last c cs) as (ps & tl & E).
  induction l as [|a l IH]; simpl.
  - rewrite E. by destruct ps.
  - apply not_elem_of_cons in Hl as [Ha Hl].
    destruct (Ascii.eqb_spec a c) as [->|_]; [done|].
    rewrite IH by done. rewrite E. by destruct ps.
Qed.

Lemma split_on_sep c l cs :
  c ∉ l → split_on c (l ++ c :: cs) = l :: split_on c cs.
Proof.
  intros Hl. rewrite (split_on_app_plain c l (c :: cs) Hl). simpl.
  by rewrite Ascii.eqb_refl, app_nil_r.
Qed.

Lemma split_on_plain c cs : Forall (λ p, c ∉ p) (split_on c cs).
Proof.
  induction cs as [|a cs IH]; simpl.
  - repeat constructor. apply not_elem_of_nil.
  - destruct (Ascii.eqb_spec a c) as [->|Hne].
    + constructor; [apply not_elem_of_nil|done].
    + destruct (split_on c cs) as [|s ss].
      * repeat constructor. apply not_elem_of_cons.
        split; [congruence|apply not_elem_of_nil].
      * inversion_clear IH. constructor; [|done].
        apply not_elem_of_cons. split; [congruence|done].
Qed.

Lemma split_on_tail_plain c cs pieces tail :
  split_on c cs = pieces ++ [tail] → c ∉ tail.
Proof.
  intros E. pose proof (split_on_plain c cs) as H. rewrite E in H.
  apply Forall_app in H as [_ H]. by inversion_clear H.
Qed.

Lemma literal_parts_app ps qs : literal_parts (ps ++ qs) = literal_parts ps ++ literal_parts qs.
Proof. unfold literal_parts. by rewrite filter_app, fmap_app. Qed.

Lemma top_loop_literal (lit : list ascii) : ∀ pre suf fuel path t curl,
  literal_chars lit = true → t_index t = length pre →
  t_partOfPath t = string_of_list_ascii curl → "/"%char ∉ curl →
  ∃ pieces tail,
    split_on "/" (curl ++ lit) = pieces ++ [tail] ∧
    top_loop (length lit + fuel) path (pre ++ lit ++ suf) t
    = top_loop fuel path (pre ++ lit ++ suf)
        (mkTopState (t_urlParams t) (t_queryParams t) (t_parts t ++ literal_parts pieces)
           (string_of_list_ascii tail) (t_queryPath t) (length pre + length lit)).
Proof.
  induction lit as [|a lit IH]; intros pre suf fuel path t curl Hlit Hidx Hcur Hplain.
  - exists [], curl. split.
    + rewrite (split_on_app_plain _ _ _ Hplain). simpl. by rewrite app_nil_r.
    + destruct t; simpl in *. subst. by rewrite app_nil_r, Nat.add_0_r.
  - simpl in Hlit. apply andb_true_iff in Hlit as [Ha Hlit].
    apply andb_true_iff in Ha as [Hlt Hq].
    apply negb_true_iff in Hlt, Hq.
    simpl. rewrite Hidx.
    rewrite (proj2 (Nat.ltb_lt _ _)) by (rewrite length_app; simpl; lia).
    rewrite !is_char_middle, Hlt, Hq, at_middle, Hcur.
    replace (pre ++ a :: lit ++ suf) with ((pre ++ [a]) ++ lit ++ suf)
      by (by rewrite <- app_assoc).
    destruct (Ascii.eqb_spec a "/") as [->|Hne]; simpl.
    + rewrite string_eqb_nil. case_bool_decide as Hnil; simpl.
      * subst curl.
        destruct (IH (pre ++ ["/"%char]) suf fuel path
                    (mkTopState (t_urlParams t) (t_queryParams t) (t_parts t) ""
                                (t_queryPath t) (S (length pre))) [])
          as (pieces & tail & Hsp & ->);
          [done|simpl; rewrite length_app; simpl; lia|done|apply not_elem_of_nil|].
        exists ([] :: pieces), tail. simpl.
        simpl in Hsp. rewrite Hsp. split; [done|].
        rewrite length_app. simpl. do 2 f_equal. lia.
      * destruct (IH (pre ++ ["/"%char]) suf fuel path
                    (mkTopState (t_urlParams t) (t_queryParams t)
                                (t_parts t ++ [mkPathPart (Some (string_of_list_ascii curl)) false]) ""
                                (t_queryPath t) (S (length pre))) [])
          as (pieces & tail & Hsp & ->);
          [done|simpl; rewrite length_app; simpl; lia|done|apply not_elem_of_nil|].
        exists (curl :: pieces), tail. rewrite (split_on_sep _ _ _ Hplain).
        simpl in Hsp. rewrite Hsp. split; [done|].
        rewrite length_app. simpl. f_equal. f_equal; [|lia].
        unfold literal_parts. rewrite filter_cons_True by done.
        rewrite fmap_cons, <- app_assoc. done.
    + rewrite <- string_of_list_ascii_snoc.
      destruct (IH (pre ++ [a]) suf fuel path
                  (mkTopState (t_urlParams t) (t_queryParams t) (t_parts t)
                              (string_of_list_ascii (curl ++ [a]))
                              (t_queryPath t) (S (length pre))) (curl ++ [a]))
        as (pieces & tail & Hsp & ->);
        [done|simpl; rewrite length_app; simpl; lia|done| |].
      { rewrite not_elem_of_app, not_elem_of_cons. split; [done|].
        split; [congruence|apply not_elem_of_nil]. }
      exists pieces, tail. rewrite <- app_assoc in Hsp. split; [done|].
      rewrite length_app. simpl. do 2 f_equal. lia.
Qed.

Lemma length_split_chars s : length (split_chars s) = String.length s.
Proof. unfold split_chars. induction s; simpl; congruence. Qed.

Lemma remove_first_empty s : remove_first "" s = s.
Proof.
  destruct s as [|a s]; [done|]. simpl.
  f_equal. clear a. induction s as [|a s IH]; simpl; [done|]. by rewrite IH.
Qed.

Lemma literal_parts_flush pieces tail :
  (if negb (String.eqb (string_of_list_ascii tail) "")
   then literal_parts pieces ++ [mkPathPart (Some (string_of_list_ascii tail)) false]
   else literal_parts pieces)
  = literal_parts (pieces ++ [tail]).
Proof.
  rewrite literal_parts_app, string_eqb_nil. unfold literal_parts at 4.
  case_bool_decide as H; simpl.
  - subst. rewrite filter_cons_False by naive_solver. by rewrite app_nil_r.
  - by rewrite filter_cons_True.
Qed.

(** X1: a path without [<] and without [?] is literal text.  Once the fuel
    exceeds its length the scanner returns: no parameter, the path itself
    as url path, an empty query path, and as parts the pieces between the
    [/], the empty ones left out. *)
Theorem literal_path_parsed (path : string) (fuel : nat) :
  literal path = true → (String.length path < fuel)%nat →
  extractUrlAndQueryParametersFromPath fuel path
  = Some (mkParsed [] [] path "" (segments path)).
Proof.
  intros Hlit Hfuel. unfold extractUrlAndQueryParametersFromPath.
  rewrite <- length_split_chars in Hfuel.
  replace fuel with (length (split_chars path) + S (fuel - S (length (split_chars path))))%nat
    by lia.
  destruct (top_loop_literal (split_chars path) [] []
              (S (fuel - S (length (split_chars path)))) path
              (mkTopState [] [] [] "" "" 0) [])
    as (pieces & tail & Hsp & E); [done|done|done|apply not_elem_of_nil|].
  simpl in E, Hsp. rewrite app_nil_r in E. rewrite E.
  rewrite Nat.ltb_irrefl. simpl.
  rewrite literal_parts_flush, remove_first_empty. unfold segments. by rewrite Hsp.
Qed.

Lemma literal_path_parsed_witness :
  extractUrlAndQueryParametersFromPath 20 "/users//all/"
  = Some (mkParsed [] [] "/users//all/" "" (segments "/users//all/")).
Proof. apply literal_path_parsed; [reflexivity|simpl; lia]. Defined.

Lemma append_add acc a s : add acc (Some a) +:+ s = acc +:+ String a s.
Proof.
  unfold add. induction acc as [|b acc IH]; [reflexivity|].
  change (String b ((acc +:+ String a "") +:+ s) = String b (acc +:+ String a s)).
  by f_equal.
Qed.

Lemma append_empty_r s : s +:+ "" = s.
Proof.
  induction s as [|a s IH]; [reflexivity|].
  change (String a (s +:+ "") = String a s). by f_equal.
Qed.

(** A scan over characters that are neither the closing one nor a space
    collects them and stops at the closing one. *)
Lemma scan_until_run stop (w : list ascii) : ∀ pre suf acc (fuel : nat),
  Forall (λ a, Ascii.eqb a stop = false ∧ Ascii.eqb a " " = false) w →
  (length w < fuel)%nat →
  scan_until stop fuel (pre ++ w ++ stop :: suf) (length pre) acc
  = Some ((length pre + length w)%nat, acc +:+ string_of_list_ascii w).
Proof.
  induction w as [|a w IH]; intros pre suf acc fuel Hw Hfuel.
  - destruct fuel as [|fuel]; [simpl in Hfuel; lia|]. simpl.
    rewrite is_char_middle, Ascii.eqb_refl, Nat.add_0_r, append_empty_r. done.
  - destruct fuel as [|fuel]; [simpl in Hfuel; lia|].
    inversion_clear Hw as [|?? [Hs Hsp] Hw']. simpl.
    rewrite is_char_middle, Hs. unfold ignoreSpaces.
    rewrite is_char_middle, Hsp, at_middle.
    replace (pre ++ a :: w ++ stop :: suf) with ((pre ++ [a]) ++ w ++ stop :: suf)
      by (by rewrite <- app_assoc).
    replace (S (length pre)) with (length (pre ++ [a]))
      by (rewrite length_app; simpl; lia).
    rewrite IH by (done || simpl in Hfuel; lia).
    rewrite length_app, append_add. simpl. do 2 f_equal. lia.
Qed.

Lemma is_word_neq a c : is_word a = true → is_word c = false → Ascii.eqb a c = false.
Proof. intros Ha Hc. destruct (Ascii.eqb_spec a c) as [->|]; congruence. Qed.

Lemma word_chars_plain w (stop : ascii) :
  forallb is_word w = true → is_word stop = false →
  Forall (λ a, Ascii.eqb a stop = false ∧ Ascii.eqb a " " = false) w.
Proof.
  intros Hw Hstop. apply Forall_forall. intros a Ha.
  rewrite forallb_forall in Hw. specialize (Hw a (proj1 (list_elem_of_In _ _) Ha)).
  split; by apply is_word_neq.
Qed.

Lemma obj_set_empty {V} k (v : V) : obj_set k v [] = [(k, v)].
Proof. unfold obj_set. simpl. by destruct (array_index k). Qed.

Lemma obj_assign_declarable {V} k (v : V) o :
  declarable k = true → obj_assign k v o = obj_set k v o.
Proof.
  unfold declarable, obj_assign. intros Hk%negb_true_iff. by rewrite Hk.
Qed.

Lemma obj_assign_proto {V} (v : V) o : obj_assign "__proto__" v o = o.
Proof. done. Qed.

(** The first character of [w>...], for a word [w], is no punctuation
    other than [>]. *)
Lemma is_char_word_or_close pre w suf c :
  forallb is_word w = true → is_word c = false → Ascii.eqb ">" c = false →
  is_char (pre ++ w ++ ">"%char :: suf) (length pre) c = false.
Proof.
  intros Hw Hc Hclose. destruct w as [|a w]; simpl; rewrite is_char_middle; [done|].
  simpl in Hw. apply andb_true_iff in Hw as [Ha _]. by apply is_word_neq.
Qed.

(** The type loop on [type>], after an optional space. *)
Lemma url_type_loop_typed pre (space : bool) ty suf (fuel : nat) :
  forallb is_word ty = true → (length ty + 2 ≤ fuel)%nat →
  url_type_loop fuel (pre ++ (if space then [" "%char] else []) ++ ty ++ ">"%char :: suf)
                (length pre) "" ""
  = Some ((length pre + (if space then 1 else 0) + length ty)%nat,
          string_of_list_ascii ty, "").
Proof.
  intros Hty Hfuel. destruct fuel as [|fuel]; [lia|].
  assert (∀ pre', url_type_loop fuel (pre' ++ ty ++ ">"%char :: suf)
                    (length pre' + length ty) (string_of_list_ascii ty) ""
                  = Some ((length pre' + length ty)%nat, string_of_list_ascii ty, ""))
    as Hclose.
  { intros pre'. destruct fuel as [|fuel']; [lia|]. simpl.
    replace (pre' ++ ty ++ ">"%char :: suf) with ((pre' ++ ty) ++ ">"%char :: suf)
      by (by rewrite <- app_assoc).
    rewrite <- length_app, is_char_middle. done. }
  assert (∀ pre', scan_until ">" fuel (pre' ++ ty ++ ">"%char :: suf) (length pre') ""
                  = Some ((length pre' + length ty)%nat, string_of_list_ascii ty))
    as Hscan.
  { intros pre'. rewrite scan_until_run; [done| |lia]. by apply word_chars_plain. }
  destruct space.
  - simpl. rewrite is_char_middle. simpl. unfold ignoreSpaces.
    rewrite is_char_middle. simpl.
    replace (pre ++ " "%char :: ty ++ ">"%char :: suf)
      with ((pre ++ [" "%char]) ++ ty ++ ">"%char :: suf) by (by rewrite <- app_assoc).
    replace (S (length pre)) with (length (pre ++ [" "%char]))
      by (rewrite length_app; simpl; lia).
    rewrite !is_char_word_or_close by done.
    rewrite Hscan. simpl. rewrite Hclose. rewrite length_app. simpl. done.
  - simpl. destruct ty as [|a ty'] eqn:Ety.
    + simpl. rewrite is_char_middle. simpl. by rewrite !Nat.add_0_r.
    + rewrite <- Ety in *.
      assert (is_char (pre ++ ty ++ ">"%char :: suf) (length pre) ">" = false) as ->.
      { rewrite Ety. simpl. rewrite is_char_middle. simpl in Hty.
        rewrite Ety in Hty. simpl in Hty.
        apply andb_true_iff in Hty as [Ha _]. by apply is_word_neq. }
      assert (ignoreSpaces (pre ++ ty ++ ">"%char :: suf) (length pre) = length pre) as ->.
      { unfold ignoreSpaces. by rewrite is_char_word_or_close. }
      rewrite !is_char_word_or_close by done.
      rewrite Hscan. simpl. rewrite Hclose. by rewrite Nat.add_0_r.
Qed.

(** The type loop on [{regex}>], after an optional space. *)
Lemma url_type_loop_regex pre (space : bool) rx suf (fuel : nat) :
  Forall (λ a, Ascii.eqb a "}" = false ∧ Ascii.eqb a " " = false) rx →
  (length rx + 3 ≤ fuel)%nat →
  url_type_loop fuel
    (pre ++ (if space then [" "%char] else []) ++ "{"%char :: rx ++ "}"%char :: ">"%char :: suf)
    (length pre) "" ""
  = Some ((length pre + (if space then 1 else 0) + length rx + 2)%nat,
          "", string_of_list_ascii rx).
Proof.
  intros Hrx Hfuel. destruct fuel as [|fuel]; [lia|].
  assert (∀ pre', url_type_loop fuel (pre' ++ "{"%char :: rx ++ "}"%char :: ">"%char :: suf)
                    (S (S (length pre' + length rx))) "" (string_of_list_ascii rx)
                  = Some ((length pre' + length rx + 2)%nat, "", string_of_list_ascii rx))
    as Hclose.
  { intros pre'. destruct fuel as [|fuel']; [lia|]. simpl.
    replace (pre' ++ "{"%char :: rx ++ "}"%char :: ">"%char :: suf)
      with ((pre' ++ "{"%char :: rx ++ ["}"%char]) ++ ">"%char :: suf)
      by (repeat (rewrite <- app_assoc; simpl); done).
    replace (S (S (length pre' + length rx)))
      with (length (pre' ++ "{"%char :: rx ++ ["}"%char]))
      by (rewrite !length_app; simpl; rewrite length_app; simpl; lia).
    rewrite is_char_middle. simpl. do 3 f_equal.
    rewrite !length_app. simpl. rewrite length_app. simpl. lia. }
  assert (∀ pre', scan_until "}" fuel (pre' ++ "{"%char :: rx ++ "}"%char :: ">"%char :: suf)
                    (S (length pre')) ""
                  = Some ((S (length pre') + length rx)%nat, string_of_list_ascii rx))
    as Hscan.
  { intros pre'.
    replace (pre' ++ "{"%char :: rx ++ "}"%char :: ">"%char :: suf)
      with ((pre' ++ ["{"%char]) ++ rx ++ "}"%char :: ">"%char :: suf)
      by (repeat (rewrite <- app_assoc; simpl); done).
    replace (S (length pre')) with (length (pre' ++ ["{"%char]))
      by (rewrite length_app; simpl; lia).
    rewrite scan_until_run; [done|done|lia]. }
  destruct space.
  - simpl. rewrite is_char_middle. simpl. unfold ignoreSpaces.
    rewrite is_char_middle. simpl.
    replace (pre ++ " "%char :: "{"%char :: rx ++ "}"%char :: ">"%char :: suf)
      with ((pre ++ [" "%char]) ++ "{"%char :: rx ++ "}"%char :: ">"%char :: suf)
      by (by rewrite <- app_assoc).
    replace (S (length pre)) with (length (pre ++ [" "%char]))
      by (rewrite length_app; simpl; lia).
    rewrite !is_char_middle. simpl.
    rewrite Hscan. simpl. rewrite Hclose. rewrite length_app. simpl. done.
  - simpl. rewrite is_char_middle. simpl. unfold ignoreSpaces.
    rewrite !is_char_middle. simpl.
    rewrite Hscan. simpl. rewrite Hclose. by rewrite Nat.add_0_r.
Qed.

(** The outer loop on [name:...], given what the type loop makes of what
    follows the colon. *)
Lemma url_loop_named pre name rest (j G : nat) ty rx (fuel : nat) :
  forallb is_word name = true →
  (∀ g : nat, (G ≤ g)%nat →
     url_type_loop g (pre ++ name ++ ":"%char :: rest) (S (length pre + length name)) "" ""
     = Some (j, ty, rx)) →
  is_char (pre ++ name ++ ":"%char :: rest) j ">" = true →
  (G + length name + 3 ≤ fuel)%nat →
  url_loop fuel (pre ++ name ++ ":"%char :: rest) (length pre) "" "" ""
  = Some (j, string_of_list_ascii name, ty, rx).
Proof.
  intros Hname Hty Hj Hfuel.
  remember (pre ++ name ++ ":"%char :: rest) as cs eqn:Ecs.
  assert (∀ f : nat, (G + 2 ≤ f)%nat →
            url_loop f cs (length pre + length name) (string_of_list_ascii name) "" ""
            = Some (j, string_of_list_ascii name, ty, rx)) as Hcolon.
  { intros f Hf. destruct f as [|f]; [lia|]. simpl.
    assert (∀ c, is_char cs (length pre + length name) c = Ascii.eqb ":" c) as Hat.
    { intros c. subst cs. rewrite app_assoc, <- length_app. apply is_char_middle. }
    unfold ignoreSpaces. rewrite !Hat. simpl.
    rewrite Hty by lia. simpl.
    destruct f as [|f]; [lia|]. simpl. by rewrite Hj. }
  destruct name as [|a name'] eqn:Ename.
  - simpl in *. rewrite Nat.add_0_r in Hcolon. apply Hcolon. lia.
  - rewrite <- Ename in *. destruct fuel as [|fuel]; [lia|]. simpl.
    assert (is_word a = true) as Ha.
    { rewrite Ename in Hname. simpl in Hname. by apply andb_true_iff in Hname as [? _]. }
    assert (∀ c, is_word c = false → is_char cs (length pre) c = false) as Hat.
    { intros c Hc. subst cs. rewrite Ename. simpl. rewrite is_char_middle.
      by apply is_word_neq. }
    unfold ignoreSpaces. rewrite ?Hat by done. simpl. rewrite ?Hat by done.
    subst cs. rewrite scan_until_run; [|by apply word_chars_plain|lia].
    simpl. apply Hcolon. lia.
Qed.

(** A path [lit1<body>lit2] with one url parameter, given what
    [extractUrlParamsFromPath] makes of [<body>]. *)
Lemma one_url_param_parsed path (lit1 body lit2 : list ascii) name (v : UrlParam)
    (G : nat) pieces tail (fuel : nat) :
  split_chars path = lit1 ++ "<"%char :: body ++ ">"%char :: lit2 →
  literal_chars lit1 = true → literal_chars lit2 = true →
  split_on "/" lit1 = pieces ++ [tail] →
  (∀ g : nat, (G ≤ g)%nat →
     extractUrlParamsFromPath g (split_chars path) [] (length lit1)
     = Some (S (S (length lit1 + length body)), obj_assign name v [])) →
  (length lit1 + G + length lit2 + 2 ≤ fuel)%nat →
  extractUrlAndQueryParametersFromPath fuel path
  = Some (mkParsed (obj_assign name v []) [] path ""
            (literal_parts pieces
             ++ [mkPathPart (last (obj_keys (obj_assign name v []))) true]
             ++ literal_parts (split_on "/" (tail ++ lit2)))).
Proof.
  intros Hcs Hlit1 Hlit2 Hsp Hparam Hfuel.
  unfold extractUrlAndQueryParametersFromPath.
  remember (split_chars path) as cs eqn:Ecs.
  (* the text before the parameter *)
  replace fuel with (length lit1 + S (fuel - S (length lit1)))%nat by lia.
  destruct (top_loop_literal lit1 [] ("<"%char :: body ++ ">"%char :: lit2)
              (S (fuel - S (length lit1))) path (mkTopState [] [] [] "" "" 0) [])
    as (pieces' & tail' & Hsp' & E); [done|done|done|apply not_elem_of_nil|].
  simpl in Hsp', E. rewrite Hsp in Hsp'. apply app_inj_tail in Hsp' as [<- <-].
  rewrite <- Hcs in E. rewrite E. clear E.
  (* the parameter *)
  simpl.
  assert (length cs = S (S (length lit1 + length body + length lit2))) as Hlen.
  { rewrite Hcs, length_app. simpl. rewrite length_app. simpl. lia. }
  rewrite (proj2 (Nat.ltb_lt _ _)) by lia.
  assert (is_char cs (length lit1) "<" = true) as ->
    by (by rewrite Hcs, is_char_middle).
  rewrite Hparam by lia. cbn [mbind option_bind t_urlParams t_queryParams t_parts
                               t_partOfPath t_queryPath t_index].
  (* the text after it *)
  replace (fuel - S (length lit1))%nat
    with (length lit2 + S (fuel - S (S (length lit1 + length lit2))))%nat by lia.
  assert (cs = (lit1 ++ "<"%char :: body ++ [">"%char]) ++ lit2 ++ []) as Hcs'.
  { rewrite Hcs, app_nil_r. repeat (rewrite <- app_assoc; simpl). done. }
  rewrite Hcs' at 1.
  destruct (top_loop_literal lit2 (lit1 ++ "<"%char :: body ++ [">"%char]) []
              (S (fuel - S (S (length lit1 + length lit2)))) path
              (mkTopState (obj_assign name v []) []
                 (literal_parts pieces
                  ++ [mkPathPart (last (obj_keys (obj_assign name v []))) true])
                 (string_of_list_ascii tail)
                 "" (S (S (length lit1 + length body)))) tail)
    as (pieces2 & tail2 & Hsp2 & E); [done| |done| |].
  { simpl. rewrite length_app. simpl. rewrite length_app. simpl. lia. }
  { by eapply split_on_tail_plain. }
  rewrite E. clear E. rewrite <- Hcs'. simpl.
  rewrite (proj2 (Nat.ltb_ge _ _)).
  2:{ rewrite Hlen, length_app. simpl. rewrite length_app. simpl. lia. }
  simpl. rewrite remove_first_empty. do 2 f_equal.
  rewrite Hsp2, <- literal_parts_flush, <- !app_assoc.
  by destruct (negb _).
Qed.

Ltac list_eq := repeat (rewrite <- app_assoc; simpl); done.
Ltac list_len := repeat (rewrite length_app; simpl); lia.

Lemma url_param_typed_chars lit1 name (space : bool) ty lit2 params (g : nat) :
  forallb is_word name = true → forallb is_word ty = true →
  (length name + length ty + 5 ≤ g)%nat →
  extractUrlParamsFromPath g
    (lit1 ++ "<"%char ::
       (name ++ ":"%char :: (if space then [" "%char] else []) ++ ty) ++ ">"%char :: lit2)
    params (length lit1)
  = Some (S (S (length lit1 +
                length (name ++ ":"%char :: (if space then [" "%char] else []) ++ ty))),
          obj_assign (string_of_list_ascii name)
                     (mkUrlParam [string_of_list_ascii ty] "") params).
Proof.
  intros Hname Hty Hg. unfold extractUrlParamsFromPath.
  set (sp := if space then [" "%char] else []).
  set (pre := lit1 ++ ["<"%char]).
  set (rest := sp ++ ty ++ ">"%char :: lit2).
  replace (lit1 ++ "<"%char :: (name ++ ":"%char :: sp ++ ty) ++ ">"%char :: lit2)
    with (pre ++ name ++ ":"%char :: rest) by (subst pre rest; list_eq).
  replace (S (length lit1)) with (length pre) by (subst pre; list_len).
  rewrite (url_loop_named pre name rest
             (length (pre ++ name ++ [":"%char]) + (if space then 1 else 0) + length ty)
             (length ty + 2) (string_of_list_ascii ty) ""); [| done | | |lia].
  - simpl. do 3 f_equal. subst pre sp. destruct space; list_len.
  - intros g' Hg'.
    replace (pre ++ name ++ ":"%char :: rest)
      with ((pre ++ name ++ [":"%char]) ++ sp ++ ty ++ ">"%char :: lit2)
      by (subst rest; list_eq).
    replace (S (length pre + length name)) with (length (pre ++ name ++ [":"%char]))
      by list_len.
    by apply url_type_loop_typed.
  - replace (pre ++ name ++ ":"%char :: rest)
      with (((pre ++ name ++ [":"%char]) ++ sp ++ ty) ++ ">"%char :: lit2)
      by (subst rest; list_eq).
    replace (length (pre ++ name ++ [":"%char]) + (if space then 1 else 0) + length ty)%nat
      with (length ((pre ++ name ++ [":"%char]) ++ sp ++ ty))
      by (subst sp; destruct space; list_len).
    by rewrite is_char_middle.
Qed.

Lemma url_param_regex_chars lit1 name (space : bool) rx lit2 params (g : nat) :
  forallb is_word name = true →
  Forall (λ a, Ascii.eqb a "}" = false ∧ Ascii.eqb a " " = false) rx →
  (length name + length rx + 6 ≤ g)%nat →
  extractUrlParamsFromPath g
    (lit1 ++ "<"%char ::
       (name ++ ":"%char :: (if space then [" "%char] else []) ++ "{"%char :: rx ++ ["}"%char])
       ++ ">"%char :: lit2)
    params (length lit1)
  = Some (S (S (length lit1 +
                length (name ++ ":"%char :: (if space then [" "%char] else [])
                          ++ "{"%char :: rx ++ ["}"%char]))),
          obj_assign (string_of_list_ascii name)
                     (mkUrlParam [""] (string_of_list_ascii rx)) params).
Proof.
  intros Hname Hrx Hg. unfold extractUrlParamsFromPath.
  set (sp := if space then [" "%char] else []).
  set (pre := lit1 ++ ["<"%char]).
  set (rest := sp ++ "{"%char :: rx ++ "}"%char :: ">"%char :: lit2).
  replace (lit1 ++ "<"%char :: (name ++ ":"%char :: sp ++ "{"%char :: rx ++ ["}"%char])
             ++ ">"%char :: lit2)
    with (pre ++ name ++ ":"%char :: rest) by (subst pre rest; list_eq).
  replace (S (length lit1)) with (length pre) by (subst pre; list_len).
  rewrite (url_loop_named pre name rest
             (length (pre ++ name ++ [":"%char]) + (if space then 1 else 0) + length rx + 2)
             (length rx + 3) "" (string_of_list_ascii rx)); [| done | | |lia].
  - simpl. do 3 f_equal. subst pre sp. destruct space; list_len.
  - intros g' Hg'.
    replace (pre ++ name ++ ":"%char :: rest)
      with ((pre ++ name ++ [":"%char]) ++ sp ++ "{"%char :: rx ++ "}"%char :: ">"%char :: lit2)
      by (subst rest; list_eq).
    replace (S (length pre + length name)) with (length (pre ++ name ++ [":"%char]))
      by list_len.
    by apply url_type_loop_regex.
  - replace (pre ++ name ++ ":"%char :: rest)
      with (((pre ++ name ++ [":"%char]) ++ sp ++ "{"%char :: rx ++ ["}"%char])
              ++ ">"%char :: lit2)
      by (subst rest; list_eq).
    replace (length (pre ++ name ++ [":"%char]) + (if space then 1 else 0) + length rx + 2)%nat
      with (length ((pre ++ name ++ [":"%char]) ++ sp ++ "{"%char :: rx ++ ["}"%char]))
      by (subst sp; destruct space; list_len).
    by rewrite is_char_middle.
Qed.

Lemma length_append s t : String.length (s +:+ t) = (String.length s + String.length t)%nat.
Proof. by rewrite <- !length_split_chars, split_chars_app, length_app. Qed.

Lemma string_of_split_chars s : string_of_list_ascii (split_chars s) = s.
Proof. apply string_of_list_ascii_of_string. Qed.

Lemma split_chars_of_list l : split_chars (string_of_list_ascii l) = l.
Proof. apply list_ascii_of_string_of_list_ascii. Qed.

Lemma split_chars_typed_param name space ty :
  split_chars (typed_param name space ty)
  = "<"%char :: (split_chars name ++ ":"%char :: (if space then [" "%char] else [])
                   ++ split_chars ty) ++ [">"%char].
Proof.
  unfold typed_param. rewrite !split_chars_app. destruct space; simpl; list_eq.
Qed.

Lemma split_chars_regex_param name space rx :
  split_chars (regex_param name space rx)
  = "<"%char :: (split_chars name ++ ":"%char :: (if space then [" "%char] else [])
                   ++ "{"%char :: split_chars rx ++ ["}"%char]) ++ [">"%char].
Proof.
  unfold regex_param. rewrite !split_chars_app. destruct space; simpl; list_eq.
Qed.

Lemma segments_app_chars tail lit :
  segments (string_of_list_ascii tail +:+ lit)
  = literal_parts (split_on "/" (tail ++ split_chars lit)).
Proof. unfold segments. by rewrite split_chars_app, split_chars_of_list. Qed.

(** What the scanner makes of [lit1<name:type>lit2], whatever the name. *)
Lemma typed_url_param_scanned (lit1 name ty lit2 : string) (space : bool)
    (pieces : list (list ascii)) (tail : list ascii) (fuel : nat) :
  literal lit1 = true → word name = true → word ty = true → literal lit2 = true →
  split_on "/" (split_chars lit1) = pieces ++ [tail] →
  (String.length (lit1 +:+ typed_param name space ty +:+ lit2) + 4 ≤ fuel)%nat →
  extractUrlAndQueryParametersFromPath fuel (lit1 +:+ typed_param name space ty +:+ lit2)
  = Some (mkParsed (obj_assign name (mkUrlParam [ty] "") []) []
            (lit1 +:+ typed_param name space ty +:+ lit2) ""
            (literal_parts pieces
             ++ [mkPathPart (last (obj_keys (obj_assign name (mkUrlParam [ty] "") []))) true]
             ++ segments (string_of_list_ascii tail +:+ lit2))).
Proof.
  intros Hlit1 Hname Hty Hlit2 Hsp Hfuel.
  rewrite segments_app_chars.
  assert (split_chars (lit1 +:+ typed_param name space ty +:+ lit2)
          = split_chars lit1 ++ "<"%char ::
              (split_chars name ++ ":"%char :: (if space then [" "%char] else [])
                 ++ split_chars ty) ++ ">"%char :: split_chars lit2) as Hcs.
  { rewrite !split_chars_app, split_chars_typed_param. list_eq. }
  eapply (one_url_param_parsed _ _ _ _ _ _
            (String.length name + String.length ty + 5)); try done.
  - intros g Hg. rewrite Hcs, url_param_typed_chars; try done.
    + by rewrite !string_of_split_chars.
    + rewrite !length_split_chars. lia.
  - rewrite <- length_split_chars, Hcs in Hfuel.
    rewrite !length_app in *. simpl in *. rewrite !length_app in *. simpl in *.
    destruct space; simpl in *; rewrite ?length_split_chars in *; lia.
Qed.

(** X2: a path [lit1<name:type>lit2], with or without a space after the
    colon, where [name] and [type] are made of word characters, [name] is
    not [__proto__], and the text around has no [<] and no [?].  The
    scanner returns the one url parameter [name], of type [type] with an
    empty regex, the whole path as url path and no query.  The parts are
    the pieces of [lit1] that a [/] ends, then [name] as a parameter, then
    the pieces of what was left of [lit1] glued to [lit2]: text that stands
    right before the [<] comes after the parameter. *)
Theorem typed_url_param_parsed (lit1 name ty lit2 : string) (space : bool)
    (pieces : list (list ascii)) (tail : list ascii) (fuel : nat) :
  literal lit1 = true → word name = true → declarable name = true →
  word ty = true → literal lit2 = true →
  split_on "/" (split_chars lit1) = pieces ++ [tail] →
  (String.length (lit1 +:+ typed_param name space ty +:+ lit2) + 4 ≤ fuel)%nat →
  extractUrlAndQueryParametersFromPath fuel (lit1 +:+ typed_param name space ty +:+ lit2)
  = Some (mkParsed [(name, mkUrlParam [ty] "")] []
            (lit1 +:+ typed_param name space ty +:+ lit2) ""
            (literal_parts pieces ++ [mkPathPart (Some name) true] ++
             segments (string_of_list_ascii tail +:+ lit2))).
Proof.
  intros Hlit1 Hname Hdecl Hty Hlit2 Hsp Hfuel.
  rewrite (typed_url_param_scanned lit1 name ty lit2 space pieces tail) by done.
  by rewrite obj_assign_declarable, obj_set_empty.
Qed.

Lemma typed_url_param_parsed_witness :
  extractUrlAndQueryParametersFromPath 40 ("/users/" +:+ typed_param "id" true "number" +:+ "/posts")
  = Some (mkParsed [("id", mkUrlParam ["number"] "")] []
            ("/users/" +:+ typed_param "id" true "number" +:+ "/posts") ""
            (literal_parts [[]; ["u"; "s"; "e"; "r"; "s"]%char] ++ [mkPathPart (Some "id") true] ++
             segments (string_of_list_ascii [] +:+ "/posts"))).
Proof.
  apply (typed_url_param_parsed "/users/" "id" "number" "/posts" true
           [[]; ["u"; "s"; "e"; "r"; "s"]%char] []); try reflexivity.
  vm_compute. lia.
Defined.

(** X28: a url parameter named [__proto__] declares nothing.  The
    assignment [params.__proto__ = ...] sets the prototype of the object
    of parameters, which gets no key, and the part pushed for the
    parameter is the last key of an object without keys: [undefined]. *)
Theorem proto_url_param_declares_nothing (lit1 ty lit2 : string) (space : bool)
    (pieces : list (list ascii)) (tail : list ascii) (fuel : nat) :
  literal lit1 = true → word ty = true → literal lit2 = true →
  split_on "/" (split_chars lit1) = pieces ++ [tail] →
  (String.length (lit1 +:+ typed_param "__proto__" space ty +:+ lit2) + 4 ≤ fuel)%nat →
  extractUrlAndQueryParametersFromPath fuel
    (lit1 +:+ typed_param "__proto__" space ty +:+ lit2)
  = Some (mkParsed [] []
            (lit1 +:+ typed_param "__proto__" space ty +:+ lit2) ""
            (literal_parts pieces ++ [mkPathPart None true] ++
             segments (string_of_list_ascii tail +:+ lit2))).
Proof.
  intros Hlit1 Hty Hlit2 Hsp Hfuel.
  by rewrite (typed_url_param_scanned lit1 "__proto__" ty lit2 space pieces tail).
Qed.

Lemma proto_url_param_declares_nothing_witness :
  extractUrlAndQueryParametersFromPath 40
    ("/" +:+ typed_param "__proto__" true "number" +:+ "")
  = Some (mkParsed [] []
            ("/" +:+ typed_param "__proto__" true "number" +:+ "") ""
            (literal_parts [[]] ++ [mkPathPart None true] ++
             segments (string_of_list_ascii [] +:+ ""))).
Proof.
  apply (proto_url_param_declares_nothing "/" "number" "" true [[]] []); try reflexivity.
  vm_compute. lia.
Defined.

(** Text for a regex has no [}] and no space. *)
Lemma regex_text_plain rx :
  regex_text rx = true →
  Forall (λ a, Ascii.eqb a "}" = false ∧ Ascii.eqb a " " = false) (split_chars rx).
Proof.
  unfold regex_text. intros Hrx. apply Forall_forall. intros a Ha.
  rewrite forallb_forall in Hrx.
  specialize (Hrx a (proj1 (list_elem_of_In _ _) Ha)).
  apply andb_true_iff in Hrx as [H1 H2]. apply negb_true_iff in H2. split; [|done].
  unfold pattern_char in H1. apply negb_true_iff in H1.
  destruct (Ascii.eqb_spec a "}") as [->|]; [done|done].
Qed.

(** X3: a path [lit1<name:{regex}>lit2], where [name] is not [__proto__]
    and the regex is text that [new RegExp] accepts whatever it is: no
    space and none of the syntax characters that need a context.  The
    scanner returns the one url parameter [name] with the text
    between the braces as regex; its list of types holds the empty
    string.  Url path, query and parts are as for a typed parameter. *)
Theorem regex_url_param_parsed (lit1 name rx lit2 : string) (space : bool)
    (pieces : list (list ascii)) (tail : list ascii) (fuel : nat) :
  literal lit1 = true → word name = true → declarable name = true →
  regex_text rx = true → literal lit2 = true →
  split_on "/" (split_chars lit1) = pieces ++ [tail] →
  (String.length (lit1 +:+ regex_param name space rx +:+ lit2) + 4 ≤ fuel)%nat →
  extractUrlAndQueryParametersFromPath fuel (lit1 +:+ regex_param name space rx +:+ lit2)
  = Some (mkParsed [(name, mkUrlParam [""] rx)] []
            (lit1 +:+ regex_param name space rx +:+ lit2) ""
            (literal_parts pieces ++ [mkPathPart (Some name) true] ++
             segments (string_of_list_ascii tail +:+ lit2))).
Proof.
  intros Hlit1 Hname Hdecl Hrx Hlit2 Hsp Hfuel.
  rewrite segments_app_chars.
  change (Some name) with (last (obj_keys [(name, mkUrlParam [""] rx)])).
  rewrite <- (obj_set_empty name (mkUrlParam [""] rx)).
  rewrite <- (obj_assign_declarable name (mkUrlParam [""] rx) []) by done.
  assert (split_chars (lit1 +:+ regex_param name space rx +:+ lit2)
          = split_chars lit1 ++ "<"%char ::
              (split_chars name ++ ":"%char :: (if space then [" "%char] else [])
                 ++ "{"%char :: split_chars rx ++ ["}"%char])
              ++ ">"%char :: split_chars lit2) as Hcs.
  { rewrite !split_chars_app, split_chars_regex_param. list_eq. }
  eapply (one_url_param_parsed _ _ _ _ _ _
            (String.length name + String.length rx + 6)); try done.
  - intros g Hg. rewrite Hcs, url_param_regex_chars; try done.
    + by rewrite !string_of_split_chars.
    + by apply regex_text_plain.
    + rewrite !length_split_chars. lia.
  - rewrite <- length_split_chars, Hcs in Hfuel.
    rewrite !length_app in *. simpl in *. rewrite !length_app in *. simpl in *.
    destruct space; simpl in *; rewrite ?length_app in *; simpl in *;
      rewrite ?length_split_chars in *; lia.
Qed.

Lemma regex_url_param_parsed_witness :
  extractUrlAndQueryParametersFromPath 40 ("/" +:+ regex_param "code" true "^item-..$" +:+ "")
  = Some (mkParsed [("code", mkUrlParam [""] "^item-..$")] []
            ("/" +:+ regex_param "code" true "^item-..$" +:+ "") ""
            (literal_parts [[]] ++ [mkPathPart (Some "code") true] ++
             segments (string_of_list_ascii [] +:+ ""))).
Proof.
  apply (regex_url_param_parsed "/" "code" "^item-..$" "" true [[]] []); try reflexivity.
  vm_compute. lia.
Defined.

(** A run that is still going with any large amount of fuel is still
    going with any amount. *)
Lemma top_loop_never path cs t (N : nat) :
  (∀ fuel : nat, (N ≤ fuel)%nat → top_loop fuel path cs t = None) →
  ∀ fuel : nat, top_loop fuel path cs t = None.
Proof.
  intros HN fuel. destruct (top_loop fuel path cs t) as [r|] eqn:E; [|done].
  apply (top_loop_mono fuel (fuel `max` N)) in E; [|lia].
  rewrite HN in E by lia. done.
Qed.

Lemma absent_from_app c (pre rest : list ascii) :
  absent_from c 0 rest = true → absent_from c (length pre) (pre ++ rest) = true.
Proof. unfold absent_from. by rewrite drop_app_length, drop_0. Qed.

(** A path [lit<body], given that the loop of [extractUrlParamsFromPath]
    never ends on [body]. *)
Lemma url_param_never_returns (lit body : list ascii) path :
  split_chars path = lit ++ "<"%char :: body →
  literal_chars lit = true →
  (∀ fuel : nat, url_loop fuel (lit ++ "<"%char :: body) (S (length lit)) "" "" "" = None) →
  ∀ fuel : nat, extractUrlAndQueryParametersFromPath fuel path = None.
Proof.
  intros Hcs Hlit Hloop fuel. unfold extractUrlAndQueryParametersFromPath.
  rewrite (top_loop_never _ _ _ (S (length lit))); [done|].
  intros f Hf. replace f with (length lit + S (f - S (length lit)))%nat by lia.
  destruct (top_loop_literal lit [] ("<"%char :: body) (S (f - S (length lit))) path
              (mkTopState [] [] [] "" "" 0) [])
    as (pieces & tail & _ & E); [done|done|done|apply not_elem_of_nil|].
  simpl in E. rewrite Hcs, E. simpl.
  rewrite (proj2 (Nat.ltb_lt _ _)) by list_len.
  rewrite is_char_middle. simpl. unfold extractUrlParamsFromPath.
  by rewrite Hloop.
Qed.

(** X6: a [<] that is followed neither by [>] at once nor by any [:], as in
    [/posts/<slug>]: the scan of the name looks for the colon, not for the
    [>], and for every amount of fuel the scanner is still running. *)
Theorem url_param_without_colon_never_returns (lit rest : string) (fuel : nat) :
  literal lit = true →
  String.prefix ">" rest = false →
  absent_from ":" 0 (split_chars rest) = true →
  extractUrlAndQueryParametersFromPath fuel (lit +:+ "<" +:+ rest) = None.
Proof.
  intros Hlit Hclose Hcolon.
  apply (url_param_never_returns (split_chars lit) (split_chars rest)); [|done|].
  { by rewrite !split_chars_app. }
  clear fuel. intros fuel. destruct fuel as [|fuel]; [done|]. simpl.
  set (cs := split_chars lit ++ "<"%char :: split_chars rest).
  assert (absent_from ":" (S (length (split_chars lit))) cs = true) as Habs.
  { subst cs. replace (split_chars lit ++ "<"%char :: split_chars rest)
      with ((split_chars lit ++ ["<"%char]) ++ split_chars rest) by list_eq.
    replace (S (length (split_chars lit))) with (length (split_chars lit ++ ["<"%char]))
      by list_len.
    by apply absent_from_app. }
  assert (is_char cs (S (length (split_chars lit))) ">" = false) as ->.
  { subst cs. replace (split_chars lit ++ "<"%char :: split_chars rest)
      with ((split_chars lit ++ ["<"%char]) ++ split_chars rest) by list_eq.
    replace (S (length (split_chars lit))) with (length (split_chars lit ++ ["<"%char]))
      by list_len.
    destruct rest as [|a rest]; simpl.
    - rewrite app_nil_r. apply is_char_end.
    - rewrite is_char_middle. simpl in Hclose.
      destruct (Ascii.eqb_spec a ">") as [->|]; [|done].
      simpl in Hclose. by destruct rest. }
  pose proof (ignoreSpaces_ge cs (S (length (split_chars lit)))) as Hge.
  rewrite (is_char_absent ":" (S (length (split_chars lit)))) by done.
  rewrite scan_until_diverges; [done|]. by eapply absent_from_le.
Qed.

Lemma url_param_without_colon_never_returns_witness :
  extractUrlAndQueryParametersFromPath 1000 ("/posts/" +:+ "<" +:+ "slug>") = None.
Proof. apply url_param_without_colon_never_returns; reflexivity. Defined.

(** The name scan on [name :...], a name followed by a space and a colon:
    the colon is taken into the name and the scan goes on. *)
Lemma scan_until_space_colon (w : list ascii) : ∀ pre rest acc (fuel : nat),
  forallb is_word w = true → absent_from ":" 0 rest = true →
  scan_until ":" fuel (pre ++ w ++ " "%char :: ":"%char :: rest) (length pre) acc = None.
Proof.
  induction w as [|a w IH]; intros pre rest acc fuel Hw Habs.
  - destruct fuel as [|fuel]; [done|]. simpl.
    rewrite is_char_middle. simpl. unfold ignoreSpaces. rewrite is_char_middle. simpl.
    apply scan_until_diverges.
    replace (pre ++ " "%char :: ":"%char :: rest)
      with ((pre ++ [" "; ":"]%char) ++ rest) by list_eq.
    replace (S (S (length pre))) with (length (pre ++ [" "; ":"]%char)) by list_len.
    by apply absent_from_app.
  - destruct fuel as [|fuel]; [done|]. simpl in Hw |- *.
    apply andb_true_iff in Hw as [Ha Hw].
    rewrite is_char_middle, (is_word_neq a ":") by done.
    unfold ignoreSpaces. rewrite is_char_middle, (is_word_neq a " "), at_middle by done.
    replace (pre ++ a :: w ++ " "%char :: ":"%char :: rest)
      with ((pre ++ [a]) ++ w ++ " "%char :: ":"%char :: rest) by list_eq.
    replace (S (length pre)) with (length (pre ++ [a])) by list_len.
    by apply IH.
Qed.

(** X7: a name followed by a space and a colon, as in [<id : number>], when
    no other colon follows: the scan of the name steps over the space and
    takes the colon into the name, and for every amount of fuel the scanner
    is still running. *)
Theorem url_param_space_before_colon_never_returns (lit name rest : string) (fuel : nat) :
  literal lit = true → word name = true → name ≠ "" →
  absent_from ":" 0 (split_chars rest) = true →
  extractUrlAndQueryParametersFromPath fuel (lit +:+ "<" +:+ name +:+ " :" +:+ rest) = None.
Proof.
  intros Hlit Hname Hne Hcolon.
  apply (url_param_never_returns (split_chars lit)
           (split_chars name ++ " "%char :: ":"%char :: split_chars rest)); [|done|].
  { rewrite !split_chars_app. simpl. list_eq. }
  clear fuel. intros fuel. destruct fuel as [|fuel]; [done|].
  replace (split_chars lit ++ "<"%char :: split_chars name ++ " "%char :: ":"%char :: split_chars rest)
    with ((split_chars lit ++ ["<"%char]) ++ split_chars name ++ " "%char :: ":"%char :: split_chars rest)
    by list_eq.
  replace (S (length (split_chars lit))) with (length (split_chars lit ++ ["<"%char]))
    by list_len.
  simpl. destruct name as [|a name]; [done|].
  unfold word in Hname. simpl in Hname |- *.
  apply andb_true_iff in Hname as [Ha Hname].
  rewrite is_char_middle, (is_word_neq a ">") by done.
  unfold ignoreSpaces. rewrite is_char_middle, (is_word_neq a " ") by done.
  rewrite is_char_middle, (is_word_neq a ":") by done.
  pose proof (scan_until_space_colon (a :: split_chars name)
                (split_chars lit ++ ["<"%char]) (split_chars rest) "" fuel) as E.
  simpl in E. rewrite E; [done| |done].
  by rewrite Ha.
Qed.

Lemma url_param_space_before_colon_never_returns_witness :
  extractUrlAndQueryParametersFromPath 1000 ("/users/" +:+ "<" +:+ "id" +:+ " :" +:+ " number>")
  = None.
Proof.
  apply url_param_space_before_colon_never_returns; try reflexivity. done.
Defined.

(** *** Query templates *)

Lemma hasNotReached_end pre suf :
  ends_pair suf → hasNotReachedEndOrNextQueryParam (pre ++ suf) (length pre) = false.
Proof.
  unfold hasNotReachedEndOrNextQueryParam. intros [->|[s ->]].
  - rewrite app_nil_r, Nat.ltb_irrefl. by rewrite andb_false_r.
  - by rewrite is_char_middle.
Qed.

Lemma hasNotReached_word pre a suf :
  is_word a = true →
  hasNotReachedEndOrNextQueryParam (pre ++ a :: suf) (length pre) = true.
Proof.
  intros Ha. unfold hasNotReachedEndOrNextQueryParam.
  rewrite is_char_middle, (is_word_neq a "&") by done. simpl.
  apply Nat.ltb_lt. list_len.
Qed.

Lemma is_char_word_or_end pre w suf c :
  forallb is_word w = true → ends_pair suf → is_word c = false → Ascii.eqb "&" c = false →
  is_char (pre ++ w ++ suf) (length pre) c = false.
Proof.
  intros Hw Hsuf Hc Hamp. destruct w as [|a w]; simpl.
  - destruct Hsuf as [->|[s ->]].
    + rewrite app_nil_r. apply is_char_end.
    + by rewrite is_char_middle.
  - rewrite is_char_middle. simpl in Hw. apply andb_true_iff in Hw as [Ha _].
    by apply is_word_neq.
Qed.

Lemma q_type_loop_word (t : list ascii) : ∀ pre suf nm ty rx tys arr opt (fuel : nat),
  forallb is_word t = true → ends_pair suf → (length t < fuel)%nat →
  q_type_loop fuel (pre ++ t ++ suf) (mkQState (length pre) nm ty rx tys arr opt)
  = Some (mkQState (length pre + length t) nm (ty +:+ string_of_list_ascii t) rx tys arr opt).
Proof.
  induction t as [|a t IH]; intros pre suf nm ty rx tys arr opt fuel Ht Hsuf Hfuel.
  - destruct fuel as [|fuel]; [simpl in Hfuel; lia|]. simpl.
    rewrite hasNotReached_end by done. by rewrite Nat.add_0_r, append_empty_r.
  - destruct fuel as [|fuel]; [simpl in Hfuel; lia|]. simpl in Ht |- *.
    apply andb_true_iff in Ht as [Ha Ht].
    rewrite hasNotReached_word by done. unfold ignoreSpaces.
    rewrite is_char_middle, (is_word_neq a " ") by done.
    rewrite !is_char_middle, (is_word_neq a "?"), (is_word_neq a "["),
      (is_word_neq a "("), at_middle by done.
    simpl.
    replace (pre ++ a :: t ++ suf) with ((pre ++ [a]) ++ t ++ suf) by list_eq.
    replace (S (length pre)) with (length (pre ++ [a])) by list_len.
    rewrite IH by (done || simpl in Hfuel; lia).
    rewrite append_add. do 2 f_equal. list_len.
Qed.

Lemma q_pair_loop_pair (n : list ascii) : ∀ pre t suf nm (fuel : nat),
  forallb is_word n = true → forallb is_word t = true → ends_pair suf →
  (length n + length t + 3 ≤ fuel)%nat →
  q_pair_loop fuel (pre ++ n ++ "="%char :: t ++ suf)
    (mkQState (length pre) nm "" "" [] false false)
  = Some (mkQState (length pre + length n + 1 + length t)
            (nm +:+ string_of_list_ascii n) (string_of_list_ascii t) "" [] false false).
Proof.
  induction n as [|a n IH]; intros pre t suf nm fuel Hn Ht Hsuf Hfuel.
  - destruct fuel as [|fuel]; [simpl in Hfuel; lia|]. simpl.
    unfold hasNotReachedEndOrNextQueryParam at 1.
    rewrite is_char_middle. simpl.
    rewrite (proj2 (Nat.ltb_lt _ _)) by list_len.
    unfold ignoreSpaces. rewrite !is_char_middle. simpl.
    replace (pre ++ "="%char :: t ++ suf) with ((pre ++ ["="%char]) ++ t ++ suf) by list_eq.
    replace (S (length pre)) with (length (pre ++ ["="%char])) by list_len.
    rewrite !is_char_word_or_end by done. simpl.
    rewrite !is_char_word_or_end by done.
    rewrite q_type_loop_word by (done || simpl in Hfuel; lia). simpl.
    destruct fuel as [|fuel]; [simpl in Hfuel; lia|]. simpl.
    replace ((pre ++ ["="%char]) ++ t ++ suf) with (((pre ++ ["="%char]) ++ t) ++ suf)
      by list_eq.
    rewrite <- length_app, hasNotReached_end by done.
    rewrite append_empty_r. do 2 f_equal. list_len.
  - destruct fuel as [|fuel]; [simpl in Hfuel; lia|]. simpl in Hn |- *.
    apply andb_true_iff in Hn as [Ha Hn].
    rewrite hasNotReached_word by done. unfold ignoreSpaces.
    rewrite is_char_middle, (is_word_neq a " ") by done.
    rewrite !is_char_middle, (is_word_neq a "&"), (is_word_neq a "="), at_middle by done.
    simpl.
    replace (pre ++ a :: n ++ "="%char :: t ++ suf)
      with ((pre ++ [a]) ++ n ++ "="%char :: t ++ suf) by list_eq.
    replace (S (length pre)) with (length (pre ++ [a])) by list_len.
    rewrite IH by (done || simpl in Hfuel; lia).
    rewrite append_add. do 2 f_equal. list_len.
Qed.


Lemma split_chars_query_cons p ps :
  split_chars (query_of (p :: ps))
  = split_chars p.1 ++ "="%char :: split_chars p.2 ++
      match ps with
      | [] => []
      | _ :: _ => "&"%char :: split_chars (query_of ps)
      end.
Proof.
  unfold query_of. simpl. destruct ps as [|p' ps]; simpl.
  - rewrite !split_chars_app. simpl. by rewrite app_nil_r.
  - rewrite !split_chars_app. simpl. list_eq.
Qed.

Lemma q_loop_pairs (pairs : list (string * string)) : ∀ pre params (fuel : nat),
  forallb word_pair pairs = true →
  (length (split_chars (query_of pairs)) + 4 ≤ fuel)%nat →
  q_loop fuel (pre ++ split_chars (query_of pairs)) (length pre) params
  = Some ((length pre + length (split_chars (query_of pairs))
           + match pairs with [] => 0 | _ :: _ => 1 end)%nat,
          foldl (λ o p, obj_assign p.1 (mkQueryParam [p.2] false false None) o)
                params pairs).
Proof.
  induction pairs as [|[n t] ps IH]; intros pre params fuel Hw Hfuel.
  - destruct fuel as [|fuel]; [lia|]. simpl.
    rewrite app_nil_r, Nat.ltb_irrefl. do 2 f_equal. lia.
  - simpl in Hw. apply andb_true_iff in Hw as [Hp Hw].
    apply andb_true_iff in Hp as [Hn Ht]. simpl in Hn, Ht.
    rewrite split_chars_query_cons in *. simpl fst in *. simpl snd in *.
    destruct fuel as [|fuel]; [lia|].
    cbn [q_loop].
    rewrite (proj2 (Nat.ltb_lt _ _)) by list_len.
    rewrite !length_app in Hfuel. simpl in Hfuel. rewrite !length_app in Hfuel.
    rewrite q_pair_loop_pair; [|done|done| |lia].
    2:{ destruct ps; [by left|right; eauto]. }
    cbn [mbind option_bind q_types q_type q_regex q_index q_name q_isOptional q_isArray
         length Nat.eqb String.eqb app].
    destruct ps as [|p' ps'].
    + destruct fuel as [|fuel]; [lia|]. simpl.
      rewrite (proj2 (Nat.ltb_ge _ _)) by list_len.
      rewrite !string_of_split_chars. f_equal. f_equal. list_len.
    + replace (pre ++ split_chars n ++ "="%char :: split_chars t ++
                 "&"%char :: split_chars (query_of (p' :: ps')))
        with ((pre ++ split_chars n ++ "="%char :: split_chars t ++ ["&"%char])
                ++ split_chars (query_of (p' :: ps'))) by list_eq.
      replace (S (length pre + length (split_chars n) + 1 + length (split_chars t)))
        with (length (pre ++ split_chars n ++ "="%char :: split_chars t ++ ["&"%char]))
        by list_len.
      rewrite IH; [|done|simpl in Hfuel; lia].
      rewrite !string_of_split_chars. f_equal. f_equal. list_len.
Qed.

Lemma substring_all s (n : nat) : (String.length s ≤ n)%nat → substring 0 n s = s.
Proof.
  revert n. induction s as [|a s IH]; intros n Hn; [by destruct n|].
  destruct n as [|n]; [simpl in Hn; lia|]. simpl. rewrite IH; [done|simpl in Hn; lia].
Qed.

Lemma substring_append_r s t (n : nat) :
  (String.length t ≤ n)%nat → substring (String.length s) n (s +:+ t) = t.
Proof.
  intros Hn. induction s as [|a s IH]; [by apply substring_all|]. exact IH.
Qed.

Lemma substring_end s (n : nat) : substring (String.length s) n s = "".
Proof. induction s as [|a s IH]; [by destruct n|]. exact IH. Qed.

Lemma string_prefix_refl s : String.prefix s s = true.
Proof.
  induction s as [|a s IH]; [done|]. cbn [String.prefix]. by destruct (ascii_dec a a).
Qed.

Lemma remove_first_query lit q :
  literal lit = true → remove_first ("?" +:+ q) (lit +:+ "?" +:+ q) = lit.
Proof.
  intros Hlit. induction lit as [|a lit IH].
  - change ("" +:+ "?" +:+ q) with ("?" +:+ q).
    destruct ("?" +:+ q) as [|b s] eqn:E; [done|].
    unfold remove_first. rewrite string_prefix_refl. apply substring_end.
  - unfold literal in Hlit. simpl in Hlit. apply andb_true_iff in Hlit as [Ha Hlit].
    apply andb_true_iff in Ha as [_ Hq]. apply negb_true_iff in Hq.
    change (String a lit +:+ "?" +:+ q) with (String a (lit +:+ "?" +:+ q)).
    change ("?" +:+ q) with (String "?" q) in *.
    cbn [remove_first String.prefix].
    destruct (ascii_dec "?" a) as [<-|_]; [done|].
    f_equal. by apply IH.
Qed.

Lemma foldl_assign_declarable (pairs : list (string * string)) : ∀ params,
  forallb (λ p, declarable p.1) pairs = true →
  foldl (λ o p, obj_assign p.1 (mkQueryParam [p.2] false false None) o) params pairs
  = foldl (λ o p, obj_set p.1 (mkQueryParam [p.2] false false None) o) params pairs.
Proof.
  induction pairs as [|p ps IH]; intros params Hd; [done|].
  simpl in Hd. apply andb_true_iff in Hd as [Hp Hd]. simpl.
  by rewrite obj_assign_declarable, IH.
Qed.

(** What the scanner makes of [lit?n1=t1&...&nk=tk], whatever the names. *)
Lemma plain_query_scanned (lit : string) (pairs : list (string * string)) (fuel : nat) :
  literal lit = true → forallb word_pair pairs = true →
  (String.length (lit +:+ "?" +:+ query_of pairs) + 5 ≤ fuel)%nat →
  extractUrlAndQueryParametersFromPath fuel (lit +:+ "?" +:+ query_of pairs)
  = Some (mkParsed []
            (foldl (λ o p, obj_assign p.1 (mkQueryParam [p.2] false false None) o) [] pairs)
            lit (query_of pairs) (segments lit)).
Proof.
  intros Hlit Hpairs Hfuel. unfold extractUrlAndQueryParametersFromPath.
  set (path := lit +:+ "?" +:+ query_of pairs) in *.
  assert (split_chars path = split_chars lit ++ "?"%char :: split_chars (query_of pairs))
    as Hcs by (subst path; by rewrite !split_chars_app).
  assert (String.length path
          = S (String.length lit + length (split_chars (query_of pairs)))) as Hlen.
  { by rewrite <- (length_split_chars path), Hcs, length_app, length_split_chars. }
  rewrite Hcs.
  replace fuel with (length (split_chars lit) + S (fuel - S (length (split_chars lit))))%nat
    by (rewrite length_split_chars; lia).
  destruct (top_loop_literal (split_chars lit) []
              ("?"%char :: split_chars (query_of pairs))
              (S (fuel - S (length (split_chars lit)))) path
              (mkTopState [] [] [] "" "" 0) [])
    as (pieces & tail & Hsp & E); [done|done|done|apply not_elem_of_nil|].
  simpl in Hsp, E. rewrite E. clear E. simpl.
  rewrite (proj2 (Nat.ltb_lt _ _)) by list_len.
  rewrite !is_char_middle. simpl. unfold extractQueryParamsFromPath.
  replace (split_chars lit ++ "?"%char :: split_chars (query_of pairs))
    with ((split_chars lit ++ ["?"%char]) ++ split_chars (query_of pairs)) by list_eq.
  replace (S (length (split_chars lit))) with (length (split_chars lit ++ ["?"%char]))
    by list_len.
  rewrite q_loop_pairs;
    [|done|rewrite ?length_app, ?length_split_chars in *; simpl; lia].
  simpl.
  destruct (fuel - length (split_chars lit ++ ["?"%char]))%nat as [|f] eqn:Ef;
    [rewrite length_app, length_split_chars in Ef; simpl in Ef; lia|].
  simpl. rewrite (proj2 (Nat.ltb_ge _ _)) by (destruct pairs; list_len).
  simpl. rewrite literal_parts_flush.
  assert (slice path (length (split_chars lit))
            (length (split_chars lit ++ ["?"%char]) + length (split_chars (query_of pairs))
             + match pairs with [] => 0 | _ :: _ => 1 end)
          = "?" +:+ query_of pairs) as ->.
  { unfold slice. rewrite !length_app, !length_split_chars. subst path.
    apply substring_append_r. rewrite length_append. simpl.
    destruct pairs; lia. }
  subst path. rewrite remove_first_query by done.
  unfold segments. by rewrite Hsp.
Qed.


(** X4: a path [lit?n1=t1&...&nk=tk] whose names and types are made of word
    characters, no name being [__proto__].  The scanner returns the query
    parameters set one after the other, each with the one type given,
    neither optional nor an array and without regex; the query path is
    the text after the [?], the url path the text before it, and the
    parts are those of the text before it. *)
Theorem plain_query_parsed (lit : string) (pairs : list (string * string)) (fuel : nat) :
  literal lit = true → forallb word_pair pairs = true →
  forallb (λ p, declarable p.1) pairs = true →
  (String.length (lit +:+ "?" +:+ query_of pairs) + 5 ≤ fuel)%nat →
  extractUrlAndQueryParametersFromPath fuel (lit +:+ "?" +:+ query_of pairs)
  = Some (mkParsed [] (plain_query_params pairs) lit (query_of pairs) (segments lit)).
Proof.
  intros Hlit Hpairs Hdecl Hfuel. rewrite plain_query_scanned by done.
  unfold plain_query_params. by rewrite foldl_assign_declarable.
Qed.

Lemma plain_query_parsed_witness :
  extractUrlAndQueryParametersFromPath 40
    ("/search" +:+ "?" +:+ query_of [("page", "number"); ("sort", "string")])
  = Some (mkParsed [] (plain_query_params [("page", "number"); ("sort", "string")])
            "/search" (query_of [("page", "number"); ("sort", "string")])
            (segments "/search")).
Proof. apply plain_query_parsed; try reflexivity. vm_compute. lia. Defined.

Lemma foldl_assign_filter (pairs : list (string * string)) : ∀ params,
  foldl (λ o p, obj_assign p.1 (mkQueryParam [p.2] false false None) o) params pairs
  = foldl (λ o p, obj_set p.1 (mkQueryParam [p.2] false false None) o) params
          (List.filter (λ p, declarable p.1) pairs).
Proof.
  induction pairs as [|p ps IH]; intros params; [done|]. simpl.
  destruct (declarable p.1) eqn:Hp; simpl.
  - by rewrite obj_assign_declarable, IH.
  - unfold declarable in Hp. apply negb_false_iff in Hp.
    unfold obj_assign at 2. rewrite Hp. apply IH.
Qed.

(** X29: in a query of plain pairs a pair named [__proto__] declares
    nothing: the query parameters are those of the other pairs, set in
    order; the query path still holds the whole text after the [?]. *)
Theorem plain_query_skips_proto (lit : string) (pairs : list (string * string))
    (fuel : nat) :
  literal lit = true → forallb word_pair pairs = true →
  (String.length (lit +:+ "?" +:+ query_of pairs) + 5 ≤ fuel)%nat →
  extractUrlAndQueryParametersFromPath fuel (lit +:+ "?" +:+ query_of pairs)
  = Some (mkParsed []
            (plain_query_params (List.filter (λ p, declarable p.1) pairs))
            lit (query_of pairs) (segments lit)).
Proof.
  intros Hlit Hpairs Hfuel. rewrite plain_query_scanned by done.
  unfold plain_query_params. by rewrite foldl_assign_filter.
Qed.

Lemma plain_query_skips_proto_witness :
  extractUrlAndQueryParametersFromPath 60
    ("/search" +:+ "?" +:+ query_of [("page", "number"); ("__proto__", "string")])
  = Some (mkParsed []
            (plain_query_params
               (List.filter (λ p, declarable p.1)
                  [("page", "number"); ("__proto__", "string")]))
            "/search" (query_of [("page", "number"); ("__proto__", "string")])
            (segments "/search")).
Proof. apply plain_query_skips_proto; try reflexivity. vm_compute. lia. Defined.

Lemma url_loop_never cs index name ty rx (N : nat) :
  (∀ fuel : nat, (N ≤ fuel)%nat → url_loop fuel cs index name ty rx = None) →
  ∀ fuel : nat, url_loop fuel cs index name ty rx = None.
Proof.
  intros HN fuel. destruct (url_loop fuel cs index name ty rx) as [r|] eqn:E; [|done].
  apply (url_loop_mono fuel (fuel `max` N)) in E; [|lia].
  rewrite HN in E by lia. done.
Qed.

(** The type loop at a [{] that no [}] follows. *)
Lemma url_type_loop_open_brace pre (space : bool) rest ty rx (fuel : nat) :
  absent_from "}" 0 rest = true →
  url_type_loop fuel (pre ++ (if space then [" "%char] else []) ++ "{"%char :: rest)
                (length pre) ty rx
  = None.
Proof.
  intros Habs. destruct fuel as [|fuel]; [done|].
  assert (∀ pre' acc, scan_until "}" fuel (pre' ++ "{"%char :: rest) (S (length pre')) acc
                      = None) as Hscan.
  { intros pre' acc. apply scan_until_diverges.
    replace (pre' ++ "{"%char :: rest) with ((pre' ++ ["{"%char]) ++ rest) by list_eq.
    replace (S (length pre')) with (length (pre' ++ ["{"%char])) by list_len.
    by apply absent_from_app. }
  destruct space; simpl.
  - rewrite is_char_middle. simpl. unfold ignoreSpaces. rewrite is_char_middle. simpl.
    replace (pre ++ " "%char :: "{"%char :: rest)
      with ((pre ++ [" "%char]) ++ "{"%char :: rest) by list_eq.
    replace (S (length pre)) with (length (pre ++ [" "%char])) by list_len.
    rewrite !is_char_middle. simpl. by rewrite Hscan.
  - rewrite is_char_middle. simpl. unfold ignoreSpaces.
    rewrite !is_char_middle. simpl. by rewrite Hscan.
Qed.

Lemma url_loop_open_brace pre (w : list ascii) (space : bool) rest :
  forallb is_word w = true → absent_from "}" 0 rest = true →
  ∀ fuel : nat,
    url_loop fuel (pre ++ w ++ ":"%char :: (if space then [" "%char] else [])
                     ++ "{"%char :: rest) (length pre) "" "" ""
    = None.
Proof.
  intros Hw Hbrace.
  set (sp := if space then [" "%char] else []).
  remember (pre ++ w ++ ":"%char :: sp ++ "{"%char :: rest) as cs eqn:Ecs.
  assert (∀ (f : nat) nm ty rx, url_loop f cs (length pre + length w) nm ty rx = None)
    as Hcolon.
  { intros f nm ty rx. destruct f as [|f]; [done|]. simpl.
    assert (∀ c, is_char cs (length pre + length w) c = Ascii.eqb ":" c) as Hat.
    { intros c. subst cs. rewrite app_assoc, <- length_app. apply is_char_middle. }
    unfold ignoreSpaces. rewrite !Hat. simpl.
    subst cs.
    replace (pre ++ w ++ ":"%char :: sp ++ "{"%char :: rest)
      with ((pre ++ w ++ [":"%char]) ++ sp ++ "{"%char :: rest) by list_eq.
    replace (S (length pre + length w)) with (length (pre ++ w ++ [":"%char])) by list_len.
    subst sp. by rewrite url_type_loop_open_brace. }
  apply (url_loop_never _ _ _ _ _ (length w + 2)).
  intros fuel Hfuel. destruct w as [|a w'] eqn:Ew.
  - simpl in Hcolon. rewrite Nat.add_0_r in Hcolon. apply Hcolon.
  - rewrite <- Ew in *. destruct fuel as [|fuel]; [lia|]. simpl.
    assert (is_word a = true) as Ha.
    { rewrite Ew in Hw. simpl in Hw. by apply andb_true_iff in Hw as [? _]. }
    assert (∀ c, is_word c = false → is_char cs (length pre) c = false) as Hat.
    { intros c Hc. subst cs. rewrite Ew. simpl. rewrite is_char_middle.
      by apply is_word_neq. }
    unfold ignoreSpaces. rewrite ?Hat by done. simpl. rewrite ?Hat by done.
    subst cs. rewrite scan_until_run; [|by apply word_chars_plain|lia].
    simpl. apply Hcolon.
Qed.

(** X8: a url parameter whose [{] is followed by no [}], whatever else
    follows, a [>] included: for every amount of fuel the scanner is still
    running. *)
Theorem unclosed_regex_brace_never_returns (lit name rest : string) (space : bool)
    (fuel : nat) :
  literal lit = true → word name = true →
  absent_from "}" 0 (split_chars rest) = true →
  extractUrlAndQueryParametersFromPath fuel
    (lit +:+ "<" +:+ name +:+ ":" +:+ (if space then " " else "") +:+ "{" +:+ rest)
  = None.
Proof.
  intros Hlit Hname Hbrace.
  apply (url_param_never_returns (split_chars lit)
           (split_chars name ++ ":"%char :: (if space then [" "%char] else [])
              ++ "{"%char :: split_chars rest));
    [|done|].
  { rewrite !split_chars_app. destruct space; simpl; list_eq. }
  clear fuel. intros fuel.
  replace (split_chars lit ++ "<"%char :: split_chars name ++ ":"%char ::
             (if space then [" "%char] else []) ++ "{"%char :: split_chars rest)
    with ((split_chars lit ++ ["<"%char]) ++ split_chars name ++ ":"%char ::
             (if space then [" "%char] else []) ++ "{"%char :: split_chars rest)
    by list_eq.
  replace (S (length (split_chars lit))) with (length (split_chars lit ++ ["<"%char]))
    by list_len.
  by apply url_loop_open_brace.
Qed.

Lemma unclosed_regex_brace_never_returns_witness :
  extractUrlAndQueryParametersFromPath 1000
    ("/" +:+ "<" +:+ "code" +:+ ":" +:+ " " +:+ "{" +:+ "^[A-Z]>/x")
  = None.
Proof.
  apply (unclosed_regex_brace_never_returns "/" "code" "^[A-Z]>/x" true); reflexivity.
Defined.

(** X5: a [<] met in literal text and followed by no [>] at all: for every
    amount of fuel the scanner is still running. *)
Theorem unclosed_url_param_never_returns (lit rest : string) (fuel : nat) :
  literal lit = true →
  absent_from ">" 0 (split_chars rest) = true →
  extractUrlAndQueryParametersFromPath fuel (lit +:+ "<" +:+ rest) = None.
Proof.
  intros Hlit Hclose.
  apply (url_param_never_returns (split_chars lit) (split_chars rest)); [|done|].
  { by rewrite !split_chars_app. }
  intros f. apply url_loop_diverges.
  replace (split_chars lit ++ "<"%char :: split_chars rest)
    with ((split_chars lit ++ ["<"%char]) ++ split_chars rest) by list_eq.
  replace (S (length (split_chars lit))) with (length (split_chars lit ++ ["<"%char]))
    by list_len.
  by apply absent_from_app.
Qed.

Lemma unclosed_url_param_never_returns_witness :
  extractUrlAndQueryParametersFromPath 1000 ("/users/" +:+ "<" +:+ "id: number") = None.
Proof. apply unclosed_url_param_never_returns; reflexivity. Defined.

(** *** One query parameter with a marker or a list of alternatives *)

Lemma is_char_past (cs : list ascii) (index : nat) c :
  (length cs ≤ index)%nat → is_char cs index c = false.
Proof. intros H. unfold is_char, at_. by rewrite lookup_ge_None_2. Qed.

(** The type loop over word characters, whatever follows them. *)
Lemma q_type_loop_run (t : list ascii) : ∀ pre suf nm ty rx tys arr opt (fuel : nat),
  forallb is_word t = true →
  q_type_loop (length t + fuel) (pre ++ t ++ suf)
    (mkQState (length pre) nm ty rx tys arr opt)
  = q_type_loop fuel (pre ++ t ++ suf)
      (mkQState (length pre + length t) nm (ty +:+ string_of_list_ascii t) rx tys arr opt).
Proof.
  induction t as [|a t IH]; intros pre suf nm ty rx tys arr opt fuel Ht.
  - simpl. by rewrite Nat.add_0_r, append_empty_r.
  - simpl in Ht. apply andb_true_iff in Ht as [Ha Ht].
    cbn [length Nat.add q_type_loop q_index q_name q_type q_regex q_types q_isArray
         q_isOptional app].
    rewrite hasNotReached_word by done.
    unfold ignoreSpaces. rewrite is_char_middle, (is_word_neq a " ") by done.
    rewrite !is_char_middle.
    rewrite (is_word_neq a "?"), (is_word_neq a "["), (is_word_neq a "(") by done.
    rewrite at_middle. simpl andb. cbv iota.
    replace (pre ++ a :: t ++ suf) with ((pre ++ [a]) ++ t ++ suf) by list_eq.
    replace (S (length pre)) with (length (pre ++ [a])) by list_len.
    rewrite IH by done. rewrite append_add. do 2 f_equal. list_len.
Qed.

(** [t1?t2]: the marker sets the flag, the type is read on both sides. *)
Lemma q_type_loop_optional (t1 t2 pre : list ascii) nm ty rx tys arr opt (fuel : nat) :
  forallb is_word t1 = true → forallb is_word t2 = true →
  (length t1 + length t2 + 2 ≤ fuel)%nat →
  q_type_loop fuel (pre ++ t1 ++ "?"%char :: t2)
    (mkQState (length pre) nm ty rx tys arr opt)
  = Some (mkQState (length (pre ++ t1 ++ "?"%char :: t2)) nm
            ((ty +:+ string_of_list_ascii t1) +:+ string_of_list_ascii t2)
            rx tys arr true).
Proof.
  intros H1 H2 Hfuel.
  replace fuel with (length t1 + S (fuel - S (length t1)))%nat by lia.
  rewrite q_type_loop_run by done.
  cbn [q_type_loop q_index q_name q_type q_regex q_types q_isArray q_isOptional].
  replace (pre ++ t1 ++ "?"%char :: t2) with ((pre ++ t1) ++ "?"%char :: t2) by list_eq.
  replace (length pre + length t1)%nat with (length (pre ++ t1)) by list_len.
  unfold hasNotReachedEndOrNextQueryParam at 1. rewrite is_char_middle.
  rewrite (proj2 (Nat.ltb_lt _ _)) by list_len.
  unfold ignoreSpaces. rewrite !is_char_middle. simpl.
  replace ((pre ++ t1) ++ "?"%char :: t2) with (((pre ++ t1) ++ ["?"%char]) ++ t2 ++ [])
    by (rewrite app_nil_r; list_eq).
  replace (S (length (pre ++ t1))) with (length ((pre ++ t1) ++ ["?"%char])) by list_len.
  rewrite q_type_loop_word; [|done|by left|lia].
  f_equal. f_equal. list_len.
Qed.

Lemma ignoreSpaces_middle (pre : list ascii) a suf :
  Ascii.eqb a " " = false → ignoreSpaces (pre ++ a :: suf) (length pre) = length pre.
Proof. intros Ha. unfold ignoreSpaces. by rewrite is_char_middle, Ha. Qed.

(** One turn of the type loop on [[]]: three positions further. *)
Lemma q_type_loop_brackets (pre suf : list ascii) nm ty rx tys arr opt (fuel : nat) :
  q_type_loop (S fuel) (pre ++ "["%char :: "]"%char :: suf)
    (mkQState (length pre) nm ty rx tys arr opt)
  = q_type_loop fuel (pre ++ "["%char :: "]"%char :: suf)
      (mkQState (length pre + 3) nm ty rx tys true opt).
Proof.
  cbn [q_type_loop q_index q_name q_type q_regex q_types q_isArray q_isOptional].
  unfold hasNotReachedEndOrNextQueryParam at 1. rewrite is_char_middle.
  rewrite (proj2 (Nat.ltb_lt _ _)) by list_len.
  rewrite ignoreSpaces_middle by done. rewrite !is_char_middle. simpl Ascii.eqb. cbv iota.
  replace (is_char (pre ++ "["%char :: "]"%char :: suf) (S (length pre)) "]") with true.
  2:{ replace (pre ++ "["%char :: "]"%char :: suf)
        with ((pre ++ ["["%char]) ++ "]"%char :: suf) by list_eq.
      replace (S (length pre)) with (length (pre ++ ["["%char])) by list_len.
      by rewrite is_char_middle. }
  simpl andb. cbv iota. do 2 f_equal. lia.
Qed.

(** [t1[]] and no more: the index ends past the end of the path. *)
Lemma q_type_loop_array_end (t1 pre : list ascii) nm ty rx tys arr opt (fuel : nat) :
  forallb is_word t1 = true → (length t1 + 2 ≤ fuel)%nat →
  q_type_loop fuel (pre ++ t1 ++ ["["; "]"]%char)
    (mkQState (length pre) nm ty rx tys arr opt)
  = Some (mkQState (S (length (pre ++ t1 ++ ["["; "]"]%char))) nm
            (ty +:+ string_of_list_ascii t1) rx tys true opt).
Proof.
  intros H1 Hfuel.
  replace fuel with (length t1 + S (S (fuel - S (S (length t1)))))%nat by lia.
  rewrite q_type_loop_run by done.
  replace (pre ++ t1 ++ ["["; "]"]%char) with ((pre ++ t1) ++ "["%char :: "]"%char :: [])
    by list_eq.
  replace (length pre + length t1)%nat with (length (pre ++ t1)) by list_len.
  rewrite q_type_loop_brackets.
  cbn [q_type_loop q_index q_name q_type q_regex q_types q_isArray q_isOptional].
  unfold hasNotReachedEndOrNextQueryParam.
  rewrite (proj2 (Nat.ltb_ge _ _)) by list_len.
  rewrite andb_false_r. f_equal. f_equal. list_len.
Qed.

(** [t1[]cw]: the character after the brackets is stepped over, whatever
    it is. *)
Lemma q_type_loop_array (t1 w pre : list ascii) c nm ty rx tys arr opt (fuel : nat) :
  forallb is_word t1 = true → forallb is_word w = true →
  (length t1 + length w + 3 ≤ fuel)%nat →
  q_type_loop fuel (pre ++ t1 ++ "["%char :: "]"%char :: c :: w)
    (mkQState (length pre) nm ty rx tys arr opt)
  = Some (mkQState (length (pre ++ t1 ++ "["%char :: "]"%char :: c :: w)) nm
            ((ty +:+ string_of_list_ascii t1) +:+ string_of_list_ascii w) rx tys true opt).
Proof.
  intros H1 Hw Hfuel.
  replace fuel with (length t1 + S (fuel - S (length t1)))%nat by lia.
  rewrite q_type_loop_run by done.
  replace (pre ++ t1 ++ "["%char :: "]"%char :: c :: w)
    with ((pre ++ t1) ++ "["%char :: "]"%char :: c :: w) by list_eq.
  replace (length pre + length t1)%nat with (length (pre ++ t1)) by list_len.
  rewrite q_type_loop_brackets.
  replace ((pre ++ t1) ++ "["%char :: "]"%char :: c :: w)
    with (((pre ++ t1) ++ ["["; "]"; c]%char) ++ w ++ []) by (rewrite app_nil_r; list_eq).
  replace (length (pre ++ t1) + 3)%nat with (length ((pre ++ t1) ++ ["["; "]"; c]%char))
    by list_len.
  rewrite q_type_loop_word; [|done|by left|lia].
  f_equal. f_equal. list_len.
Qed.

(** The loop over a pair on [name=...], given what the type loop makes of
    what follows the [=]. *)
Lemma q_pair_loop_named (n : list ascii) : ∀ pre body nm q' (G fuel : nat),
  forallb is_word n = true →
  is_char (pre ++ n ++ "="%char :: body) (S (length pre + length n)) "{" = false →
  is_char (pre ++ n ++ "="%char :: body) (S (length pre + length n)) ":" = false →
  (∀ g : nat, (G ≤ g)%nat →
     q_type_loop g (pre ++ n ++ "="%char :: body)
       (mkQState (S (length pre + length n)) (nm +:+ string_of_list_ascii n)
                 "" "" [] false false)
     = Some q') →
  hasNotReachedEndOrNextQueryParam (pre ++ n ++ "="%char :: body) (q_index q') = false →
  (G + length n + 2 ≤ fuel)%nat →
  q_pair_loop fuel (pre ++ n ++ "="%char :: body)
    (mkQState (length pre) nm "" "" [] false false)
  = Some q'.
Proof.
  induction n as [|a n IH]; intros pre body nm q' G fuel Hn Hbrace Hcolon Hty Hend Hfuel.
  - destruct fuel as [|fuel]; [simpl in Hfuel; lia|]. simpl in *.
    rewrite Nat.add_0_r in *. rewrite append_empty_r in Hty.
    unfold hasNotReachedEndOrNextQueryParam at 1.
    rewrite is_char_middle. simpl.
    rewrite (proj2 (Nat.ltb_lt _ _)) by list_len.
    unfold ignoreSpaces. rewrite !is_char_middle. simpl.
    rewrite Hbrace. simpl. rewrite Hcolon. rewrite Hty by lia. simpl.
    destruct fuel as [|fuel]; [lia|]. simpl. by rewrite Hend.
  - destruct fuel as [|fuel]; [simpl in Hfuel; lia|]. simpl in Hn.
    apply andb_true_iff in Hn as [Ha Hn].
    cbn [q_pair_loop q_index q_name q_type q_regex q_types q_isArray q_isOptional app].
    rewrite hasNotReached_word by done. unfold ignoreSpaces.
    rewrite is_char_middle, (is_word_neq a " ") by done.
    rewrite !is_char_middle, (is_word_neq a "&"), (is_word_neq a "="), at_middle by done.
    change ((a :: n) ++ "="%char :: body) with (a :: n ++ "="%char :: body) in *.
    replace (pre ++ a :: n ++ "="%char :: body)
      with ((pre ++ [a]) ++ n ++ "="%char :: body) in * by list_eq.
    replace (S (length pre)) with (length (pre ++ [a])) by list_len.
    apply (IH _ _ _ _ G).
    + done.
    + etransitivity; [|exact Hbrace]. f_equal. rewrite length_app. simpl. lia.
    + etransitivity; [|exact Hcolon]. f_equal. rewrite length_app. simpl. lia.
    + intros g Hg. etransitivity; [|exact (Hty g Hg)]. f_equal. f_equal; [rewrite length_app; simpl; lia|].
      by rewrite append_add.
    + done.
    + simpl in Hfuel. lia.
Qed.

(** A path [lit?body] with one query parameter, given what the loop over
    a pair makes of [body]. *)
Lemma one_query_param_parsed path (lit body : list ascii) q' (G fuel : nat) :
  split_chars path = lit ++ "?"%char :: body →
  literal_chars lit = true → body ≠ [] →
  (∀ g : nat, (G ≤ g)%nat →
     q_pair_loop g (lit ++ "?"%char :: body)
       (mkQState (S (length lit)) "" "" "" [] false false)
     = Some q') →
  (length (lit ++ "?"%char :: body) ≤ S (q_index q'))%nat →
  (length lit + G + 3 ≤ fuel)%nat →
  extractUrlAndQueryParametersFromPath fuel path
  = Some (mkParsed []
            (obj_assign (q_name q')
               (mkQueryParam
                  (if (length (q_types q') =? 0)%nat then q_types q' ++ [q_type q']
                   else q_types q')
                  (q_isOptional q') (q_isArray q')
                  (if String.eqb (q_regex q') "" then None else Some (q_regex q')))
               [])
            (string_of_list_ascii lit) (string_of_list_ascii body)
            (literal_parts (split_on "/" lit))).
Proof.
  intros Hcs Hlit Hbody Hpair Hend Hfuel.
  unfold extractUrlAndQueryParametersFromPath. rewrite Hcs.
  replace fuel with (length lit + S (fuel - S (length lit)))%nat by lia.
  destruct (top_loop_literal lit [] ("?"%char :: body) (S (fuel - S (length lit))) path
              (mkTopState [] [] [] "" "" 0) [])
    as (pieces & tail & Hsp & E); [done|done|done|apply not_elem_of_nil|].
  simpl in Hsp, E. rewrite E. clear E.
  cbn [top_loop t_index].
  rewrite (proj2 (Nat.ltb_lt _ _)) by list_len.
  rewrite !is_char_middle. simpl Ascii.eqb. cbv iota.
  unfold extractQueryParamsFromPath.
  destruct (fuel - S (length lit))%nat as [|f] eqn:Ef; [lia|].
  cbn [q_loop t_queryParams].
  destruct body as [|b body']; [done|].
  rewrite (proj2 (Nat.ltb_lt _ _)) by list_len.
  rewrite Hpair by lia.
  cbn [mbind option_bind].
  destruct f as [|f]; [lia|].
  cbn [q_loop]. rewrite (proj2 (Nat.ltb_ge _ _)) by lia.
  cbn [mbind option_bind top_loop t_index].
  rewrite (proj2 (Nat.ltb_ge _ _)) by lia.
  cbn [mbind option_bind t_partOfPath t_parts t_urlParams t_queryParams t_queryPath].
  rewrite literal_parts_flush, <- Hsp.
  assert (path = string_of_list_ascii lit +:+ String "?" (string_of_list_ascii (b :: body')))
    as Hpath.
  { rewrite <- (string_of_split_chars path), Hcs.
    clear. induction lit as [|a lit IH]; [done|]. simpl. by rewrite IH. }
  assert (slice path (length lit) (S (q_index q'))
          = String "?" (string_of_list_ascii (b :: body'))) as ->.
  { unfold slice. rewrite Hpath.
    replace (length lit) with (String.length (string_of_list_ascii lit))
      by (by rewrite <- length_split_chars, split_chars_of_list).
    apply substring_append_r.
    rewrite <- (length_split_chars (String _ _)).
    change (split_chars (String "?" (string_of_list_ascii (b :: body'))))
      with ("?"%char :: split_chars (string_of_list_ascii (b :: body'))).
    rewrite split_chars_of_list.
    rewrite <- length_split_chars, split_chars_of_list.
    rewrite length_app in Hend. simpl in Hend |- *. lia. }
  cbn [strip_question].
  rewrite Hpath at 1.
  change (String "?" (string_of_list_ascii (b :: body')))
    with ("?" +:+ string_of_list_ascii (b :: body')).
  rewrite (remove_first_query (string_of_list_ascii lit)).
  - done.
  - unfold literal. by rewrite split_chars_of_list.
Qed.

(** The loop inside the parentheses over word characters. *)
Lemma q_paren_loop_run (t : list ascii) : ∀ pre suf ty tys (fuel : nat),
  forallb is_word t = true →
  q_paren_loop (length t + fuel) (pre ++ t ++ suf) (length pre) ty tys
  = q_paren_loop fuel (pre ++ t ++ suf) (length pre + length t)
      (ty +:+ string_of_list_ascii t) tys.
Proof.
  induction t as [|a t IH]; intros pre suf ty tys fuel Ht.
  - simpl. by rewrite Nat.add_0_r, append_empty_r.
  - simpl in Ht. apply andb_true_iff in Ht as [Ha Ht].
    cbn [length Nat.add q_paren_loop app].
    rewrite is_char_middle, (is_word_neq a ")") by done.
    rewrite (proj2 (Nat.ltb_lt _ _)) by list_len. simpl andb. cbv iota.
    rewrite ignoreSpaces_middle by (by apply is_word_neq).
    rewrite is_char_middle, (is_word_neq a "|"), at_middle by done.
    replace (pre ++ a :: t ++ suf) with ((pre ++ [a]) ++ t ++ suf) by list_eq.
    replace (S (length pre)) with (length (pre ++ [a])) by list_len.
    rewrite IH by done. rewrite append_add. f_equal. list_len.
Qed.

Lemma split_chars_join_cons a alts :
  split_chars (join "|" (a :: alts))
  = split_chars a ++
      match alts with
      | [] => []
      | _ :: _ => "|"%char :: split_chars (join "|" alts)
      end.
Proof.
  destruct alts as [|b alts]; [by rewrite app_nil_r|].
  change (join "|" (a :: b :: alts)) with (a +:+ "|" +:+ join "|" (b :: alts)).
  by rewrite !split_chars_app.
Qed.

(** The loop inside the parentheses over alternatives: it stops on the
    [)] with the last one in hand and the others pushed. *)
Lemma q_paren_loop_alts (alts : list string) : ∀ a pre suf ty tys (fuel : nat),
  word a = true → forallb word alts = true →
  (length (split_chars (join "|" (a :: alts))) < fuel)%nat →
  ∃ init final,
    (ty +:+ a) :: alts = init ++ [final] ∧
    q_paren_loop fuel (pre ++ split_chars (join "|" (a :: alts)) ++ ")"%char :: suf)
      (length pre) ty tys
    = Some ((length pre + length (split_chars (join "|" (a :: alts))))%nat,
            final, tys ++ init).
Proof.
  induction alts as [|b alts IH]; intros a pre suf ty tys fuel Ha Halts Hfuel;
    rewrite split_chars_join_cons in *.
  - exists [], (ty +:+ a). split; [done|]. rewrite app_nil_r in *.
    replace fuel with (length (split_chars a) + S (fuel - S (length (split_chars a))))%nat
      by lia.
    rewrite q_paren_loop_run by done.
    cbn [q_paren_loop].
    replace (pre ++ split_chars a ++ ")"%char :: suf)
      with ((pre ++ split_chars a) ++ ")"%char :: suf) by list_eq.
    replace (length pre + length (split_chars a))%nat with (length (pre ++ split_chars a))
      by list_len.
    rewrite is_char_middle. simpl. by rewrite string_of_split_chars, app_nil_r.
  - simpl in Halts. apply andb_true_iff in Halts as [Hb Halts].
    rewrite length_app in Hfuel. cbn [length] in Hfuel.
    replace (pre ++ (split_chars a ++ "|"%char :: split_chars (join "|" (b :: alts)))
               ++ ")"%char :: suf)
      with (pre ++ split_chars a
              ++ ("|"%char :: split_chars (join "|" (b :: alts)) ++ ")"%char :: suf))
      by list_eq.
    replace fuel with (length (split_chars a) + S (fuel - S (length (split_chars a))))%nat
      by lia.
    rewrite q_paren_loop_run by done.
    cbn [q_paren_loop].
    replace (pre ++ split_chars a
               ++ ("|"%char :: split_chars (join "|" (b :: alts)) ++ ")"%char :: suf))
      with ((pre ++ split_chars a)
              ++ "|"%char :: split_chars (join "|" (b :: alts)) ++ ")"%char :: suf)
      by list_eq.
    replace (length pre + length (split_chars a))%nat with (length (pre ++ split_chars a))
      by list_len.
    rewrite is_char_middle.
    rewrite (proj2 (Nat.ltb_lt _ _)) by list_len. simpl andb. cbv iota.
    rewrite ignoreSpaces_middle by done. rewrite is_char_middle. simpl Ascii.eqb. cbv iota.
    replace ((pre ++ split_chars a)
               ++ "|"%char :: split_chars (join "|" (b :: alts)) ++ ")"%char :: suf)
      with (((pre ++ split_chars a) ++ ["|"%char])
              ++ split_chars (join "|" (b :: alts)) ++ ")"%char :: suf)
      by list_eq.
    replace (S (length (pre ++ split_chars a)))
      with (length ((pre ++ split_chars a) ++ ["|"%char])) by list_len.
    destruct (IH b ((pre ++ split_chars a) ++ ["|"%char]) suf ""
                (tys ++ [ty +:+ string_of_list_ascii (split_chars a)])
                (fuel - S (length (split_chars a)))%nat)
      as (init & final & Hsplit & E); [done|done|lia|].
    exists ((ty +:+ a) :: init), final. split.
    + change ("" +:+ b) with b in Hsplit. by rewrite Hsplit.
    + rewrite E. rewrite string_of_split_chars. f_equal. f_equal; [f_equal; list_len|].
      by rewrite <- app_assoc.
Qed.

(** [t1(a|...)]: each alternative is pushed, the first with what was read
    before the parenthesis. *)
Lemma q_type_loop_union (t1 pre : list ascii) a alts nm ty rx tys arr opt (fuel : nat) :
  forallb is_word t1 = true → word a = true → forallb word alts = true →
  (length t1 + length (split_chars (join "|" (a :: alts))) + 3 ≤ fuel)%nat →
  q_type_loop fuel
    (pre ++ t1 ++ "("%char :: split_chars (join "|" (a :: alts)) ++ [")"%char])
    (mkQState (length pre) nm ty rx tys arr opt)
  = Some (mkQState
            (length (pre ++ t1 ++ "("%char
                       :: split_chars (join "|" (a :: alts)) ++ [")"%char]))
            nm (default "" (last (((ty +:+ string_of_list_ascii t1) +:+ a) :: alts))) rx
            (tys ++ ((ty +:+ string_of_list_ascii t1) +:+ a) :: alts) arr opt).
Proof.
  intros H1 Ha Halts Hfuel.
  set (J := split_chars (join "|" (a :: alts))) in *.
  assert (Ascii.eqb (default ")"%char (head (J ++ [")"%char]))) " " = false) as Hhead.
  { subst J. rewrite split_chars_join_cons.
    unfold word in Ha. destruct (split_chars a) as [|x xs]; simpl in *.
    - by destruct alts.
    - apply andb_true_iff in Ha as [Hx _]. by apply is_word_neq. }
  replace fuel with (length t1 + S (fuel - S (length t1)))%nat by lia.
  rewrite q_type_loop_run by done.
  cbn [q_type_loop q_index q_name q_type q_regex q_types q_isArray q_isOptional].
  replace (pre ++ t1 ++ "("%char :: J ++ [")"%char])
    with ((pre ++ t1) ++ "("%char :: J ++ [")"%char]) by list_eq.
  replace (length pre + length t1)%nat with (length (pre ++ t1)) by list_len.
  unfold hasNotReachedEndOrNextQueryParam at 1. rewrite is_char_middle.
  rewrite (proj2 (Nat.ltb_lt _ _)) by list_len.
  rewrite ignoreSpaces_middle by done. rewrite !is_char_middle. simpl Ascii.eqb.
  simpl andb. cbv iota.
  replace ((pre ++ t1) ++ "("%char :: J ++ [")"%char])
    with (((pre ++ t1) ++ ["("%char]) ++ J ++ ")"%char :: []) by list_eq.
  replace (S (length (pre ++ t1))) with (length ((pre ++ t1) ++ ["("%char])) by list_len.
  assert (ignoreSpaces (((pre ++ t1) ++ ["("%char]) ++ J ++ [")"%char])
            (length ((pre ++ t1) ++ ["("%char]))
          = length ((pre ++ t1) ++ ["("%char])) as ->.
  { destruct (J ++ [")"%char]) as [|x xs] eqn:EJ; [by destruct J|].
    by apply ignoreSpaces_middle. }
  destruct (q_paren_loop_alts alts a ((pre ++ t1) ++ ["("%char]) []
              (ty +:+ string_of_list_ascii t1) tys (fuel - S (length t1))%nat)
    as (init & final & Hsplit & E); [done|done|fold J; lia|].
  fold J in E. rewrite E. cbn [mbind option_bind].
  replace (((pre ++ t1) ++ ["("%char]) ++ J ++ [")"%char])
    with ((((pre ++ t1) ++ ["("%char]) ++ J) ++ ")"%char :: []) by list_eq.
  replace (length ((pre ++ t1) ++ ["("%char]) + length J)%nat
    with (length (((pre ++ t1) ++ ["("%char]) ++ J)) by list_len.
  rewrite is_char_middle. simpl Ascii.eqb. cbv iota.
  destruct (fuel - S (length t1))%nat as [|f] eqn:Ef; [lia|].
  cbn [q_type_loop q_index q_name q_type q_regex q_types q_isArray q_isOptional].
  unfold hasNotReachedEndOrNextQueryParam.
  rewrite (proj2 (Nat.ltb_ge _ _)) by list_len.
  rewrite andb_false_r. f_equal. rewrite Hsplit, last_snoc.
  f_equal; [list_len|by rewrite <- app_assoc].
Qed.

(** A path [lit?name=body] with one query parameter, given what the type
    loop makes of [body]. *)
Lemma one_marked_query_param path lit name (body : list ascii) ty tys arr opt
    (G fuel : nat) :
  split_chars path = split_chars lit ++ "?"%char :: split_chars name ++ "="%char :: body →
  literal lit = true → word name = true → declarable name = true →
  match body with
  | [] => true
  | x :: _ => negb (Ascii.eqb x "{") && negb (Ascii.eqb x ":")
  end = true →
  (∀ pre : list ascii,
     ∃ i : nat, (length (pre ++ body) ≤ i)%nat ∧
       q_type_loop G (pre ++ body) (mkQState (length pre) name "" "" [] false false)
       = Some (mkQState i name ty "" tys arr opt)) →
  (String.length path + G + 5 ≤ fuel)%nat →
  extractUrlAndQueryParametersFromPath fuel path
  = Some (mkParsed []
            [(name,
              mkQueryParam (if (length tys =? 0)%nat then tys ++ [ty] else tys)
                           opt arr None)]
            lit (string_of_list_ascii (split_chars name ++ "="%char :: body))
            (segments lit)).
Proof.
  intros Hcs Hlit Hname Hdecl Hfirst Hty Hfuel.
  set (pre := (split_chars lit ++ ["?"%char]) ++ split_chars name ++ ["="%char]).
  destruct (Hty pre) as (i & Hi & E).
  assert (length (split_chars path) = length (pre ++ body)) as Hlen.
  { rewrite Hcs. subst pre. list_len. }
  rewrite length_split_chars in Hlen.
  assert (split_chars lit ++ "?"%char :: split_chars name ++ "="%char :: body = pre ++ body)
    as Hshape by (subst pre; list_eq).
  assert (length pre = length (split_chars lit) + length (split_chars name) + 2)%nat
    as Hpre by (subst pre; list_len).
  rewrite (one_query_param_parsed path (split_chars lit)
             (split_chars name ++ "="%char :: body)
             (mkQState i name ty "" tys arr opt) (G + length (split_chars name) + 2)).
  - cbn [q_name q_type q_regex q_types q_isArray q_isOptional String.eqb].
    by rewrite obj_assign_declarable, obj_set_empty, string_of_split_chars.
  - done.
  - done.
  - by destruct (split_chars name).
  - intros g Hg.
    replace (split_chars lit ++ "?"%char :: split_chars name ++ "="%char :: body)
      with ((split_chars lit ++ ["?"%char]) ++ split_chars name ++ "="%char :: body)
      by list_eq.
    replace (S (length (split_chars lit))) with (length (split_chars lit ++ ["?"%char]))
      by list_len.
    assert ((split_chars lit ++ ["?"%char]) ++ split_chars name ++ "="%char :: body
            = pre ++ body) as Hshape' by (subst pre; list_eq).
    assert (S (length (split_chars lit ++ ["?"%char]) + length (split_chars name))
            = length pre) as Hidx by (subst pre; list_len).
    apply (q_pair_loop_named _ _ _ _ _ G).
    + done.
    + rewrite Hshape', Hidx. destruct body as [|x body].
      * apply is_char_past. by rewrite app_nil_r.
      * rewrite is_char_middle. apply andb_true_iff in Hfirst as [Hx _].
        by apply negb_true_iff.
    + rewrite Hshape', Hidx. destruct body as [|x body].
      * apply is_char_past. by rewrite app_nil_r.
      * rewrite is_char_middle. apply andb_true_iff in Hfirst as [_ Hx].
        by apply negb_true_iff.
    + intros g' Hg'. rewrite Hshape', Hidx.
      change ("" +:+ string_of_list_ascii (split_chars name))
        with (string_of_list_ascii (split_chars name)).
      rewrite string_of_split_chars.
      by apply (q_type_loop_mono G g').
    + rewrite Hshape'. unfold hasNotReachedEndOrNextQueryParam. cbn [q_index].
      rewrite (proj2 (Nat.ltb_ge _ _)) by lia. by rewrite andb_false_r.
    + lia.
  - rewrite Hshape. cbn [q_index]. lia.
  - rewrite length_app in Hlen. lia.
Qed.

Ltac len_in H := repeat first [rewrite length_app in H | progress cbn [length] in H].

Ltac chars_eq :=
  rewrite ?split_chars_app; repeat (rewrite <- app_assoc; simpl); done.

Ltac text_eq :=
  match goal with
  | |- string_of_list_ascii ?l = ?s =>
      rewrite <- (string_of_split_chars s); f_equal; symmetry; chars_eq
  end.

(** X24: a [?] in the type of a query parameter marks it optional and is
    left out of the type, which is read on both sides of it (for a name
    other than [__proto__]). *)
Theorem optional_query_param (lit name t1 t2 : string) (fuel : nat) :
  literal lit = true → word name = true → declarable name = true →
  word t1 = true → word t2 = true →
  (2 * String.length (lit +:+ "?" +:+ name +:+ "=" +:+ t1 +:+ "?" +:+ t2) + 7 ≤ fuel)%nat →
  extractUrlAndQueryParametersFromPath fuel
    (lit +:+ "?" +:+ name +:+ "=" +:+ t1 +:+ "?" +:+ t2)
  = Some (mkParsed [] [(name, mkQueryParam [t1 +:+ t2] true false None)]
            lit (name +:+ "=" +:+ t1 +:+ "?" +:+ t2) (segments lit)).
Proof.
  intros Hlit Hname Hdecl H1 H2 Hfuel.
  set (path := lit +:+ "?" +:+ name +:+ "=" +:+ t1 +:+ "?" +:+ t2) in *.
  assert (split_chars path
          = split_chars lit ++ "?"%char :: split_chars name ++ "="%char
              :: split_chars t1 ++ "?"%char :: split_chars t2) as Hcs
    by (subst path; chars_eq).
  assert (String.length path
          = length (split_chars lit ++ "?"%char :: split_chars name ++ "="%char
                      :: split_chars t1 ++ "?"%char :: split_chars t2)) as Hlen
    by (by rewrite <- Hcs, length_split_chars).
  len_in Hlen.
  rewrite (one_marked_query_param path lit name
             (split_chars t1 ++ "?"%char :: split_chars t2) (t1 +:+ t2) [] false true
             (length (split_chars t1) + length (split_chars t2) + 2)).
  - do 2 f_equal. subst path. text_eq.
  - done.
  - done.
  - done.
  - done.
  - unfold word in H1. destruct (split_chars t1) as [|x xs]; [done|].
    simpl in H1. apply andb_true_iff in H1 as [Hx _].
    simpl. by rewrite !(is_word_neq x) by done.
  - intros pre. eexists. split; [reflexivity|].
    rewrite q_type_loop_optional by done.
    change ("" +:+ string_of_list_ascii (split_chars t1))
      with (string_of_list_ascii (split_chars t1)).
    by rewrite !string_of_split_chars.
  - lia.
Qed.

Lemma optional_query_param_witness :
  extractUrlAndQueryParametersFromPath 60 ("/users" +:+ "?" +:+ "page" +:+ "=" +:+ "number" +:+ "?" +:+ "")
  = Some (mkParsed [] [("page", mkQueryParam ["number" +:+ ""] true false None)]
            "/users" ("page" +:+ "=" +:+ "number" +:+ "?" +:+ "") (segments "/users")).
Proof. apply optional_query_param; try reflexivity. vm_compute. lia. Defined.

(** X25: [[]] after the type of a query parameter marks it an array; the
    character that follows the brackets is stepped over, whatever it is,
    and what comes after it is read into the type (for a name other than
    [__proto__]). *)
Theorem array_query_param (lit name t1 rest : string) (fuel : nat) :
  literal lit = true → word name = true → declarable name = true →
  word t1 = true → word (after_first rest) = true →
  (2 * String.length (lit +:+ "?" +:+ name +:+ "=" +:+ t1 +:+ "[]" +:+ rest) + 7 ≤ fuel)%nat →
  extractUrlAndQueryParametersFromPath fuel
    (lit +:+ "?" +:+ name +:+ "=" +:+ t1 +:+ "[]" +:+ rest)
  = Some (mkParsed [] [(name, mkQueryParam [t1 +:+ after_first rest] false true None)]
            lit (name +:+ "=" +:+ t1 +:+ "[]" +:+ rest) (segments lit)).
Proof.
  intros Hlit Hname Hdecl H1 Hrest Hfuel.
  set (path := lit +:+ "?" +:+ name +:+ "=" +:+ t1 +:+ "[]" +:+ rest) in *.
  assert (split_chars path
          = split_chars lit ++ "?"%char :: split_chars name ++ "="%char
              :: split_chars t1 ++ "["%char :: "]"%char :: split_chars rest) as Hcs
    by (subst path; chars_eq).
  assert (String.length path
          = length (split_chars lit ++ "?"%char :: split_chars name ++ "="%char
                      :: split_chars t1 ++ "["%char :: "]"%char :: split_chars rest))
    as Hlen by (by rewrite <- Hcs, length_split_chars).
  len_in Hlen.
  rewrite (one_marked_query_param path lit name
             (split_chars t1 ++ "["%char :: "]"%char :: split_chars rest)
             (t1 +:+ after_first rest) [] true false
             (length (split_chars t1) + length (split_chars rest) + 3)).
  - do 2 f_equal. subst path. text_eq.
  - done.
  - done.
  - done.
  - done.
  - unfold word in H1. destruct (split_chars t1) as [|x xs]; [done|].
    simpl in H1. apply andb_true_iff in H1 as [Hx _].
    simpl. by rewrite !(is_word_neq x) by done.
  - intros pre. destruct rest as [|c w].
    + exists (S (length (pre ++ split_chars t1 ++ ["["; "]"]%char))). split; [simpl; lia|].
      change (split_chars "") with (@nil ascii).
      rewrite q_type_loop_array_end; [|done|simpl; lia].
      change ("" +:+ string_of_list_ascii (split_chars t1))
        with (string_of_list_ascii (split_chars t1)).
      rewrite string_of_split_chars. simpl after_first.
      by rewrite append_empty_r.
    + eexists. split; [reflexivity|].
      change (split_chars (String c w)) with (c :: split_chars w).
      rewrite q_type_loop_array; [|done|done|simpl; lia].
      change ("" +:+ string_of_list_ascii (split_chars t1))
        with (string_of_list_ascii (split_chars t1)).
      by rewrite !string_of_split_chars.
  - lia.
Qed.

Lemma array_query_param_witness :
  extractUrlAndQueryParametersFromPath 60
    ("/users" +:+ "?" +:+ "ids" +:+ "=" +:+ "number" +:+ "[]" +:+ "&x")
  = Some (mkParsed [] [("ids", mkQueryParam ["number" +:+ after_first "&x"] false true None)]
            "/users" ("ids" +:+ "=" +:+ "number" +:+ "[]" +:+ "&x") (segments "/users")).
Proof. apply array_query_param; try reflexivity. vm_compute. lia. Defined.

(** X26: alternatives between parentheses become the types of the query
    parameter, in order; what was read before the parenthesis is part of
    the first one (for a name other than [__proto__]). *)
Theorem union_query_param (lit name t1 a : string) (alts : list string) (fuel : nat) :
  literal lit = true → word name = true → declarable name = true →
  word t1 = true → word a = true → forallb word alts = true →
  (2 * String.length
         (lit +:+ "?" +:+ name +:+ "=" +:+ t1 +:+ "(" +:+ join "|" (a :: alts) +:+ ")")
   + 7 ≤ fuel)%nat →
  extractUrlAndQueryParametersFromPath fuel
    (lit +:+ "?" +:+ name +:+ "=" +:+ t1 +:+ "(" +:+ join "|" (a :: alts) +:+ ")")
  = Some (mkParsed [] [(name, mkQueryParam ((t1 +:+ a) :: alts) false false None)]
            lit (name +:+ "=" +:+ t1 +:+ "(" +:+ join "|" (a :: alts) +:+ ")")
            (segments lit)).
Proof.
  intros Hlit Hname Hdecl H1 Ha Halts Hfuel.
  set (J := join "|" (a :: alts)) in *.
  set (path := lit +:+ "?" +:+ name +:+ "=" +:+ t1 +:+ "(" +:+ J +:+ ")") in *.
  assert (split_chars path
          = split_chars lit ++ "?"%char :: split_chars name ++ "="%char
              :: split_chars t1 ++ "("%char :: split_chars J ++ [")"%char]) as Hcs
    by (subst path; chars_eq).
  assert (String.length path
          = length (split_chars lit ++ "?"%char :: split_chars name ++ "="%char
                      :: split_chars t1 ++ "("%char :: split_chars J ++ [")"%char]))
    as Hlen by (by rewrite <- Hcs, length_split_chars).
  len_in Hlen.
  rewrite (one_marked_query_param path lit name
             (split_chars t1 ++ "("%char :: split_chars J ++ [")"%char])
             (default "" (last ((t1 +:+ a) :: alts))) ((t1 +:+ a) :: alts) false false
             (length (split_chars t1) + length (split_chars J) + 3)).
  - do 2 f_equal. subst path. text_eq.
  - done.
  - done.
  - done.
  - done.
  - unfold word in H1. destruct (split_chars t1) as [|x xs]; [done|].
    simpl in H1. apply andb_true_iff in H1 as [Hx _].
    simpl. by rewrite !(is_word_neq x) by done.
  - intros pre. eexists. split; [reflexivity|].
    subst J. rewrite q_type_loop_union by done.
    change ("" +:+ string_of_list_ascii (split_chars t1))
      with (string_of_list_ascii (split_chars t1)).
    by rewrite string_of_split_chars.
  - lia.
Qed.

Lemma union_query_param_witness :
  extractUrlAndQueryParametersFromPath 80
    ("/users" +:+ "?" +:+ "id" +:+ "=" +:+ "" +:+ "("
       +:+ join "|" ("number" :: ["string"]) +:+ ")")
  = Some (mkParsed [] [("id", mkQueryParam (("" +:+ "number") :: ["string"]) false false None)]
            "/users"
            ("id" +:+ "=" +:+ "" +:+ "(" +:+ join "|" ("number" :: ["string"]) +:+ ")")
            (segments "/users")).
Proof. apply union_query_param; try reflexivity. vm_compute. lia. Defined.

(** *** One query parameter with a regex *)

(** The loop over a pair on the word characters of the name. *)
Lemma q_pair_loop_name_run (n : list ascii) : ∀ pre suf nm (fuel : nat),
  forallb is_word n = true →
  q_pair_loop (length n + fuel) (pre ++ n ++ suf)
    (mkQState (length pre) nm "" "" [] false false)
  = q_pair_loop fuel (pre ++ n ++ suf)
      (mkQState (length pre + length n) (nm +:+ string_of_list_ascii n)
                "" "" [] false false).
Proof.
  induction n as [|a n IH]; intros pre suf nm fuel Hn.
  - simpl. by rewrite Nat.add_0_r, append_empty_r.
  - simpl in Hn. apply andb_true_iff in Hn as [Ha Hn].
    cbn [length Nat.add q_pair_loop q_index q_name q_type q_regex q_types q_isArray
         q_isOptional app].
    rewrite hasNotReached_word by done.
    rewrite ignoreSpaces_middle by (by apply is_word_neq).
    rewrite !is_char_middle, (is_word_neq a "&"), (is_word_neq a "="), at_middle by done.
    replace (pre ++ a :: n ++ suf) with ((pre ++ [a]) ++ n ++ suf) by list_eq.
    replace (S (length pre)) with (length (pre ++ [a])) by list_len.
    rewrite IH by done. rewrite append_add. do 2 f_equal. list_len.
Qed.

(** The loop over a pair on [name={regex}type], with or without a colon
    after the brace. *)
Lemma q_pair_loop_regex (n rx t pre : list ascii) (colon : bool) nm (fuel : nat) :
  forallb is_word n = true →
  Forall (λ a, Ascii.eqb a "}" = false ∧ Ascii.eqb a " " = false) rx →
  forallb is_word t = true →
  (length n + length rx + length t + 4 ≤ fuel)%nat →
  q_pair_loop fuel
    (pre ++ n ++ "="%char :: "{"%char :: rx ++ "}"%char
         :: (if colon then [":"%char] else []) ++ t)
    (mkQState (length pre) nm "" "" [] false false)
  = Some (mkQState
            (length (pre ++ n ++ "="%char :: "{"%char :: rx ++ "}"%char
                         :: (if colon then [":"%char] else []) ++ t))
            (nm +:+ string_of_list_ascii n) (string_of_list_ascii t)
            (string_of_list_ascii rx) [] false false).
Proof.
  intros Hn Hrx Ht Hfuel.
  set (mark := if colon then [":"%char] else []).
  replace fuel with (length n + S (fuel - S (length n)))%nat by lia.
  rewrite q_pair_loop_name_run by done.
  remember (fuel - S (length n))%nat as f eqn:Ef.
  cbn [q_pair_loop q_index q_name q_type q_regex q_types q_isArray q_isOptional].
  replace (pre ++ n ++ "="%char :: "{"%char :: rx ++ "}"%char :: mark ++ t)
    with ((pre ++ n) ++ "="%char :: "{"%char :: rx ++ "}"%char :: mark ++ t) by list_eq.
  replace (length pre + length n)%nat with (length (pre ++ n)) by list_len.
  set (p := pre ++ n).
  unfold hasNotReachedEndOrNextQueryParam at 1. rewrite is_char_middle.
  rewrite (proj2 (Nat.ltb_lt _ _)) by list_len.
  rewrite ignoreSpaces_middle by done. rewrite !is_char_middle. simpl Ascii.eqb.
  simpl andb. cbv iota.
  assert (is_char (p ++ "="%char :: "{"%char :: rx ++ "}"%char :: mark ++ t)
            (S (length p)) "{" = true) as ->.
  { replace (p ++ "="%char :: "{"%char :: rx ++ "}"%char :: mark ++ t)
      with ((p ++ ["="%char]) ++ "{"%char :: rx ++ "}"%char :: mark ++ t) by list_eq.
    replace (S (length p)) with (length (p ++ ["="%char])) by list_len.
    by rewrite is_char_middle. }
  assert (scan_until "}" f (p ++ "="%char :: "{"%char :: rx ++ "}"%char :: mark ++ t)
            (S (S (length p))) ""
          = Some ((length p + 2 + length rx)%nat, string_of_list_ascii rx)) as ->.
  { replace (p ++ "="%char :: "{"%char :: rx ++ "}"%char :: mark ++ t)
      with ((p ++ ["="; "{"]%char) ++ rx ++ "}"%char :: mark ++ t) by list_eq.
    replace (S (S (length p))) with (length (p ++ ["="; "{"]%char)) by list_len.
    rewrite scan_until_run; [|done|lia]. do 2 f_equal. list_len. }
  cbn [mbind option_bind].
  set (q := p ++ "="%char :: "{"%char :: rx ++ ["}"%char]).
  assert (p ++ "="%char :: "{"%char :: rx ++ "}"%char :: mark ++ t = q ++ mark ++ t)
    as -> by (subst q; list_eq).
  assert (S (length p + 2 + length rx) = length q) as -> by (subst q; list_len).
  assert (length q = length p + length rx + 3)%nat as Hq by (subst q; list_len).
  assert ((if is_char (q ++ mark ++ t) (length q) ":" then S (length q) else length q)
          = length (q ++ mark)) as ->.
  { subst mark. destruct colon.
    - change (q ++ [":"%char] ++ t) with (q ++ ":"%char :: t).
      rewrite is_char_middle. simpl. list_len.
    - simpl app. rewrite app_nil_r. destruct t as [|x t].
      + by rewrite app_nil_r, is_char_end.
      + simpl in Ht. apply andb_true_iff in Ht as [Hx _].
        by rewrite is_char_middle, (is_word_neq x ":"). }
  replace (q ++ mark ++ t) with ((q ++ mark) ++ t ++ []) by (rewrite app_nil_r; list_eq).
  assert (length (q ++ mark) ≤ length q + 1)%nat as Hm
    by (subst mark; destruct colon; list_len).
  rewrite q_type_loop_word; [|done|by left|lia].
  cbn [mbind option_bind].
  destruct f as [|f]; [lia|].
  cbn [q_pair_loop q_index].
  unfold hasNotReachedEndOrNextQueryParam.
  rewrite (proj2 (Nat.ltb_ge _ _)) by list_len.
  rewrite andb_false_r. do 2 f_equal. list_len.
Qed.

(** X27: a query parameter [name={regex}type], with or without a colon
    after the brace, carries the text between the braces as its regex
    (none when that text is empty) and [type] as its one type, when the
    name is not [__proto__] and the regex is text that [new RegExp]
    accepts whatever it is. *)
Theorem regex_query_param (lit name rx t : string) (colon : bool) (fuel : nat) :
  literal lit = true → word name = true → declarable name = true →
  regex_text rx = true → word t = true →
  (String.length (lit +:+ "?" +:+ name +:+ "={" +:+ rx +:+ "}"
                    +:+ (if colon then ":" else "") +:+ t) + 7 ≤ fuel)%nat →
  extractUrlAndQueryParametersFromPath fuel
    (lit +:+ "?" +:+ name +:+ "={" +:+ rx +:+ "}" +:+ (if colon then ":" else "") +:+ t)
  = Some (mkParsed []
            [(name, mkQueryParam [t] false false
                      (if String.eqb rx "" then None else Some rx))]
            lit
            (name +:+ "={" +:+ rx +:+ "}" +:+ (if colon then ":" else "") +:+ t)
            (segments lit)).
Proof.
  intros Hlit Hname Hdecl Hrx Ht Hfuel.
  set (path := lit +:+ "?" +:+ name +:+ "={" +:+ rx +:+ "}"
                 +:+ (if colon then ":" else "") +:+ t) in *.
  set (body := split_chars name ++ "="%char :: "{"%char :: split_chars rx ++ "}"%char
                 :: (if colon then [":"%char] else []) ++ split_chars t).
  assert (split_chars path = split_chars lit ++ "?"%char :: body) as Hcs
    by (subst path body; destruct colon; chars_eq).
  assert (String.length path = length (split_chars lit ++ "?"%char :: body)) as Hlen
    by (by rewrite <- Hcs, length_split_chars).
  assert (length body
          = length (split_chars name) + length (split_chars rx) + length (split_chars t)
            + 3 + (if colon then 1 else 0))%nat as Hbody
    by (subst body; destruct colon; list_len).
  rewrite length_app in Hlen. cbn [length] in Hlen.
  rewrite (one_query_param_parsed path (split_chars lit) body
             (mkQState (length (split_chars lit ++ "?"%char :: body)) name t rx
                       [] false false)
             (length body + 1)).
  - cbn [q_name q_type q_regex q_types q_isArray q_isOptional length Nat.eqb app].
    rewrite obj_assign_declarable, obj_set_empty, string_of_split_chars by done.
    do 3 f_equal.
    subst body path. destruct colon; text_eq.
  - done.
  - done.
  - subst body. by destruct (split_chars name).
  - intros g Hg. subst body.
    replace (split_chars lit ++ "?"%char :: split_chars name ++ "="%char :: "{"%char
               :: split_chars rx ++ "}"%char
               :: (if colon then [":"%char] else []) ++ split_chars t)
      with ((split_chars lit ++ ["?"%char]) ++ split_chars name ++ "="%char :: "{"%char
               :: split_chars rx ++ "}"%char
               :: (if colon then [":"%char] else []) ++ split_chars t) by list_eq.
    replace (S (length (split_chars lit))) with (length (split_chars lit ++ ["?"%char]))
      by list_len.
    rewrite q_pair_loop_regex.
    + change ("" +:+ string_of_list_ascii (split_chars name))
        with (string_of_list_ascii (split_chars name)).
      by rewrite !string_of_split_chars.
    + done.
    + by apply regex_text_plain.
    + done.
    + lia.
  - cbn [q_index]. lia.
  - lia.
Qed.

Lemma regex_query_param_witness :
  extractUrlAndQueryParametersFromPath 60
    ("/users" +:+ "?" +:+ "code" +:+ "={" +:+ "^item-..$" +:+ "}"
       +:+ (if true then ":" else "") +:+ "string")
  = Some (mkParsed []
            [("code", mkQueryParam ["string"] false false
                        (if String.eqb "^item-..$" "" then None else Some "^item-..$"))]
            "/users"
            ("code" +:+ "={" +:+ "^item-..$" +:+ "}" +:+ (if true then ":" else "")
               +:+ "string")
            (segments "/users")).
Proof. apply (regex_query_param _ _ _ _ true); try reflexivity. vm_compute. lia. Defined.

End TemplatesFacts.

(** ** Composition as a function of the store *)
Module CompositionFacts.
Import Js PathTemplate Routers JsFacts RoutersFacts Composition.
Section Facts.
Context {Mw H : Type}.
Implicit Types (h s : Heap Mw H) (r c : Router Mw).

Lemma write_all_app (es es' : list (string * CompletePath Mw)) t :
  write_all (es ++ es') t = write_all es' (write_all es t).
Proof. apply foldl_app. Qed.

Lemma lift_entries_spec (router child : nat) c es : ∀ h r,
  router ≠ child →
  routers h !! router = Some r → routers h !! child = Some c →
  lift_entries router child es h
  = Some (put_router router
            (with_completePaths
               (write_all (lifted_entry r c child <$> es) (r_completePaths r)) r) h).
Proof.
  induction es as [|e es IH]; intros h r Hne Hr Hc; simpl.
  - by rewrite with_completePaths_same, put_router_id.
  - rewrite Hr, Hc. simpl. unfold set_completePath. rewrite Hr. simpl.
    rewrite (IH _ (with_completePaths
                     (map_set (lifted_entry r c child e).1 (lifted_entry r c child e).2
                              (r_completePaths r)) r)); [|done| |].
    + by rewrite with_completePaths_idem, put_router_put_router.
    + rewrite routers_put_router. apply lookup_insert_eq.
    + rewrite routers_put_router. by rewrite lookup_insert_ne.
Qed.

(** One turn of the loop, as a function of the store. *)
Lemma append_step_spec (x child : nat) h next h' :
  x ≠ child →
  append_step x child h = Some (next, h') →
  ∃ r, routers h !! x = Some r ∧ next = r_parentRouter r ∧
       h' = put_router x
              (with_completePaths
                 (write_all (child_writes r child h) (r_completePaths r)) r) h.
Proof.
  intros Hne. unfold append_step, child_writes.
  destruct (routers h !! x) as [r|] eqn:Hr; [|done]. simpl.
  destruct (routers h !! child) as [c|] eqn:Hc; [|done]. simpl.
  destruct (existsHandlersOnChild c h) as [hs|]; [|done]. simpl.
  set (t1 := match hs with
             | Some ref => map_set (own_entry r c child ref).1 (own_entry r c child ref).2
                                   (r_completePaths r)
             | None => r_completePaths r
             end).
  assert (match hs with
          | Some ref => set_completePath x (own_entry r c child ref) h
          | None => Some h
          end = Some (put_router x (with_completePaths t1 r) h)) as ->.
  { subst t1. destruct hs as [ref|].
    - unfold set_completePath. by rewrite Hr.
    - by rewrite with_completePaths_same, put_router_id. }
  simpl.
  set (h1 := put_router x (with_completePaths t1 r) h).
  assert (routers h1 !! x = Some (with_completePaths t1 r)) as Hr1.
  { subst h1. rewrite routers_put_router. apply lookup_insert_eq. }
  assert (routers h1 !! child = Some c) as Hc1.
  { subst h1. rewrite routers_put_router. by rewrite lookup_insert_ne. }
  change (<[x:=with_completePaths t1 r]> (routers h)) with (routers h1).
  assert ((if (0 <? map_size (r_completePaths c))%nat
           then c0 ← routers h1 !! child;
                lift_entries x child (r_completePaths c0) h1
           else Some h1)
          = Some (put_router x
                    (with_completePaths
                       (write_all (lifted_entry r c child <$> r_completePaths c) t1) r) h))
    as ->.
  { destruct (0 <? map_size (r_completePaths c))%nat eqn:Hsize.
    - rewrite Hc1. simpl. rewrite (lift_entries_spec x child c _ h1 _ Hne Hr1 Hc1).
      subst h1. by rewrite with_completePaths_idem, put_router_put_router.
    - apply Nat.ltb_ge in Hsize. unfold map_size in Hsize.
      destruct (r_completePaths c); [|simpl in Hsize; lia]. done. }
  simpl. rewrite lookup_insert_eq. simpl.
  intros [= <- <-]. exists r. split; [done|]. split; [done|].
  do 2 f_equal. unfold write_all. rewrite foldl_app. subst t1.
  by destruct hs.
Qed.

(** What is written does not depend on the table of the router written
    to, nor on the parent link, the flag or the children of the child. *)
Lemma child_writes_ext r r' (child : nat) h h' :
  declared r' = declared r →
  handler_objs h' = handler_objs h →
  match routers h !! child, routers h' !! child with
  | Some c, Some c' =>
      declared c' = declared c ∧ r_completePaths c' = r_completePaths c
  | None, None => True
  | _, _ => False
  end →
  child_writes r' child h' = child_writes r child h.
Proof.
  intros Hr Hobj Hc. unfold child_writes.
  destruct (routers h !! child) as [c|], (routers h' !! child) as [c'|]; try done.
  destruct Hc as [Hc Ht]. rewrite Ht.
  assert (existsHandlersOnChild c' h' = existsHandlersOnChild c h) as ->.
  { unfold existsHandlersOnChild. rewrite Hobj.
    by replace (r_handlers c') with (r_handlers c) by (by injection Hc). }
  assert (∀ ref, own_entry r' c' child ref = own_entry r c child ref) as Hown.
  { intros ref. unfold own_entry.
    injection Hr as ? ? ? ? ? ? ? ?. injection Hc as ? ? ? ? ? ? ? ?. congruence. }
  assert (∀ e, lifted_entry r' c' child e = lifted_entry r c child e) as Hlift.
  { intros [k e]. unfold lifted_entry.
    injection Hr as ? ? ? ? ? ? ? ?. injection Hc as ? ? ? ? ? ? ? ?. congruence. }
  f_equal.
  - by destruct (existsHandlersOnChild c h) as [[hs|]|]; rewrite ?Hown.
  - apply list_fmap_ext. intros i e _. apply Hlift.
Qed.

Lemma with_completePaths_decl t (r : Router Mw) :
  with_completePaths [] (with_completePaths t r) = with_completePaths [] r.
Proof. done. Qed.

(** The climb from [x], as a function of the store: every router from
    [x] up gets the entries written for [child], on top of its table. *)
Lemma appendChildToParentRouter_spec (child : nat) fuel : ∀ x h h',
  appendChildToParentRouter fuel (Some x) child h = Some h' →
  ¬ ancestor_or_self h x child →
  ∀ a, ancestor_or_self h x a →
    ∃ r, routers h !! a = Some r ∧
         routers h' !! a
         = Some (with_completePaths
                   (write_all (child_writes r child h) (r_completePaths r)) r).
Proof.
  induction fuel as [|fuel IH]; intros x h h' Hrun Hnot a Ha; [done|].
  pose proof Hrun as Hrun0. simpl in Hrun.
  destruct (append_step x child h) as [[next h1]|] eqn:Hstep; [|done].
  simpl in Hrun.
  assert (x ≠ child) as Hne by (intros ->; apply Hnot; constructor).
  apply append_step_spec in Hstep as (r & Hr & -> & Eh1); [|done].
  assert (routers h1 !! x
          = Some (with_completePaths
                    (write_all (child_writes r child h) (r_completePaths r)) r)) as Hx1.
  { subst h1. rewrite routers_put_router. apply lookup_insert_eq. }
  assert (∀ id, id ≠ x → routers h1 !! id = routers h !! id) as Hother.
  { intros id Hid. subst h1. rewrite routers_put_router. by rewrite lookup_insert_ne. }
  assert (handler_objs h1 = handler_objs h) as Hobj by (by subst h1).
  assert (∀ id, parent_of h1 id = parent_of h id) as Hlinks.
  { intros id. unfold parent_of. destruct (decide (id = x)) as [->|Hid].
    - by rewrite Hx1, Hr.
    - by rewrite Hother. }
  destruct (r_parentRouter r) as [p|] eqn:Hp.
  - assert (parent_of h x = Some p) as Hpx by (unfold parent_of; by rewrite Hr).
    assert (¬ ancestor_or_self h p x) as Hnocycle.
    { intros Hcyc.
      rewrite (appendChildToParentRouter_cycle child x p (S fuel) x h) in Hrun0;
        [done|constructor|done|done]. }
    assert (routers h' !! x = routers h1 !! x) as Hxsame.
    { destruct (appendChildToParentRouter_frame child fuel p h1 h' Hrun) as [_ Hfr].
      destruct (Hfr x) as [E|[Habove _]]; [done|].
      exfalso. apply Hnocycle. eapply aos_ext; [|exact Habove]. intros id.
      by rewrite Hlinks. }
    destruct (decide (a = x)) as [->|Hax].
    + exists r. split; [done|]. by rewrite Hxsame.
    + assert (ancestor_or_self h p a) as Hpa.
      { inversion Ha as [|x' p' a' Hp' Hpa']; subst; [done|]. congruence. }
      destruct (IH p h1 h' Hrun) with (a := a) as (r1 & Hr1 & Hr1').
      { intros Hc. apply Hnot. eapply aos_parent; [done|].
        eapply aos_ext; [|exact Hc]. done. }
      { eapply aos_ext; [|exact Hpa]. intros id. by rewrite Hlinks. }
      rewrite Hother in Hr1 by done. exists r1. split; [done|].
      rewrite Hr1'. do 3 f_equal.
      apply child_writes_ext; [done|done|]. rewrite Hother by done.
      by destruct (routers h !! child).
  - assert (a = x) as ->.
    { inversion Ha as [|x' p' a' Hp' Hpa']; subst; [done|].
      unfold parent_of in Hp'. rewrite Hr in Hp'. simpl in Hp'. congruence. }
    exists r. split; [done|].
    destruct fuel; simpl in Hrun; injection Hrun as <-; done.
Qed.

Lemma attach_child_spec fuel isNested this (child : nat) h h' :
  attach_child fuel isNested this child h = Some h' →
  ∀ a, ancestor_or_self h this a →
    ∃ r, routers h !! a = Some r ∧
         routers h' !! a
         = Some (with_completePaths
                   (write_all (child_writes r child h) (r_completePaths r)) r).
Proof.
  intros Hrun a Ha. pose proof Hrun as Hrun0.
  apply attach_child_frame in Hrun0 as (Hnot & _).
  unfold attach_child in Hrun.
  destruct (routers h !! child) as [rc|] eqn:Hc; [|done]. simpl in Hrun.
  set (h0 := put_router child (with_parent isNested this rc) h) in *.
  assert (∀ id, id ≠ child → parent_of h0 id = parent_of h id) as Hlinks.
  { intros id Hid. unfold parent_of, h0.
    by rewrite routers_put_router, lookup_insert_ne. }
  assert (a ≠ child) as Hac by (intros ->; done).
  destruct (appendChildToParentRouter_spec child fuel this h0 h' Hrun) with (a := a)
    as (r & Hr & Hr').
  { intros Hcyc. apply Hnot. by eapply (aos_except_inv h h0 child). }
  { by eapply (aos_except h h0 child). }
  unfold h0 in Hr. rewrite routers_put_router, lookup_insert_ne in Hr by done.
  exists r. split; [done|]. rewrite Hr'. do 3 f_equal.
  apply child_writes_ext; [done|done|].
  unfold h0. by rewrite Hc, routers_put_router, lookup_insert_eq.
Qed.

Lemma bind_ext_in {A B} (f g : A → list B) (l : list A) :
  (∀ x, x ∈ l → f x = g x) → l ≫= f = l ≫= g.
Proof.
  induction l as [|x l IH]; intros Hfg; [done|].
  rewrite !bind_cons, Hfg, IH; [done| |apply elem_of_cons; by left].
  intros y Hy. apply Hfg, elem_of_cons. by right.
Qed.

Lemma attach_children_spec fuel isNested this children : ∀ h h',
  attach_children fuel isNested this children h = Some h' →
  ∀ a r, ancestor_or_self h this a → routers h !! a = Some r →
    routers h' !! a
    = Some (with_completePaths
              (write_all (children ≫= λ child, child_writes r child h)
                         (r_completePaths r)) r).
Proof.
  induction children as [|child cs IH]; intros h h' Hrun a r Ha Hr; simpl in Hrun.
  - injection Hrun as <-. simpl. by rewrite with_completePaths_same.
  - destruct (attach_child fuel isNested this child h) as [h1|] eqn:Hone; [|done].
    simpl in Hrun.
    destruct (attach_child_spec _ _ _ _ _ _ Hone a Ha) as (r' & Hr' & Hr1).
    assert (r' = r) as -> by congruence.
    pose proof Hone as Hfr. apply attach_child_frame in Hfr as (Hnot & rc & Hrc & Htc).
    set (h0 := put_router child (with_parent isNested this rc) h) in *.
    assert (∀ id, id ≠ child → parent_of h1 id = parent_of h id) as Hlinks.
    { intros id Hid. rewrite (tables_changed_parent_of _ h0 h1) by done.
      unfold parent_of, h0. by rewrite routers_put_router, lookup_insert_ne. }
    assert (∀ a, ancestor_or_self h this a → ancestor_or_self h1 this a) as Hto
      by (intros ?; by apply (aos_except h h1 child)).
    destruct (attach_children_frame _ _ _ _ _ _ Hrun) as (_ & Hall & _).
    rewrite (IH _ _ Hrun a _ (Hto _ Ha) Hr1). simpl.
    rewrite with_completePaths_idem, ?bind_cons, write_all_app. do 3 f_equal.
    apply bind_ext_in. intros c Hc.
    rewrite Forall_forall in Hall. specialize (Hall c Hc).
    destruct Htc as [Hobj Htc].
    destruct (decide (c = child)) as [->|Hne].
    + apply child_writes_ext; [done|done|]. rewrite Hrc.
      destruct (Htc child) as [->|[Habove _]]; [|done].
      unfold h0. by rewrite routers_put_router, lookup_insert_eq.
    + destruct (Htc c) as [E|(Habove & _)]; [|by apply Hto in Habove].
      unfold h0 in E. rewrite routers_put_router, lookup_insert_ne in E by done.
      apply child_writes_ext; [done|done|]. rewrite E.
      by destruct (routers h !! c).
Qed.

(** The tables after [this.nested(children)]: the attaching router and
    each of its ancestors has, on top of its table, the entries written
    for each child, in the order of [children]. *)
Lemma nested_tables_spec fuel isNested children this h h' :
  nested fuel isNested children this h = Some h' →
  ∀ a r, ancestor_or_self h this a → routers h !! a = Some r →
    completePaths_of a h'
    = write_all (children ≫= λ child, child_writes r child h) (r_completePaths r).
Proof.
  unfold nested. intros Hrun a r Ha Hr.
  destruct (routers h !! this) as [r0|] eqn:Hr0; [|done]. simpl in Hrun.
  destruct (attach_children fuel isNested this children h) as [h1|] eqn:Hatt; [|done].
  simpl in Hrun.
  pose proof (attach_children_spec _ _ _ _ _ _ Hatt a r Ha Hr) as Ha1.
  destruct (routers h1 !! this) as [r1|] eqn:Hr1; [|done]. simpl in Hrun.
  injection Hrun as <-. unfold completePaths_of. rewrite routers_put_router.
  destruct (decide (a = this)) as [->|Hne].
  - rewrite lookup_insert_eq. simpl. rewrite Hr1 in Ha1. by injection Ha1 as ->.
  - rewrite lookup_insert_ne by done. by rewrite Ha1.
Qed.

(** *** Tables after a list of writes *)

Lemma obj_get_app {V} k (o o' : list (string * V)) :
  obj_get k (o ++ o') = match obj_get k o with
                        | Some v => Some v
                        | None => obj_get k o'
                        end.
Proof.
  induction o as [|[k' v] o IH]; simpl; [done|]. by destruct (String.eqb k k').
Qed.

Lemma map_get_foldl_set {V} k (es : list (string * V)) : ∀ t,
  map_get k (foldl (λ t e, map_set e.1 e.2 t) t es)
  = match obj_get k (reverse es) with
    | Some v => Some v
    | None => map_get k t
    end.
Proof.
  induction es as [|[k' v] es IH]; intros t; [done|].
  simpl. rewrite IH, reverse_cons, obj_get_app. simpl.
  destruct (obj_get k (reverse es)); [done|].
  destruct (String.eqb k k') eqn:E.
  - apply eqb_string_true in E as ->. apply map_get_set_eq.
  - apply map_get_set_ne. intros ->. by rewrite String.eqb_refl in E.
Qed.

Lemma map_get_write_all k (es : list (string * CompletePath Mw)) t :
  map_get k (write_all es t)
  = match last_write k es with
    | Some v => Some v
    | None => map_get k t
    end.
Proof. apply map_get_foldl_set. Qed.

Lemma obj_get_is_Some {V} k (o : list (string * V)) : is_Some (obj_get k o) ↔ k ∈ o.*1.
Proof.
  induction o as [|[k' v] o IH]; simpl.
  - split; [by intros [? ?]|by intros ?%elem_of_nil].
  - destruct (String.eqb k k') eqn:E.
    + apply eqb_string_true in E as ->. split; [intros _; by left|eauto].
    + rewrite IH, elem_of_cons. split; [by right|]. intros [->|?]; [|done].
      by rewrite String.eqb_refl in E.
Qed.

Lemma keys_obj_replace {V} k (v : V) o : (obj_replace k v o).*1 = o.*1.
Proof.
  induction o as [|[k' v'] o IH]; simpl; [done|].
  destruct (String.eqb k k'); simpl; [done|]. by f_equal.
Qed.

Lemma keys_map_set_in {V} k (v : V) (t : list (string * V)) :
  k ∈ t.*1 → (map_set k v t).*1 = t.*1.
Proof.
  intros Hk%obj_get_is_Some. unfold map_set. destruct Hk as [v' ->].
  apply keys_obj_replace.
Qed.

Lemma keys_map_set_sub {V} k (v : V) (t : list (string * V)) k' :
  k' ∈ t.*1 ∨ k' = k → k' ∈ (map_set k v t).*1.
Proof.
  unfold map_set. destruct (obj_get k t) as [v'|] eqn:E.
  - rewrite keys_obj_replace. intros [?| ->]; [done|].
    apply obj_get_is_Some. by rewrite E.
  - rewrite fmap_app, elem_of_app. simpl. intros [?| ->]; [by left|right; by left].
Qed.

Lemma keys_write_all_sub (es : list (string * CompletePath Mw)) : ∀ t k,
  k ∈ t.*1 ∨ k ∈ es.*1 → k ∈ (write_all es t).*1.
Proof.
  induction es as [|[k' v] es IH]; intros t k; simpl.
  - intros [?|?%elem_of_nil]; done.
  - intros Hk. apply IH. rewrite elem_of_cons in Hk.
    destruct Hk as [?|[->|?]]; [left|left|by right];
      apply keys_map_set_sub; eauto.
Qed.

Lemma keys_write_all_in (es : list (string * CompletePath Mw)) : ∀ t,
  (∀ k, k ∈ es.*1 → k ∈ t.*1) → (write_all es t).*1 = t.*1.
Proof.
  induction es as [|[k' v] es IH]; intros t Hin; [done|]. simpl.
  rewrite IH.
  - apply keys_map_set_in, Hin. by left.
  - intros k Hk. apply keys_map_set_sub. left. apply Hin. by right.
Qed.

(** Writing the same entries a second time changes neither the keys, nor
    their order, nor what a key is mapped to. *)
Lemma write_all_twice (es : list (string * CompletePath Mw)) t :
  (write_all es (write_all es t)).*1 = (write_all es t).*1 ∧
  ∀ k, map_get k (write_all es (write_all es t)) = map_get k (write_all es t).
Proof.
  split.
  - apply keys_write_all_in. intros k Hk. apply keys_write_all_sub. by right.
  - intros k. rewrite !map_get_write_all. by destruct (last_write k es).
Qed.

Lemma aos_outside (children : list nat) h h' (x a : nat) :
  (∀ id, id ∉ children → parent_of h' id = parent_of h id) →
  (∀ k : nat, k ∈ children → ¬ ancestor_or_self h' x k) →
  ancestor_or_self h' x a → ancestor_or_self h x a.
Proof.
  intros Hlinks Hnot Ha. induction Ha as [x|x p a Hp Hpa IH]; [constructor|].
  assert (x ∉ children) as Hx by (intros Hx; apply (Hnot x Hx); constructor).
  eapply aos_parent; [by rewrite <- Hlinks|].
  apply IH. intros k Hk Hpk. apply (Hnot k Hk). by eapply aos_parent.
Qed.

(** *** What [nested] does to each router *)

Lemma nested_inv fuel isNested children this h h' :
  nested fuel isNested children this h = Some h' →
  ∃ r0 h1 r1,
    routers h !! this = Some r0 ∧
    attach_children fuel isNested this children h = Some h1 ∧
    routers h1 !! this = Some r1 ∧
    h' = put_router this
           (with_children
              (match r_children r0, r_children r1 with
               | Some _, Some old => Some (old ++ children)
               | Some _, None => None
               | None, _ => Some children
               end) r1) h1.
Proof.
  unfold nested. intros Hrun.
  destruct (routers h !! this) as [r0|] eqn:Hr0; [|done]. simpl in Hrun.
  destruct (attach_children fuel isNested this children h) as [h1|] eqn:Hatt; [|done].
  simpl in Hrun.
  destruct (routers h1 !! this) as [r1|] eqn:Hr1; [|done]. simpl in Hrun.
  injection Hrun as <-. by exists r0, h1, r1.
Qed.

Lemma nested_routers fuel isNested children this h h' :
  nested fuel isNested children this h = Some h' →
  handler_objs h' = handler_objs h ∧
  (∀ k : nat, k ∈ children → ¬ ancestor_or_self h this k) ∧
  ∀ id,
    match routers h !! id, routers h' !! id with
    | Some r, Some r' =>
        declared r' = declared r ∧
        (id ∉ children → r_parentRouter r' = r_parentRouter r) ∧
        (r_completePaths r' = r_completePaths r ∨ ancestor_or_self h this id)
    | None, None => True
    | _, _ => False
    end.
Proof.
  intros (r0 & h1 & r1 & Hr0 & Hatt & Hr1 & ->)%nested_inv.
  destruct (attach_children_frame _ _ _ _ _ _ Hatt) as (Hobj & Hall & Hid).
  split; [done|]. split; [by apply Forall_forall|].
  intros id. specialize (Hid id).
  assert (match routers h !! id, routers h1 !! id with
          | Some r, Some r' =>
              declared r' = declared r ∧
              (id ∉ children → r_parentRouter r' = r_parentRouter r) ∧
              (r_completePaths r' = r_completePaths r ∨ ancestor_or_self h this id)
          | None, None => True
          | _, _ => False
          end) as H1.
  { destruct (decide (id ∈ children)).
    - destruct Hid as (r & -> & ->). split; [done|]. split; [done|by left].
    - destruct Hid as [->|(Habove & r & t & -> & ->)].
      + destruct (routers h !! id); [|done]. split; [done|]. split; [done|by left].
      + split; [done|]. split; [done|by right]. }
  rewrite routers_put_router. destruct (decide (id = this)) as [->|Hne].
  - rewrite lookup_insert_eq. rewrite Hr0, Hr1 in H1. by rewrite Hr0.
  - by rewrite lookup_insert_ne.
Qed.

(** X9: the tables after [this.nested(children)].  The table of the
    attaching router, and of each of its ancestors, is its table before
    the call with the entries written for each child set on top, in the
    order of [children]: for a child with handlers one entry under the url
    path of the router followed by the url path of the child, then one for
    each entry of the child's own table.  Every other table is as
    before. *)
Theorem nested_tables fuel isNested children this (h h' : Heap Mw H) :
  nested fuel isNested children this h = Some h' →
  (∀ a r, ancestor_or_self h this a → routers h !! a = Some r →
     completePaths_of a h'
     = write_all (children ≫= λ child, child_writes r child h) (r_completePaths r)) ∧
  (∀ id, ¬ ancestor_or_self h this id → completePaths_of id h' = completePaths_of id h).
Proof.
  intros Hrun. split; [by eapply nested_tables_spec|].
  intros id Hid. destruct (nested_routers _ _ _ _ _ _ Hrun) as (_ & _ & Hall).
  specialize (Hall id). unfold completePaths_of.
  destruct (routers h !! id) as [r|], (routers h' !! id) as [r'|]; try done.
  simpl. by destruct Hall as (_ & _ & [?|?]).
Qed.

(** X10: composing the same children a second time leaves every table with
    the same keys, in the same order, mapped to the same entries. *)
Theorem nested_twice_same_tables (fuel1 fuel2 : nat) (b1 b2 : bool) children this
    (h h1 h2 : Heap Mw H) :
  nested fuel1 b1 children this h = Some h1 →
  nested fuel2 b2 children this h1 = Some h2 →
  ∀ id,
    (completePaths_of id h2).*1 = (completePaths_of id h1).*1 ∧
    ∀ key, route id key h2 = route id key h1.
Proof.
  intros Hrun1 Hrun2 id.
  destruct (nested_routers _ _ _ _ _ _ Hrun1) as (Hobj1 & _ & Hall1).
  destruct (nested_routers _ _ _ _ _ _ Hrun2) as (_ & Hnot2 & Hall2).
  pose proof (Hall2 id) as H2. pose proof (Hall1 id) as H1.
  unfold route, completePaths_of in *.
  destruct (routers h1 !! id) as [r1|] eqn:Hr1, (routers h2 !! id) as [r2|] eqn:Hr2;
    try done.
  destruct H2 as (_ & _ & [E|Habove]); [simpl; by rewrite E|].
  destruct (routers h !! id) as [r|] eqn:Hr; [|done].
  assert (ancestor_or_self h this id) as Habove0.
  { eapply (aos_outside children); [|exact Hnot2|exact Habove].
    intros j Hj. specialize (Hall1 j). unfold parent_of.
    destruct (routers h !! j) as [rj|], (routers h1 !! j) as [rj1|]; try done.
    simpl. by apply Hall1. }
  pose proof (nested_tables_spec _ _ _ _ _ _ Hrun1 id r Habove0 Hr) as E1.
  pose proof (nested_tables_spec _ _ _ _ _ _ Hrun2 id r1 Habove Hr1) as E2.
  unfold completePaths_of in E1, E2. rewrite Hr1 in E1. rewrite Hr2 in E2.
  simpl in E1, E2 |- *. rewrite E2.
  replace (children ≫= λ child, child_writes r1 child h1)
    with (children ≫= λ child, child_writes r child h).
  - rewrite E1. apply write_all_twice.
  - apply bind_ext_in. intros c Hc. symmetry.
    apply child_writes_ext; [by destruct H1|done|].
    specialize (Hall1 c).
    destruct (routers h !! c) as [rc|], (routers h1 !! c) as [rc1|]; try done.
    destruct Hall1 as (Hd & _ & [?|Hca]); [done|].
    destruct (nested_routers _ _ _ _ _ _ Hrun1) as (_ & Hnot1 & _).
    by apply Hnot1 in Hca.
Qed.

Lemma bind_all_nil {A B} (f : A → list B) (l : list A) :
  (∀ x, x ∈ l → f x = []) → l ≫= f = [].
Proof.
  intros Hf. rewrite (bind_ext_in f (λ _, [])) by done. clear Hf.
  induction l as [|x l IH]; [done|]. by rewrite bind_cons, IH.
Qed.

(** X11: attaching one child that has handlers and no table of its own.
    The attaching router and each of its ancestors get exactly one entry
    set, under their own url path followed by the child's: it refers to
    the child and to the child's handler object, and carries the router's
    middlewares followed by the child's.  No other key changes. *)
Theorem nested_leaf_entry fuel isNested this (child : nat) (h h' : Heap Mw H)
    c (ref : nat) (o : list (string * H)) :
  nested fuel isNested [child] this h = Some h' →
  routers h !! child = Some c →
  r_handlers c = Some ref → handler_objs h !! ref = Some o → o ≠ [] →
  r_completePaths c = [] →
  ∀ a r, ancestor_or_self h this a → routers h !! a = Some r →
    completePaths_of a h'
    = map_set (r_urlPath r +:+ r_urlPath c) (own_entry r c child ref).2
              (r_completePaths r) ∧
    route a (r_urlPath r +:+ r_urlPath c) h' = Some (own_entry r c child ref).2 ∧
    ∀ key, key ≠ r_urlPath r +:+ r_urlPath c → route a key h' = route a key h.
Proof.
  intros Hrun Hc Href Ho Hne Hempty a r Ha Hr.
  pose proof (nested_tables_spec _ _ _ _ _ _ Hrun a r Ha Hr) as E.
  assert (child_writes r child h = [own_entry r c child ref]) as Hw.
  { unfold child_writes, existsHandlersOnChild. rewrite Hc, Href, Ho, Hempty. simpl.
    by destruct o. }
  simpl in E. rewrite app_nil_r, Hw in E. simpl in E.
  split; [done|]. unfold route. rewrite E. split.
  - apply map_get_set_eq.
  - intros key Hkey. rewrite map_get_set_ne by done.
    unfold completePaths_of. by rewrite Hr.
Qed.

(** X12: children that have neither handlers nor entries of their own add
    no route: after [nested] every table is as before. *)
Theorem nested_without_handlers fuel isNested children this (h h' : Heap Mw H) :
  nested fuel isNested children this h = Some h' →
  (∀ (child : nat) c, child ∈ children → routers h !! child = Some c →
     r_handlers c = None ∧ r_completePaths c = []) →
  ∀ id, completePaths_of id h' = completePaths_of id h.
Proof.
  intros Hrun Hplain id.
  destruct (nested_routers _ _ _ _ _ _ Hrun) as (_ & _ & Hall).
  specialize (Hall id). unfold completePaths_of at 2.
  destruct (routers h !! id) as [r|] eqn:Hr.
  - destruct (routers h' !! id) as [r'|] eqn:Hr'; [|done].
    destruct Hall as (_ & _ & [E|Habove]).
    + unfold completePaths_of. by rewrite Hr'.
    + rewrite (nested_tables_spec _ _ _ _ _ _ Hrun id r Habove Hr).
      rewrite bind_all_nil; [done|]. intros child Hchild.
      unfold child_writes, existsHandlersOnChild.
      destruct (routers h !! child) as [c|] eqn:Hc; [|done].
      destruct (Hplain child c Hchild Hc) as [-> ->]. done.
  - unfold completePaths_of. by destruct (routers h' !! id).
Qed.

(** X13: [nested] appends its children to the children the router already
    has; a first call on a router made without children leaves the list
    given. *)
Theorem nested_children_accumulate fuel isNested children this (h h' : Heap Mw H) :
  nested fuel isNested children this h = Some h' →
  ∃ r r', routers h !! this = Some r ∧ routers h' !! this = Some r' ∧
          r_children r' = Some (default [] (r_children r) ++ children).
Proof.
  intros (r0 & h1 & r1 & Hr0 & Hatt & Hr1 & ->)%nested_inv.
  destruct (attach_children_frame _ _ _ _ _ _ Hatt) as (_ & Hall & Hid).
  assert (this ∉ children) as Hthis.
  { intros Hin. rewrite Forall_forall in Hall. apply (Hall this Hin). constructor. }
  specialize (Hid this). rewrite decide_False in Hid by done.
  assert (r_children r1 = r_children r0) as Hsame.
  { destruct Hid as [E|(_ & r & t & Hr & Hr')].
    - congruence.
    - rewrite Hr0 in Hr. rewrite Hr1 in Hr'. by simplify_eq. }
  exists r0, (with_children
                (match r_children r0, r_children r1 with
                 | Some _, Some old => Some (old ++ children)
                 | Some _, None => None
                 | None, _ => Some children
                 end) r1).
  split; [done|]. split.
  - rewrite routers_put_router. apply lookup_insert_eq.
  - simpl. rewrite Hsame. by destruct (r_children r0).
Qed.

(** X14: a router nested into itself or into one of its descendants: the
    climb along the parents goes around for ever, and for every amount of
    fuel [nested] is still running. *)
Theorem nested_into_descendant_never_returns fuel isNested children this
    (child : nat) (h : Heap Mw H) :
  child ∈ children → ancestor_or_self h this child →
  nested fuel isNested children this h = None.
Proof.
  intros Hin Habove.
  destruct (nested fuel isNested children this h) as [h'|] eqn:Hrun; [|done].
  destruct (nested_routers _ _ _ _ _ _ Hrun) as (_ & Hnot & _).
  by apply Hnot in Habove.
Qed.

(** X16: two calls of [middlewares] on one router.  Its own list ends with
    the middlewares of the first call followed by those of the second,
    while every entry of its table starts with those of the second call
    followed by those of the first. *)
Theorem middlewares_twice (a b : list Mw) this (h h2 : Heap Mw H) r :
  routers h !! this = Some r →
  (h1 ← middlewares a this h; middlewares b this h1) = Some h2 →
  (r_middlewares <$> routers h2 !! this) = Some (r_middlewares r ++ a ++ b) ∧
  ∀ key, cp_middlewares <$> route this key h2
         = (λ e, b ++ a ++ cp_middlewares e) <$> route this key h.
Proof.
  intros Hr. unfold middlewares. rewrite Hr. simpl.
  rewrite lookup_insert_eq. simpl. intros [= <-]. simpl.
  rewrite lookup_insert_eq. simpl. split.
  - by rewrite <- app_assoc.
  - intros key. unfold route, completePaths_of. simpl.
    rewrite lookup_insert_eq, Hr. simpl.
    unfold map_get. rewrite !obj_get_fmap.
    destruct (obj_get key (r_completePaths r)) as [e|]; simpl; [|done].
    by rewrite app_assoc.
Qed.

(** *** Parameters declared by both the parent and the child *)

Lemma obj_get_None_keys {V} k (o : list (string * V)) : obj_get k o = None ↔ k ∉ o.*1.
Proof.
  rewrite <- obj_get_is_Some. destruct (obj_get k o) as [v|].
  - split; [done|]. intros H0. exfalso. apply H0. eauto.
  - split; [|done]. by intros _ [? ?].
Qed.

Lemma obj_get_reverse {V} k (o : list (string * V)) :
  NoDup o.*1 → obj_get k (reverse o) = obj_get k o.
Proof.
  induction o as [|[k' v] o IH]; intros Hnd; [done|].
  simpl in Hnd. apply NoDup_cons in Hnd as [Hk' Hnd].
  rewrite reverse_cons, obj_get_app, IH by done. simpl.
  destruct (String.eqb k k') eqn:E; [|by destruct (obj_get k o)].
  apply eqb_string_true in E as ->.
  by rewrite (proj2 (obj_get_None_keys k' o)).
Qed.

Lemma map_get_map_of_entries_app {V} k (a b : list (string * V)) :
  NoDup a.*1 → NoDup b.*1 →
  map_get k (map_of_entries (a ++ b))
  = match map_get k b with
    | Some v => Some v
    | None => map_get k a
    end.
Proof.
  intros Ha Hb. unfold map_of_entries. rewrite map_get_foldl_set.
  rewrite reverse_app, obj_get_app, !obj_get_reverse by done.
  unfold map_get. by destruct (obj_get k b), (obj_get k a).
Qed.

(** X17: the parameters of the entry written for a child with handlers.  A
    name declared by the child has the child's descriptor, whether the
    parent declares it or not; any other name has the parent's.  The same
    holds for url and for query parameters. *)
Theorem merged_params_child_wins r c (child hs : nat) (k : string) :
  NoDup (r_urlParams r).*1 → NoDup (r_urlParams c).*1 →
  NoDup (r_queryParams r).*1 → NoDup (r_queryParams c).*1 →
  map_get k (cp_urlParams (own_entry r c child hs).2)
  = match map_get k (r_urlParams c) with
    | Some v => Some v
    | None => map_get k (r_urlParams r)
    end ∧
  map_get k (cp_queryParams (own_entry r c child hs).2)
  = match map_get k (r_queryParams c) with
    | Some v => Some v
    | None => map_get k (r_queryParams r)
    end.
Proof.
  intros. unfold own_entry. simpl. split; by apply map_get_map_of_entries_app.
Qed.

End Facts.

Import Scenarios.

(** *** Three levels *)



Lemma nested_tables_witness :
  nested 20 false [1] 0 parent_and_child_heap = Some attached_heap ∧
  (∀ a r, ancestor_or_self parent_and_child_heap 0 a →
     routers parent_and_child_heap !! a = Some r →
     completePaths_of a attached_heap
     = write_all ([1] ≫= λ child, child_writes r child parent_and_child_heap)
                 (r_completePaths r)) ∧
  (∀ id, ¬ ancestor_or_self parent_and_child_heap 0 id →
         completePaths_of id attached_heap = completePaths_of id parent_and_child_heap).
Proof.
  assert (nested 20 false [1] 0 parent_and_child_heap = Some attached_heap) as E
    by (vm_compute; reflexivity).
  split; [exact E|]. exact (nested_tables 20 false [1] 0 _ _ E).
Defined.

Lemma nested_twice_same_tables_witness :
  nested 20 false [1] 0 parent_and_child_heap = Some attached_heap ∧
  nested 20 false [1] 0 attached_heap = Some reattached_heap ∧
  ∀ id,
    (completePaths_of id reattached_heap).*1 = (completePaths_of id attached_heap).*1 ∧
    ∀ key, route id key reattached_heap = route id key attached_heap.
Proof.
  assert (nested 20 false [1] 0 parent_and_child_heap = Some attached_heap) as E1
    by (vm_compute; reflexivity).
  assert (nested 20 false [1] 0 attached_heap = Some reattached_heap) as E2
    by (vm_compute; reflexivity).
  split; [exact E1|]. split; [exact E2|].
  exact (nested_twice_same_tables 20 20 false false [1] 0 _ _ _ E1 E2).
Defined.

Lemma nested_leaf_entry_witness :
  completePaths_of 0 attached_heap
  = map_set (r_urlPath (router_of 0 parent_and_child_heap) +:+
             r_urlPath (router_of 1 parent_and_child_heap))
            (own_entry (router_of 0 parent_and_child_heap)
                       (router_of 1 parent_and_child_heap) 1 0).2
            (r_completePaths (router_of 0 parent_and_child_heap)) ∧
  route 0 (r_urlPath (router_of 0 parent_and_child_heap) +:+
           r_urlPath (router_of 1 parent_and_child_heap)) attached_heap
  = Some (own_entry (router_of 0 parent_and_child_heap)
                    (router_of 1 parent_and_child_heap) 1 0).2 ∧
  ∀ key, key ≠ r_urlPath (router_of 0 parent_and_child_heap) +:+
               r_urlPath (router_of 1 parent_and_child_heap) →
         route 0 key attached_heap = route 0 key parent_and_child_heap.
Proof.
  apply (nested_leaf_entry 20 false 0 1 parent_and_child_heap attached_heap
           (router_of 1 parent_and_child_heap) 0 [("get", "h")]).
  - vm_compute. reflexivity.
  - vm_compute. reflexivity.
  - vm_compute. reflexivity.
  - vm_compute. reflexivity.
  - discriminate.
  - vm_compute. reflexivity.
  - constructor.
  - vm_compute. reflexivity.
Defined.

Lemma nested_without_handlers_witness :
  nested 20 false [1] 0 bare_child_heap = Some bare_attached_heap ∧
  ∀ id, completePaths_of id bare_attached_heap = completePaths_of id bare_child_heap.
Proof.
  assert (nested 20 false [1] 0 bare_child_heap = Some bare_attached_heap) as E
    by (vm_compute; reflexivity).
  split; [exact E|].
  apply (nested_without_handlers 20 false [1] 0 _ _ E).
  intros child c Hin Hc. apply list_elem_of_singleton in Hin. subst child.
  vm_compute in Hc. injection Hc as <-. split; reflexivity.
Defined.

Lemma nested_children_accumulate_witness :
  ∃ r r', routers parent_and_child_heap !! 0 = Some r ∧
          routers attached_heap !! 0 = Some r' ∧
          r_children r' = Some (default [] (r_children r) ++ [1]).
Proof.
  apply (nested_children_accumulate 20 false [1] 0 parent_and_child_heap attached_heap).
  vm_compute. reflexivity.
Defined.

Lemma nested_into_descendant_never_returns_witness :
  nested 1000 false [0] 0 parent_and_child_heap = None.
Proof.
  apply (nested_into_descendant_never_returns 1000 false [0] 0 0 parent_and_child_heap).
  - apply list_elem_of_singleton. reflexivity.
  - constructor.
Defined.

Lemma nested_returns_witness :
  is_Some (nested 20 false [1] 0 parent_and_child_heap).
Proof.
  apply (nested_returns 20 false [1] 0 [0] parent_and_child_heap).
  - apply (chain_root _ 0 (router_of 0 parent_and_child_heap)); vm_compute; reflexivity.
  - constructor; [|constructor]. split.
    + intros Hin. apply list_elem_of_singleton in Hin. discriminate.
    + exists (router_of 1 parent_and_child_heap). split; [vm_compute; reflexivity|].
      intros ref Href. vm_compute in Href. injection Href as <-.
      exists [("get", "h")]. vm_compute. reflexivity.
  - simpl. lia.
Defined.

Lemma middlewares_twice_witness :
  (r_middlewares <$> routers two_middlewares_heap !! 0)
  = Some (r_middlewares (router_of 0 attached_heap) ++ ["M1"] ++ ["M2"]) ∧
  ∀ key, cp_middlewares <$> route 0 key two_middlewares_heap
         = (λ e, ["M2"] ++ ["M1"] ++ cp_middlewares e) <$> route 0 key attached_heap.
Proof.
  apply (middlewares_twice ["M1"] ["M2"] 0 attached_heap two_middlewares_heap
           (router_of 0 attached_heap)); vm_compute; reflexivity.
Defined.

Lemma merged_params_child_wins_witness :
  map_get "id" (cp_urlParams (own_entry id_number_router id_string_router 1 0).2)
  = match map_get "id" (r_urlParams id_string_router) with
    | Some v => Some v
    | None => map_get "id" (r_urlParams id_number_router)
    end ∧
  map_get "id" (cp_queryParams (own_entry id_number_router id_string_router 1 0).2)
  = match map_get "id" (r_queryParams id_string_router) with
    | Some v => Some v
    | None => map_get "id" (r_queryParams id_number_router)
    end.
Proof.
  apply merged_params_child_wins; vm_compute;
    first [apply NoDup_nil_2 | apply NoDup_singleton].
Defined.

End CompositionFacts.

(** ** Resolved parameters and the composed handler *)
Module DispatchFacts.
Import Js JsFacts Routes RoutesFacts Dispatch.
Lemma parse_one_inv raw params p k v :
  obj_get k (parse_one raw params p) = Some v →
  obj_get k params = Some v ∨
  ∃ s, paramName p = k ∧ raw !! k = Some s ∧ s ≠ "" ∧
       match paramType p with
       | TString => v = PString s
       | TNumber => v = PNumber (parseInt s)
       | TRegExp test => test s = true ∧ v = PString s
       end.
Proof.
  destruct (decide (paramName p = k)) as [<-|Hne].
  2:{ rewrite parse_one_other by done. by left. }
  unfold parse_one. destruct (raw !! paramName p) as [s|] eqn:Hraw; [|by left].
  destruct (String.eqb s "") eqn:Hs; [by left|]. apply String.eqb_neq in Hs.
  destruct (paramType p) as [| |test].
  - rewrite obj_get_set_eq. intros [= <-]. right. by exists s.
  - rewrite obj_get_set_eq. intros [= <-]. right. by exists s.
  - destruct (test s) eqn:Htest; [|by left].
    rewrite obj_get_set_eq. intros [= <-]. right. by exists s.
Qed.

Lemma foldl_parse_one_inv raw ps : ∀ params k v,
  obj_get k (foldl (parse_one raw) params ps) = Some v →
  obj_get k params = Some v ∨
  ∃ p s, p ∈ ps ∧ paramName p = k ∧ raw !! k = Some s ∧ s ≠ "" ∧
         match paramType p with
         | TString => v = PString s
         | TNumber => v = PNumber (parseInt s)
         | TRegExp test => test s = true ∧ v = PString s
         end.
Proof.
  induction ps as [|p ps IH]; intros params k v Hget; [by left|].
  simpl in Hget. apply IH in Hget as [Hget|(p' & s & Hin & H')].
  - apply parse_one_inv in Hget as [?|(s & H')]; [by left|].
    right. exists p, s. split; [by left|done].
  - right. exists p', s. split; [by right|done].
Qed.

(** X18: what the function returned by [#getPathParamsParser] can hold,
    when no declared name is the name of a member of [Object.prototype]
    (for such a name the read of the raw value finds the inherited
    member).  A key of the result is the name of a declared parameter
    whose raw value is there and not empty, and its value is that raw text
    for the type [string], [parseInt] of it for [number], and that raw
    text when the pattern accepts it for a regular expression.  A name
    that is not declared, and a name whose raw value is missing or empty,
    is not a key of the result. *)
Theorem resolved_params_are_declared (ps : list PathParams) (raw : gmap string string) :
  Forall (λ p, inherited (paramName p) = false) ps →
  (∀ k v, obj_get k (getPathParamsParser ps raw) = Some v →
     ∃ p s, p ∈ ps ∧ paramName p = k ∧ raw !! k = Some s ∧ s ≠ "" ∧
            match paramType p with
            | TString => v = PString s
            | TNumber => v = PNumber (parseInt s)
            | TRegExp test => test s = true ∧ v = PString s
            end) ∧
  (∀ k, Forall (λ p, paramName p ≠ k) ps → obj_get k (getPathParamsParser ps raw) = None) ∧
  (∀ k, raw !! k = None ∨ raw !! k = Some "" →
        obj_get k (getPathParamsParser ps raw) = None).
Proof.
  intros _.
  assert (∀ k v, obj_get k (getPathParamsParser ps raw) = Some v →
     ∃ p s, p ∈ ps ∧ paramName p = k ∧ raw !! k = Some s ∧ s ≠ "" ∧
            match paramType p with
            | TString => v = PString s
            | TNumber => v = PNumber (parseInt s)
            | TRegExp test => test s = true ∧ v = PString s
            end) as Hinv.
  { intros k v Hget. by apply foldl_parse_one_inv in Hget as [?|?]. }
  split; [done|]. split.
  - intros k Hk. unfold getPathParamsParser. by rewrite foldl_parse_one_other.
  - intros k Hraw.
    destruct (obj_get k (getPathParamsParser ps raw)) as [v|] eqn:Hget; [|done].
    apply Hinv in Hget as (p & s & _ & _ & Hs & Hne & _).
    destruct Hraw as [Hraw|Hraw]; rewrite Hraw in Hs; by simplify_eq.
Qed.

Lemma resolved_params_are_declared_witness :
  (∀ k v, obj_get k (getPathParamsParser id_and_slug raw_id_7) = Some v →
     ∃ p s, p ∈ id_and_slug ∧ paramName p = k ∧ raw_id_7 !! k = Some s ∧ s ≠ "" ∧
            match paramType p with
            | TString => v = PString s
            | TNumber => v = PNumber (parseInt s)
            | TRegExp test => test s = true ∧ v = PString s
            end) ∧
  (∀ k, Forall (λ p, paramName p ≠ k) id_and_slug →
        obj_get k (getPathParamsParser id_and_slug raw_id_7) = None) ∧
  (∀ k, raw_id_7 !! k = None ∨ raw_id_7 !! k = Some "" →
        obj_get k (getPathParamsParser id_and_slug raw_id_7) = None).
Proof.
  apply (resolved_params_are_declared id_and_slug raw_id_7).
  repeat constructor.
Defined.



(** *** [parseInt] on a decimal numeral *)

Lemma digit_in_radix_10 a : digit_in_radix 10 a = digit_of a.
Proof.
  unfold digit_in_radix, digit_of.
  destruct ((48 <=? N_of_ascii a) && (N_of_ascii a <=? 57))%N eqn:E.
  - apply andb_true_iff in E as [E1 E2]. apply N.leb_le in E1, E2.
    rewrite (proj2 (N.ltb_lt _ _)) by lia. done.
  - destruct ((97 <=? N_of_ascii a) && (N_of_ascii a <=? 122))%N eqn:E'.
    + apply andb_true_iff in E' as [E1 E2]. apply N.leb_le in E1, E2.
      rewrite (proj2 (N.ltb_ge _ _)) by lia. done.
    + destruct ((65 <=? N_of_ascii a) && (N_of_ascii a <=? 90))%N eqn:E''; [|done].
      apply andb_true_iff in E'' as [E1 E2]. apply N.leb_le in E1, E2.
      rewrite (proj2 (N.ltb_ge _ _)) by lia. done.
Qed.

Lemma leading_digits_numeral ds : ∀ rest acc n,
  digits_value ds acc = Some n → ends_numeral rest = true →
  leading_digits 10 (ds +:+ rest) (Some acc) = Some n.
Proof.
  induction ds as [|a ds IH]; intros rest acc n Hds Hrest.
  - simpl in Hds. injection Hds as <-. change ("" +:+ rest) with rest.
    destruct rest as [|b rest]; [done|]. simpl in Hrest |- *.
    rewrite digit_in_radix_10. by destruct (digit_of b).
  - change (String a ds +:+ rest) with (String a (ds +:+ rest)).
    simpl in Hds |- *. rewrite digit_in_radix_10.
    destruct (digit_of a) as [d|]; [|done]. simpl. by apply IH.
Qed.

Lemma digit_cases a d :
  digit_of a = Some d →
  a ∈ ["0"; "1"; "2"; "3"; "4"; "5"; "6"; "7"; "8"; "9"]%char.
Proof.
  destruct a as [[] [] [] [] [] [] [] []]; vm_compute; intros [=];
    repeat first [by left | right].
Qed.

Ltac digit_case H :=
  apply digit_cases in H;
  repeat (apply elem_of_cons in H as [->|H]; [try done|]);
  try (by apply elem_of_nil in H).

Lemma digit_not_space a d : digit_of a = Some d → is_white_space a = false.
Proof. intros Hd. digit_case Hd. Qed.

Lemma parseInt_numeral (ds rest : string) (n : N) :
  ds ≠ "" → digits_value ds 0 = Some n → ends_numeral rest = true →
  parseInt (ds +:+ rest) = number_of false n.
Proof.
  intros Hne Hds Hrest. destruct ds as [|a ds]; [done|].
  change (String a ds +:+ rest) with (String a (ds +:+ rest)).
  assert (∃ d, digit_of a = Some d) as [d Hd].
  { simpl in Hds. destruct (digit_of a); [eauto|done]. }
  assert (leading_digits 10 (String a (ds +:+ rest)) None = Some n) as Hlead.
  { simpl. rewrite digit_in_radix_10. simpl in Hds. rewrite Hd in Hds |- *. simpl.
    by apply leading_digits_numeral. }
  assert (skip_white_space (String a (ds +:+ rest)) = String a (ds +:+ rest)) as Hskip.
  { simpl. by rewrite (digit_not_space a d). }
  unfold parseInt. cbv zeta. rewrite Hskip. clear Hskip.
  assert (ds = "" ∨ ∃ b ds' e, ds = String b ds' ∧ digit_of b = Some e) as Hds'.
  { destruct ds as [|b ds']; [by left|]. right. exists b, ds'.
    simpl in Hds. rewrite Hd in Hds. simpl in Hds.
    destruct (digit_of b) as [e|]; [eauto|done]. }
  clear Hds Hne.
  digit_case Hd; try (cbn; cbn in Hlead; by rewrite Hlead).
  destruct Hds' as [->|(b & ds' & e & -> & He)].
  - change ("" +:+ rest) with rest in *.
    destruct rest as [|c rest]; [cbn; cbn in Hlead; by rewrite Hlead|].
    simpl in Hrest.
    destruct c as [[] [] [] [] [] [] [] []]; try discriminate Hrest;
      cbn; cbn in Hlead; by rewrite Hlead.
  - change (String b ds' +:+ rest) with (String b (ds' +:+ rest)) in *.
    digit_case He; cbn; cbn in Hlead; by rewrite Hlead.
Qed.

Lemma size_below (n : N) : (n < 2 ^ 53)%N → (N.size n <= 53)%N.
Proof.
  intros Hn. destruct (N.eq_dec n 0%N) as [->|Hne]; [done|].
  rewrite N.size_log2 by done. apply N.le_succ_l.
  apply N.log2_lt_pow2; lia.
Qed.

(** A natural number up to [2^53] is a double. *)
Lemma round_to_double_exact (n : N) : (n <= 2 ^ 53)%N → round_to_double n = Some n.
Proof.
  intros Hn. destruct (N.eq_dec n (2 ^ 53)%N) as [->|Hne]; [by vm_compute|].
  assert (N.size n <= 53)%N as Hsize by (apply size_below; lia).
  unfold round_to_double.
  replace (N.size n - 53)%N with 0%N by (symmetry; by apply N.sub_0_le).
  cbn [N.ltb N.compare andb]. rewrite N.shiftr_0_r, N.shiftl_0_r.
  by rewrite (proj2 (N.leb_le _ _)) by lia.
Qed.

Lemma number_of_exact (n : N) : (n <= 2 ^ 53)%N → number_of false n = Num (Z.of_N n).
Proof.
  intros Hn. unfold number_of. destruct (N.eqb_spec n 0%N) as [->|_]; [done|].
  by rewrite round_to_double_exact.
Qed.

(** [parseInt] rounds as a double does, keeps the sign of a zero and gives
    an infinity for a numeral of 310 digits. *)
Lemma parseInt_is_a_double :
  parseInt "9007199254740993" = Num 9007199254740992 ∧
  parseInt "9007199254740995" = Num 9007199254740996 ∧
  parseInt "-0" = NegZero ∧
  parseInt (String "1" (string_of_list_ascii (replicate 309 "0"%char))) = Infinity false.
Proof. repeat split; by vm_compute. Qed.



(** *** The value of the composed handler *)

Lemma call_stage_value handler ids : ∀ mws fuel request w,
  linked ids w →
  Forall2 (λ i c, inst_class <$> instances w !! i = Some c) ids mws →
  (length ids ≤ fuel)%nat →
  ∃ w',
    call_stage fuel handler (stage_of ids) request w
    = Some (run_chain mws handler request, w') ∧
    ran w' = ran w ++ take (reached mws request) ids.
Proof.
  induction ids as [|i ids IH]; intros mws fuel request w Hl Hcl Hfuel.
  - apply Forall2_nil_inv_l in Hcl as ->. exists w.
    destruct fuel; simpl; by rewrite app_nil_r.
  - apply Forall2_cons_inv_l in Hcl as (m & mws' & Hm & Hcl & ->).
    destruct fuel as [|fuel]; [simpl in Hfuel; lia|]. simpl in Hl, Hfuel.
    destruct Hl as [Hi Hl].
    destruct (instances w !! i) as [x|] eqn:Hx; [|done].
    simpl in Hi, Hm. injection Hi as Hnext. injection Hm as Hclass.
    simpl. rewrite Hx. simpl. rewrite Hclass.
    set (w1 := mkWorld _ _ _ _ _ _).
    assert (∀ j, inst_next <$> instances w1 !! j = inst_next <$> instances w !! j) as Hn1.
    { intros j. subst w1. simpl. destruct (decide (i = j)) as [<-|Hne].
      - by rewrite lookup_insert_eq, Hx.
      - by rewrite lookup_insert_ne. }
    assert (∀ j, inst_class <$> instances w1 !! j = inst_class <$> instances w !! j) as Hc1.
    { intros j. subst w1. simpl. destruct (decide (i = j)) as [<-|Hne].
      - rewrite lookup_insert_eq, Hx. simpl. by rewrite Hclass.
      - by rewrite lookup_insert_ne. }
    destruct (mw_request m request) as [request'|response].
    + rewrite Hnext. simpl.
      destruct (IH mws' fuel request' w1) as (w' & -> & Hran).
      { eapply linked_ext; [|done]. intros j _. apply Hn1. }
      { eapply Forall2_impl; [exact Hcl|]. intros j c Hj. cbv beta in *.
        by rewrite Hc1. }
      { lia. }
      simpl. exists w'. split; [done|].
      rewrite Hran. subst w1. simpl. by rewrite <- app_assoc.
    + exists w1. split; [done|]. subst w1. simpl. by rewrite take_0.
Qed.

(** X21: the handler made by [#getHandlerWithMiddlewaresAttached], called
    with a request.  It returns what the chain makes of the request: the
    first middleware of the list is outermost and the route handler
    innermost.  The instances run are the ones just made, in the order of
    the list, up to the first middleware that answers by itself. *)
Theorem composed_handler_runs_in_order (middlewares : list MiddlewareClass)
    (handler : Request → Value) (request : Request) (w : World) (fuel : nat) :
  (length middlewares ≤ fuel)%nat →
  ∃ w',
    call_stage fuel handler (getHandlerWithMiddlewaresAttached middlewares w).1 request
               (getHandlerWithMiddlewaresAttached middlewares w).2
    = Some (run_chain middlewares handler request, w') ∧
    ran w' = ran w ++
      take (reached middlewares request)
           (drop (length (created w))
                 (created (getHandlerWithMiddlewaresAttached middlewares w).2)).
Proof.
  intros Hfuel.
  destruct (getHandlerWithMiddlewaresAttached_spec middlewares w)
    as (ids & Hst & Hcr & Hcl & _ & _ & Hlk & Hran & _).
  assert (length ids = length middlewares) as Hlen by by eapply Forall2_length.
  destruct (call_stage_value handler ids middlewares fuel request
              (getHandlerWithMiddlewaresAttached middlewares w).2 Hlk Hcl)
    as (w' & Hcall & Hran'); [lia|].
  exists w'. rewrite Hst. split; [done|].
  by rewrite Hran', Hran, Hcr, drop_app_length.
Qed.

Lemma composed_handler_runs_in_order_witness :
  ∃ w',
    call_stage 8 (λ _, VString "ok")
      (getHandlerWithMiddlewaresAttached [pass_through "A"; pass_through "B"]
         (new_world (λ n, Z.of_nat n))).1
      (mkRequest "GET" "/a" ∅ None)
      (getHandlerWithMiddlewaresAttached [pass_through "A"; pass_through "B"]
         (new_world (λ n, Z.of_nat n))).2
    = Some (run_chain [pass_through "A"; pass_through "B"] (λ _, VString "ok")
              (mkRequest "GET" "/a" ∅ None), w') ∧
    ran w' = ran (new_world (λ n, Z.of_nat n)) ++
      take (reached [pass_through "A"; pass_through "B"] (mkRequest "GET" "/a" ∅ None))
           (drop (length (created (new_world (λ n, Z.of_nat n))))
                 (created (getHandlerWithMiddlewaresAttached
                             [pass_through "A"; pass_through "B"]
                             (new_world (λ n, Z.of_nat n))).2)).
Proof.
  apply (composed_handler_runs_in_order [pass_through "A"; pass_through "B"]
           (λ _, VString "ok") (mkRequest "GET" "/a" ∅ None)
           (new_world (λ n, Z.of_nat n)) 8).
  simpl. lia.
Defined.

End DispatchFacts.

(** ** The express request adapter *)
Module AdapterFacts.
Import Js JsFacts Adapter.

(** *** Names that differ by case *)

Lemma same_letter_lower a b : same_letter a b = true → lower_ascii a = lower_ascii b.
Proof.
  unfold same_letter, lower_ascii, is_upper.
  intros [[Hab|Hab]%orb_true_iff|Hab]%orb_true_iff.
  - by apply Ascii.eqb_eq in Hab as ->.
  - apply andb_true_iff in Hab as [Ha Hb]. rewrite Ha.
    apply N.eqb_eq in Hb. apply andb_true_iff in Ha as [H1 H2].
    apply N.leb_le in H1, H2.
    assert ((65 <=? N_of_ascii b) && (N_of_ascii b <=? 90) = false)%N as ->.
    { apply andb_false_iff. right. apply N.leb_gt. lia. }
    by rewrite <- Hb, ascii_N_embedding.
  - apply andb_true_iff in Hab as [Hb Ha]. rewrite Hb.
    apply N.eqb_eq in Ha. apply andb_true_iff in Hb as [H1 H2].
    apply N.leb_le in H1, H2.
    assert ((65 <=? N_of_ascii a) && (N_of_ascii a <=? 90) = false)%N as ->.
    { apply andb_false_iff. right. apply N.leb_gt. lia. }
    by rewrite <- Ha, ascii_N_embedding.
Qed.

Lemma same_ignoring_case_lower s : ∀ t,
  same_ignoring_case s t = true → toLowerCase s = toLowerCase t.
Proof.
  induction s as [|a s IH]; intros [|b t] Hst; try done.
  simpl in Hst. apply andb_true_iff in Hst as [Hab Hst].
  simpl. by rewrite (same_letter_lower a b), (IH t).
Qed.

Section AdapterFacts.
Context {V : Type} (truthy : V → bool).

Lemma prop_set (o : list (string * option V)) key x : prop (obj_set key x o) key = x.
Proof. unfold prop. by rewrite obj_get_set_eq. Qed.

Lemma prop_set_ne (o : list (string * option V)) key k x :
  key ≠ k → prop (obj_set key x o) k = prop o k.
Proof. intros Hne. unfold prop. by rewrite obj_get_set_ne. Qed.

(** What [read_through] returns, and what a later call returns. *)
Lemma read_through_spec (f : list (string * option V)) kept key :
  let known := kept ≫= λ o, prop o key in
  let r := read_through truthy (Some f) kept key in
  r.1 = (if truthy_value truthy known then known else prop f key) ∧
  (r.2 ≫= λ o, prop o key) = r.1 ∧
  (∀ k, k ≠ key → (r.2 ≫= λ o, prop o k) = (kept ≫= λ o, prop o k)) ∧
  (truthy_value truthy r.1 = true →
   ∀ f', read_through truthy (Some f') r.2 key = r).
Proof.
  unfold read_through. simpl.
  destruct (truthy_value truthy (kept ≫= λ o, prop o key)) eqn:Hknown; simpl.
  - repeat split; try done. intros _ f'. by rewrite Hknown.
  - rewrite prop_set. repeat split; try done.
    + intros k Hk. rewrite prop_set_ne by done. by destruct kept.
    + intros Hv f'. simpl. rewrite prop_set, Hv. done.
Qed.

(** X22: [params] (and [query], which has the same body), for a key that
    is not the name of a member of [Object.prototype].  Unless a truthy
    value is kept for the key, the value returned is the request's; the
    values kept for other keys do not change; and once the value returned
    is truthy, any later call for the key returns it again and changes
    nothing, whatever the parameters of the request have become. *)
Theorem params_keeps_truthy_values (d : Data) (key : string)
    (f : list (string * option V)) :
  req_params (d_req d) = Some f →
  inherited key = false →
  (params truthy d key).1
  = (if truthy_value truthy (d_params d ≫= λ o, prop o key)
     then d_params d ≫= λ o, prop o key
     else prop f key) ∧
  (∀ k, k ≠ key →
     (d_params (params truthy d key).2 ≫= λ o, prop o k) = (d_params d ≫= λ o, prop o k)) ∧
  (truthy_value truthy (params truthy d key).1 = true →
   ∀ req', is_Some (req_params req') →
     params truthy (with_req req' (params truthy d key).2) key
     = ((params truthy d key).1, with_req req' (params truthy d key).2)).
Proof.
  intros Hf _. unfold params. rewrite Hf.
  destruct (read_through_spec f (d_params d) key) as (H1 & H2 & H3 & H4).
  destruct (read_through truthy (Some f) (d_params d) key) as [v o] eqn:E.
  cbn [fst snd d_params d_headers d_req with_req] in *. split; [done|]. split; [done|].
  intros Hv req' [f' Hf']. rewrite Hf'. by rewrite (H4 Hv f').
Qed.

(** X23: [headers] does not tell the cases of letters apart.  For two
    names of ASCII characters that differ by the case of letters only,
    and are not, in lower case, the name of a member of
    [Object.prototype]: both give the same result; unless a truthy value
    is kept for the lower-cased name the value returned is the request's
    header of that name; and once the value returned is truthy, a later
    call under either name returns it again, whatever the headers of the
    request have become. *)
Theorem headers_ignore_case (d : Data) (key key' : string)
    (f : list (string * option V)) :
  req_headers (d_req d) = Some f →
  ascii_text key = true → ascii_text key' = true →
  same_ignoring_case key' key = true →
  inherited (toLowerCase key) = false →
  headers truthy d key' = headers truthy d key ∧
  (headers truthy d key).1
  = (if truthy_value truthy (d_headers d ≫= λ o, prop o (toLowerCase key))
     then d_headers d ≫= λ o, prop o (toLowerCase key)
     else prop f (toLowerCase key)) ∧
  (truthy_value truthy (headers truthy d key).1 = true →
   ∀ req', is_Some (req_headers req') →
     headers truthy (with_req req' (headers truthy d key).2) key'
     = ((headers truthy d key).1, with_req req' (headers truthy d key).2)).
Proof.
  intros Hf _ _ Hcase%same_ignoring_case_lower _. unfold headers. rewrite Hcase, Hf.
  destruct (read_through_spec f (d_headers d) (toLowerCase key)) as (H1 & H2 & H3 & H4).
  destruct (read_through truthy (Some f) (d_headers d) (toLowerCase key)) as [v o] eqn:E.
  cbn [fst snd d_params d_headers d_req with_req] in *. split; [done|]. split; [done|].
  intros Hv req' [f' Hf']. rewrite Hf'. by rewrite (H4 Hv f').
Qed.

End AdapterFacts.

Lemma params_keeps_truthy_values_witness :
  (params truthy_string fresh_data "id").1
  = (if truthy_value truthy_string (d_params fresh_data ≫= λ o, prop o "id")
     then d_params fresh_data ≫= λ o, prop o "id"
     else prop [("id", Some "7")] "id") ∧
  (∀ k, k ≠ "id" →
     (d_params (params truthy_string fresh_data "id").2 ≫= λ o, prop o k)
     = (d_params fresh_data ≫= λ o, prop o k)) ∧
  (truthy_value truthy_string (params truthy_string fresh_data "id").1 = true →
   ∀ req', is_Some (req_params req') →
     params truthy_string (with_req req' (params truthy_string fresh_data "id").2) "id"
     = ((params truthy_string fresh_data "id").1,
        with_req req' (params truthy_string fresh_data "id").2)).
Proof.
  apply (params_keeps_truthy_values truthy_string fresh_data "id" [("id", Some "7")]);
    reflexivity.
Defined.

Lemma headers_ignore_case_witness :
  headers truthy_string fresh_data "ACCEPT" = headers truthy_string fresh_data "Accept" ∧
  (headers truthy_string fresh_data "Accept").1
  = (if truthy_value truthy_string
          (d_headers fresh_data ≫= λ o, prop o (toLowerCase "Accept"))
     then d_headers fresh_data ≫= λ o, prop o (toLowerCase "Accept")
     else prop [("accept", Some "text/html")] (toLowerCase "Accept")) ∧
  (truthy_value truthy_string (headers truthy_string fresh_data "Accept").1 = true →
   ∀ req', is_Some (req_headers req') →
     headers truthy_string
       (with_req req' (headers truthy_string fresh_data "Accept").2) "ACCEPT"
     = ((headers truthy_string fresh_data "Accept").1,
        with_req req' (headers truthy_string fresh_data "Accept").2)).
Proof.
  apply (headers_ignore_case truthy_string fresh_data "Accept" "ACCEPT"
           [("accept", Some "text/html")]); reflexivity.
Defined.

End AdapterFacts.
